(** * wire_skin: a shallow embedding of [wire_skin.py]

    The program turns a wireframe (vertices and edges) into a tube mesh.  It is
    written against Blender's [bmesh] and [mathutils]; the embedding keeps the
    control flow, the exceptions and the mutable objects of the source:

    - Python floats are IEEE binary64 numbers, Rocq's primitive [float];
      [mathutils.Vector] keeps three of them (Blender stores them in single
      precision; no statement below depends on the rounding of a coordinate);
    - a Python exception is a value of [exn]; a method is a function
      [S -> res A * S] that always returns the state it reached, so that what
      a raising call has already mutated stays mutated;
    - every object that is shared (the [BMesh] of a build, the [VertCap]s of a
      [WireSkin]) lives in one store, the [World], and is named by its index.
 *)

From stdpp Require Import base list gmap.
From Stdlib Require Import Floats ZArith Lia Sorted.

#[local] Set Warnings "-inexact-float".

(** ** Exceptions and the state-and-exception monad *)

Inductive exn : Set :=
| AttributeError | TypeError | KeyError | IndexError
| ValueError | ZeroDivisionError | ReferenceError.

Inductive res (A : Type) : Type :=
| Ok (a : A)
| Raise (e : exn).
Arguments Ok {A} a.
Arguments Raise {A} e.

Definition M (S A : Type) : Type := S → res A * S.

Definition ret {S A} (a : A) : M S A := λ s, (Ok a, s).

Definition bind {S A B} (m : M S A) (k : A → M S B) : M S B :=
  λ s, match m s with
       | (Ok a, s') => k a s'
       | (Raise e, s') => (Raise e, s')
       end.

Definition raise {S A} (e : exn) : M S A := λ s, (Raise e, s).
Definition gets {S A} (f : S → A) : M S A := λ s, (Ok (f s), s).
Definition modify {S} (f : S → S) : M S unit := λ s, (Ok tt, f s).
Definition lift {S A} (r : res A) : M S A := λ s, (r, s).

Declare Scope py_scope.
Delimit Scope py_scope with py.
Notation "'let!' x ':=' m 'in' k" := (bind m (λ x, k))
  (at level 10, x name, m at level 100, k at level 200,
   format "'[v' 'let!'  x  ':='  m  'in' '/' k ']'") : py_scope.
Notation "m ';;;' k" := (bind m (λ _, k))
  (at level 100, k at level 200, right associativity,
   format "'[v' m  ';;;' '/' k ']'") : py_scope.
Open Scope py_scope.

(** [for x in l: body]. *)
Fixpoint for_each {S X} (l : list X) (body : X → M S unit) : M S unit :=
  match l with
  | [] => ret tt
  | x :: l' => body x ;;; for_each l' body
  end.

(** Runs [m] on a component of the state and writes the component back. *)
Definition zoom {S T A} (get : S → T) (set : T → S → S) (m : M T A) : M S A :=
  λ s, let '(r, t') := m (get s) in (r, set t' s).

(** ** Python built-ins *)

Module Py.

(** [bool(x)] of a float: false exactly for [0.0] and [-0.0]. *)
Definition truthy (x : float) : bool := negb (PrimFloat.eqb x 0%float).

(** [if v:] where [v] is [None] or a float. *)
Definition truthy_opt (v : option float) : bool :=
  match v with
  | None => false
  | Some x => truthy x
  end.

(** [a / b] on floats. *)
Definition div (a b : float) : res float :=
  if PrimFloat.eqb b 0%float then Raise ZeroDivisionError else Ok (a / b)%float.

(** [float(n)] of a list length. *)
Definition of_nat (n : nat) : float :=
  PrimFloat.of_uint63 (Uint63.of_Z (Z.of_nat n)).

(** [max(l)] and [min(l)] keep the first of equal elements: a later element
    replaces the current one only when it is strictly greater (smaller). *)
Definition max (a : float) (l : list float) : float :=
  foldl (λ m x, if PrimFloat.ltb m x then x else m) a l.
Definition min (a : float) (l : list float) : float :=
  foldl (λ m x, if PrimFloat.ltb x m then x else m) a l.

(** [l[i]]. *)
Definition getitem {A} (l : list A) (i : nat) : res A :=
  match l !! i with
  | Some a => Ok a
  | None => Raise IndexError
  end.

(** [d[k] = v] on a dict with float keys, kept in insertion order: a key that
    compares equal ([==]) to [k] keeps its place and gets the new value. *)
Fixpoint dict_set {V} (d : list (float * V)) (k : float) (v : V) : list (float * V) :=
  match d with
  | [] => [(k, v)]
  | (k', v') :: d' =>
      if PrimFloat.eqb k' k then (k', v) :: d' else (k', v') :: dict_set d' k v
  end.

(** [sorted], on the items of a dict, by key: insertion sort with [<]. *)
Fixpoint insert_sorted {V} (kv : float * V) (l : list (float * V)) : list (float * V) :=
  match l with
  | [] => [kv]
  | kv' :: l' =>
      if PrimFloat.ltb (fst kv) (fst kv') then kv :: l
      else kv' :: insert_sorted kv l'
  end.

Definition sorted {V} (d : list (float * V)) : list (float * V) :=
  foldr insert_sorted [] d.

(** A value that is a float or, after the stray comma of line 24, a tuple of
    integers. *)
Inductive num_or_tuple : Set :=
| Float (x : float)
| Tuple (l : list Z).

(** [v * s] for a float [s]: a tuple times a float is a [TypeError]. *)
Definition mul (v : num_or_tuple) (s : float) : res float :=
  match v with
  | Float x => Ok (x * s)%float
  | Tuple _ => Raise TypeError
  end.

End Py.

(** ** mathutils: vectors and 3x3 matrices *)

Module Vec.

Local Open Scope float_scope.

Record t : Set := mk { x : float; y : float; z : float }.

Definition zero : t := mk 0 0 0.
Definition add (a b : t) : t := mk (x a + x b) (y a + y b) (z a + z b).
Definition sub (a b : t) : t := mk (x a - x b) (y a - y b) (z a - z b).
Definition neg (a : t) : t := mk (- x a) (- y a) (- z a).
Definition scale (a : t) (s : float) : t := mk (x a * s) (y a * s) (z a * s).
Definition dot (a b : t) : float := x a * x b + y a * y b + z a * z b.
Definition cross (a b : t) : t :=
  mk (y a * z b - z a * y b) (z a * x b - x a * z b) (x a * y b - y a * x b).
Definition magnitude (a : t) : float := PrimFloat.sqrt (dot a a).

(** [v.normalized()]: the zero vector (and anything shorter than Blender's
    cut-off) stays zero. *)
Definition normalized (a : t) : t :=
  let d := dot a a in
  if PrimFloat.ltb 1e-35 d then scale a (1 / PrimFloat.sqrt d) else zero.

(** [v[i]]. *)
Definition get (a : t) (i : nat) : float :=
  match i with
  | 0%nat => x a
  | 1%nat => y a
  | _ => z a
  end.

(** An attribute or operator of a value that may be [None]. *)
Definition attr (v : option t) : res t :=
  match v with
  | Some a => Ok a
  | None => Raise AttributeError
  end.
Definition operand (v : option t) : res t :=
  match v with
  | Some a => Ok a
  | None => Raise TypeError
  end.

End Vec.

Module Matrix.

Local Open Scope float_scope.

(** [Matrix((r0, r1, r2))]: three rows. *)
Record t : Set := mk { r0 : Vec.t; r1 : Vec.t; r2 : Vec.t }.

Definition transpose (m : t) : t :=
  mk (Vec.mk (Vec.x (r0 m)) (Vec.x (r1 m)) (Vec.x (r2 m)))
     (Vec.mk (Vec.y (r0 m)) (Vec.y (r1 m)) (Vec.y (r2 m)))
     (Vec.mk (Vec.z (r0 m)) (Vec.z (r1 m)) (Vec.z (r2 m))).

Definition determinant (m : t) : float := Vec.dot (r0 m) (Vec.cross (r1 m) (r2 m)).

(** [m.invert()]: the adjugate over the determinant; a singular matrix is a
    [ValueError]. *)
Definition invert (m : t) : res t :=
  let d := determinant m in
  if PrimFloat.eqb d 0 then Raise ValueError
  else
    let c0 := Vec.cross (r1 m) (r2 m) in
    let c1 := Vec.cross (r2 m) (r0 m) in
    let c2 := Vec.cross (r0 m) (r1 m) in
    Ok (transpose (mk (Vec.scale c0 (1 / d)) (Vec.scale c1 (1 / d)) (Vec.scale c2 (1 / d)))).

(** [m * v]. *)
Definition mulv (m : t) (v : Vec.t) : Vec.t :=
  Vec.mk (Vec.dot (r0 m) v) (Vec.dot (r1 m) v) (Vec.dot (r2 m) v).

End Matrix.

(** ** bmesh: the mesh under construction

    A [BMesh] accumulates vertices, edges and faces.  A vertex is named by
    [vid], its position in [verts]; an edge by its position in [edges].
    [faces.new] also creates the edges of the face that do not exist yet.
    After [free] every access raises [ReferenceError].  (bmesh also refuses a
    face whose vertices already form one; the builds below create every face
    from vertices made for it, and that check is left out.) *)

Module BMesh.

Record BMVert : Set := mkVert { vid : nat; co : Vec.t }.

Record BMEdge : Set := mkEdge { ev1 : nat; ev2 : nat; crease : option float }.

Record t : Set := mk {
  is_valid : bool;
  verts : list BMVert;
  edges : list BMEdge;
  faces : list (list BMVert);
  has_crease_layer : bool
}.

(** [bmesh.new()]. *)
Definition new : t := mk true [] [] [] false.

Definition check_valid : M t unit :=
  let! ok := gets is_valid in
  if ok then ret tt else raise ReferenceError.

(** [bm.verts.new(co)]. *)
Definition verts_new (p : Vec.t) : M t BMVert :=
  check_valid ;;;
  let! n := gets (λ b, length (verts b)) in
  let v := mkVert n p in
  modify (λ b, mk (is_valid b) (verts b ++ [v]) (edges b) (faces b) (has_crease_layer b)) ;;;
  ret v.

Definition joins (a b : nat) (e : BMEdge) : bool :=
  (Nat.eqb (ev1 e) a && Nat.eqb (ev2 e) b) || (Nat.eqb (ev1 e) b && Nat.eqb (ev2 e) a).

Fixpoint find_edge (es : list BMEdge) (a b : nat) (i : nat) : option nat :=
  match es with
  | [] => None
  | e :: es' => if joins a b e then Some i else find_edge es' a b (S i)
  end.

Definition ensure_edge (es : list BMEdge) (ab : nat * nat) : list BMEdge :=
  match find_edge es ab.1 ab.2 0 with
  | Some _ => es
  | None => es ++ [mkEdge ab.1 ab.2 None]
  end.

(** The sides of a face: each vertex with the next one, the last with the first. *)
Definition sides (vs : list BMVert) : list (nat * nat) :=
  match vs with
  | [] => []
  | v :: vs' => zip (map vid vs) (map vid (vs' ++ [v]))
  end.

(** [bm.faces.new(vs)]. *)
Definition faces_new (vs : list BMVert) : M t unit :=
  check_valid ;;;
  modify (λ b, mk (is_valid b) (verts b) (foldl ensure_edge (edges b) (sides vs))
                  (faces b ++ [vs]) (has_crease_layer b)).

(** [bm.edges.get([a, b])]: the edge, or [None]. *)
Definition edges_get (a b : BMVert) : M t (option nat) :=
  check_valid ;;;
  gets (λ m, find_edge (edges m) (vid a) (vid b) 0).

(** [bm.edges.layers.crease.new()]. *)
Definition crease_layer_new : M t unit :=
  check_valid ;;;
  modify (λ b, mk (is_valid b) (verts b) (edges b) (faces b) true).

(** [edge[crease_layer] = value]. *)
Definition set_crease (e : nat) (value : float) : M t unit :=
  check_valid ;;;
  modify (λ b, mk (is_valid b) (verts b)
                  (alter (λ ed, mkEdge (ev1 ed) (ev2 ed) (Some value)) e (edges b))
                  (faces b) (has_crease_layer b)).

(** [bm.to_mesh(me)]: the mesh data block receives a copy of the content. *)
Definition to_mesh : M t t :=
  check_valid ;;;
  gets id.

(** [bm.free()]. *)
Definition free : M t unit :=
  modify (λ b, mk false (verts b) (edges b) (faces b) (has_crease_layer b)).

End BMesh.

(** ** The input: a wireframe and the keyword arguments

    [mesh.vertices[i].co] is the [i]-th position and [mesh.vertices[i].index]
    is [i]; [mesh.edges[k].vertices] is a pair of vertex indices and
    [mesh.edges[k].index] is [k]. *)

Record Mesh : Set := mkMesh {
  vertices : list Vec.t;
  mesh_edges : list (nat * nat)
}.

(** [**kwargs]: each key is absent ([None]) or present with a value of its
    type; [crease] may be present with the value [None]. *)
Record Kwargs : Set := mkKwargs {
  kw_width : option float;
  kw_height : option float;
  kw_dist : option float;
  kw_radius : option float;
  kw_inside_radius : option float;
  kw_outside_radius : option float;
  kw_crease : option (option float);
  kw_displace : option float;
  kw_proportional_scale : option bool
}.

(** The dict built by [add_edge_vert]: keys ['v'], ['i'], ['e'], ['l']. *)
Record EdgeVert : Set := mkEdgeVert {
  ev_v : Vec.t;
  ev_i : nat;
  ev_e : nat;
  ev_l : float
}.

(** A profile is the four-element list [[v1, v2, v3, v4]] of line 243. *)
Record Profile : Set := mkProfile {
  pv1 : BMesh.BMVert;
  pv2 : BMesh.BMVert;
  pv3 : BMesh.BMVert;
  pv4 : BMesh.BMVert
}.

(** [profile[i]] for [i] in [0..3]. *)
Definition profile_get (p : Profile) (i : nat) : BMesh.BMVert :=
  match i with
  | 0 => pv1 p
  | 1 => pv2 p
  | 2 => pv3 p
  | _ => pv4 p
  end.

Definition profile_verts (p : Profile) : list BMesh.BMVert := [pv1 p; pv2 p; pv3 p; pv4 p].

(** ** class VertCap *)

Module VertCap.

Local Open Scope float_scope.

Record t : Set := mk {
  input_vert : Vec.t;
  bm : nat;
  input_edge_verts : list EdgeVert;
  width_2 : float;
  height_2 : float;
  dist : Py.num_or_tuple;
  inside_radius : float;
  outside_radius : float;
  crease : option float;
  displace : option float;
  proportional_scale : bool;
  poles : list BMesh.BMVert;
  normal : option Vec.t;
  profiles : list Profile;
  edge_profile_map : gmap nat Profile;
  creased_edges : list (option nat)
}.

Definition set_input_edge_verts (v : list EdgeVert) (c : t) : t :=
  mk (input_vert c) (bm c) v (width_2 c) (height_2 c) (dist c) (inside_radius c)
     (outside_radius c) (crease c) (displace c) (proportional_scale c) (poles c)
     (normal c) (profiles c) (edge_profile_map c) (creased_edges c).
Definition set_poles (v : list BMesh.BMVert) (c : t) : t :=
  mk (input_vert c) (bm c) (input_edge_verts c) (width_2 c) (height_2 c) (dist c)
     (inside_radius c) (outside_radius c) (crease c) (displace c) (proportional_scale c) v
     (normal c) (profiles c) (edge_profile_map c) (creased_edges c).
Definition set_normal (v : option Vec.t) (c : t) : t :=
  mk (input_vert c) (bm c) (input_edge_verts c) (width_2 c) (height_2 c) (dist c)
     (inside_radius c) (outside_radius c) (crease c) (displace c) (proportional_scale c)
     (poles c) v (profiles c) (edge_profile_map c) (creased_edges c).
Definition set_profiles (v : list Profile) (m : gmap nat Profile) (c : t) : t :=
  mk (input_vert c) (bm c) (input_edge_verts c) (width_2 c) (height_2 c) (dist c)
     (inside_radius c) (outside_radius c) (crease c) (displace c) (proportional_scale c)
     (poles c) (normal c) v m (creased_edges c).
Definition set_creased_edges (v : list (option nat)) (c : t) : t :=
  mk (input_vert c) (bm c) (input_edge_verts c) (width_2 c) (height_2 c) (dist c)
     (inside_radius c) (outside_radius c) (crease c) (displace c) (proportional_scale c)
     (poles c) (normal c) (profiles c) (edge_profile_map c) v.

(** A method runs on the cap and on the [BMesh] its [bm] field refers to. *)
Definition St : Set := t * BMesh.t.

Definition self : M St t := gets fst.
Definition update (f : t → t) : M St unit := modify (λ s, (f s.1, s.2)).
Definition on_bm {A} (m : M BMesh.t A) : M St A := zoom snd (λ b s, (s.1, b)) m.

(** [self.radius]: no code ever sets this attribute. *)
Definition self_radius : res float := Raise AttributeError.

(** [VertCap.__init__(self, v, bm, **kwargs)]. *)
Definition init (v : Vec.t) (b : nat) (kw : Kwargs) : res t :=
  let width_2 := match kw_width kw with Some w => w / 2 | None => 0.1 end in
  let height_2 := match kw_height kw with Some h => h / 2 | None => width_2 end in
  let dist := match kw_dist kw with Some d => Py.Float d | None => Py.Tuple [0%Z; 25%Z] end in
  match (match kw_inside_radius kw with Some r => Ok r | None => self_radius end) with
  | Raise e => Raise e
  | Ok inside_radius =>
  match (match kw_outside_radius kw with Some r => Ok r | None => self_radius end) with
  | Raise e => Raise e
  | Ok outside_radius =>
      let crease := match kw_crease kw with Some c => c | None => None end in
      let displace := match kw_displace kw with Some d => Some d | None => None end in
      let proportional_scale :=
        match kw_proportional_scale kw with Some true => true | _ => false end in
      Ok (mk v b [] width_2 height_2 dist inside_radius outside_radius crease displace
             proportional_scale [] None [] ∅ [])
  end end.

(** [add_edge_vert(self, edge, v)]. *)
Definition add_edge_vert (edge : nat) (v_index : nat) (v_co : Vec.t) : M St unit :=
  let! c := self in
  let edge_vert := mkEdgeVert v_co v_index edge (Vec.magnitude (Vec.sub (input_vert c) v_co)) in
  update (set_input_edge_verts (input_edge_verts c ++ [edge_vert])).

(** [diff_average(self, diffs)]. *)
Definition diff_average (diffs : list Vec.t) : res Vec.t :=
  let vave := foldl Vec.add Vec.zero diffs in
  match Py.div 1 (Py.of_nat (length diffs)) with
  | Ok s => Ok (Vec.scale vave s)
  | Raise e => Raise e
  end.

(** The covariance sums of lines 87 to 96. *)
Definition covariance (centroid : Vec.t) (diffs : list Vec.t)
  : float * float * float * float * float * float :=
  foldl (λ '(xx, xy, xz, yy, yz, zz) p,
           let r := Vec.sub p centroid in
           (xx + Vec.x r * Vec.x r, xy + Vec.x r * Vec.y r, xz + Vec.x r * Vec.z r,
            yy + Vec.y r * Vec.y r, yz + Vec.y r * Vec.z r, zz + Vec.z r * Vec.z r))
        (0, 0, 0, 0, 0, 0) diffs.

Definition det_x (cv : float * float * float * float * float * float) : float :=
  let '(xx, xy, xz, yy, yz, zz) := cv in yy * zz - yz * yz.
Definition det_y (cv : float * float * float * float * float * float) : float :=
  let '(xx, xy, xz, yy, yz, zz) := cv in xx * zz - xz * xz.
Definition det_z (cv : float * float * float * float * float * float) : float :=
  let '(xx, xy, xz, yy, yz, zz) := cv in xx * yy - xy * xy.
Definition det_max (cv : float * float * float * float * float * float) : float :=
  Py.max (abs (det_x cv)) [abs (det_y cv); abs (det_z cv)].

Definition div2 (n1 n2 d : float) (k : float → float → Vec.t) : res Vec.t :=
  match Py.div n1 d with
  | Raise e => Raise e
  | Ok a => match Py.div n2 d with
            | Raise e => Raise e
            | Ok b => Ok (k a b)
            end
  end.

(** [least_squares_normal(self, vave, diffs)]. *)
Definition least_squares_normal (vave : Vec.t) (diffs : list Vec.t) : res Vec.t :=
  let centroid := vave in
  let cv := covariance centroid diffs in
  let '(xx, xy, xz, yy, yz, zz) := cv in
  if PrimFloat.ltb (det_max cv) 0.00001 then Ok vave
  else
    match
      (if PrimFloat.eqb (det_max cv) (abs (det_x cv)) then
         div2 (xz * yz - xy * zz) (xy * yz - xz * yy) (det_x cv) (λ a b, Vec.mk 1 a b)
       else if PrimFloat.eqb (det_max cv) (abs (det_y cv)) then
         div2 (yz * xz - xy * zz) (xy * xz - yz * xx) (det_y cv) (λ a b, Vec.mk a 1 b)
       else
         div2 (yz * xy - xz * yy) (xz * xy - yz * xx) (det_z cv) (λ a b, Vec.mk a b 1))
    with
    | Raise e => Raise e
    | Ok normal =>
        if PrimFloat.ltb (Vec.dot vave normal) 0 then Ok (Vec.neg normal) else Ok normal
    end.

(** The unit vectors of line 127. *)
Definition edge_diffs (c : t) : list Vec.t :=
  map (λ ev, Vec.normalized (Vec.sub (ev_v ev) (input_vert c))) (input_edge_verts c).

(** [mult += self.displace] under [if self.displace:]. *)
Definition add_displace (d : option float) (mult : float) : float :=
  match d with
  | Some x => if Py.truthy x then mult + x else mult
  | None => mult
  end.

(** [create_pole_verts(self)]. *)
Definition create_pole_verts : M St unit :=
  let! c := self in
  let n := length (input_edge_verts c) in
  if Nat.eqb n 0 then ret tt
  else
    let diffs := edge_diffs c in
    let! vave := lift (diff_average diffs) in
    if PrimFloat.ltb 0.0000001 (Vec.magnitude vave) then
      let! normal :=
        (if Nat.ltb n 3 then ret (Vec.neg (Vec.normalized vave))
         else let! lsn := lift (least_squares_normal vave diffs) in
              ret (Vec.neg (Vec.normalized lsn))) in
      update (set_normal (Some normal)) ;;;
      let! scale :=
        (if proportional_scale c then
           let scale := foldl (λ s ev, s + ev_l ev) 0 (input_edge_verts c) in
           let! r := lift (Py.div 1 (Py.of_nat n)) in
           ret (scale * r)
         else ret 1) in
      let mult := add_displace (displace c) (outside_radius c * scale) in
      let! v1 := on_bm (BMesh.verts_new (Vec.add (input_vert c) (Vec.scale normal mult))) in
      update (λ c, set_poles (poles c ++ [v1]) c) ;;;
      if Nat.ltb 1 n then
        let mult := add_displace (displace c) (- inside_radius c * scale) in
        let! v2 := on_bm (BMesh.verts_new (Vec.add (input_vert c) (Vec.scale normal mult))) in
        update (λ c, set_poles (poles c ++ [v2]) c)
      else ret tt
    else ret tt.

(** [create_profile(self, edge_vert, other_normal)]. *)
Definition create_profile (edge_vert : EdgeVert) (other_normal : option Vec.t) : M St unit :=
  let! c := self in
  let scale := if proportional_scale c then ev_l edge_vert else 1 in
  let! dist := lift (Py.mul (dist c) scale) in
  let width_2 := width_2 c * scale in
  let height_2 := height_2 c * scale in
  let vert := ev_v edge_vert in
  let etangent := Vec.sub vert (input_vert c) in
  let! vpole :=
    (if PrimFloat.ltb 0.000001 (Vec.magnitude etangent) then
       let! q := lift (Py.div dist (Vec.magnitude etangent)) in
       let proportion := Py.min 0.5 [q] in
       let! n := lift (Vec.operand (normal c)) in
       let! o := lift (Vec.operand other_normal) in
       ret (Some (Vec.add (Vec.scale n (1 - proportion)) (Vec.scale o proportion)))
     else ret (normal c)) in
  let etangent := Vec.normalized etangent in
  let ecenter := Vec.add (input_vert c) (Vec.scale etangent dist) in
  let vpole :=
    if Nat.ltb (length (input_edge_verts c)) 2 then
      let fudge := Vec.mk 1 0 0 in
      if PrimFloat.ltb 0.0001 (abs (abs (Vec.dot fudge etangent) - Vec.magnitude etangent))
      then Some (Vec.add etangent fudge)
      else Some (Vec.add etangent (Vec.mk 1 1 0))
    else vpole in
  let! vp := lift (Vec.attr vpole) in
  let ebinormal := Vec.scale (Vec.normalized (Vec.cross vp etangent)) width_2 in
  let enormal := Vec.normalized (Vec.cross etangent ebinormal) in
  let ecenter :=
    match displace c with
    | Some d => if Py.truthy d then Vec.add ecenter (Vec.scale enormal d) else ecenter
    | None => ecenter
    end in
  let enormal := Vec.scale enormal height_2 in
  let! v1 := on_bm (BMesh.verts_new (Vec.add (Vec.add ecenter enormal) ebinormal)) in
  let! v2 := on_bm (BMesh.verts_new (Vec.sub (Vec.add ecenter enormal) ebinormal)) in
  let! v3 := on_bm (BMesh.verts_new (Vec.sub (Vec.sub ecenter enormal) ebinormal)) in
  let! v4 := on_bm (BMesh.verts_new (Vec.add (Vec.sub ecenter enormal) ebinormal)) in
  let profile := mkProfile v1 v2 v3 v4 in
  update (λ c, set_profiles (profiles c ++ [profile])
                            (<[ev_e edge_vert := profile]> (edge_profile_map c)) c).

(** [get_edge_profile(self, edge)]. *)
Definition get_edge_profile (c : t) (edge : nat) : res Profile :=
  match edge_profile_map c !! edge with
  | Some p => Ok p
  | None => Raise KeyError
  end.

Section WithAtan2.

(** [math.atan2], a function of the C library. *)
Variable atan2 : float → float → float.

Definition pi : float := 3.141592653589793.

(** The angle of an edge vertex in the frame [mat] (lines 177 to 181). *)
Definition theta_of (mat : Matrix.t) (c : t) (ev : EdgeVert) : float :=
  let v := Matrix.mulv mat (Vec.sub (ev_v ev) (input_vert c)) in
  let theta := atan2 (Vec.get v 1) (Vec.get v 0) in
  if PrimFloat.ltb theta 0 then theta + 2 * pi else theta.

(** [reorder_edge_verts(self)].  [sorted(theta_edge_verts)] yields the keys
    of the dict; each one is then looked up again, which gives the items of
    the dict in the order of their keys. *)
Definition reorder_edge_verts : M St unit :=
  let! c := self in
  if Nat.ltb (length (input_edge_verts c)) 2 then ret tt
  else
    let to_z := normal c in
    let! ev0 := lift (Py.getitem (input_edge_verts c) 0) in
    let vedge := Vec.sub (ev_v ev0) (input_vert c) in
    let! zv := lift (Vec.attr to_z) in
    let to_y := Vec.normalized (Vec.cross zv vedge) in
    let to_x := Vec.normalized (Vec.cross to_y zv) in
    let mat := Matrix.transpose (Matrix.mk to_x to_y zv) in
    let! mat := lift (Matrix.invert mat) in
    let theta_edge_verts :=
      foldl (λ d ev, Py.dict_set d (theta_of mat c ev) ev) [] (drop 1 (input_edge_verts c)) in
    let sorted_edge_verts := ev0 :: map snd (Py.sorted theta_edge_verts) in
    update (set_input_edge_verts sorted_edge_verts).

(** [create_profiles(self, vert_caps)]. *)
Definition create_profiles (vert_caps : list t) : M St unit :=
  let! c := self in
  if Nat.eqb (length (input_edge_verts c)) 0 then ret tt
  else
    reorder_edge_verts ;;;
    let! c := self in
    for_each (input_edge_verts c) (λ edge_vert,
      let! other := lift (Py.getitem vert_caps (ev_i edge_vert)) in
      create_profile edge_vert (normal other)).

End WithAtan2.

(** [create_pole_faces(self)]. *)
Definition create_pole_faces : M St unit :=
  let! c := self in
  for_each (profiles c) (λ profile,
    if Nat.ltb 1 (length (input_edge_verts c)) then
      let! pole1 := lift (Py.getitem (poles c) 1) in
      on_bm (BMesh.faces_new [pole1; profile_get profile 3; profile_get profile 2]) ;;;
      let! pole0 := lift (Py.getitem (poles c) 0) in
      on_bm (BMesh.faces_new [pole0; profile_get profile 1; profile_get profile 0])
    else
      for_each (seq 0 4) (λ i,
        let! pole0 := lift (Py.getitem (poles c) 0) in
        on_bm (BMesh.faces_new [pole0; profile_get profile ((i + 1) mod 4);
                                profile_get profile i]))).

(** [create_inter_profile_faces(self)]. *)
Definition create_inter_profile_faces : M St unit :=
  let! c := self in
  if Nat.ltb (length (input_edge_verts c)) 2 then ret tt
  else
    let num_profiles := length (profiles c) in
    for_each (seq 0 num_profiles) (λ i,
      let this_i := i in
      let next_i := ((i + 1) mod num_profiles)%nat in
      let! this_profile := lift (Py.getitem (profiles c) this_i) in
      let! next_profile := lift (Py.getitem (profiles c) next_i) in
      let! pole0 := lift (Py.getitem (poles c) 0) in
      on_bm (BMesh.faces_new [pole0; profile_get this_profile 0; profile_get next_profile 1]) ;;;
      let! pole1 := lift (Py.getitem (poles c) 1) in
      on_bm (BMesh.faces_new [pole1; profile_get next_profile 2; profile_get this_profile 3]) ;;;
      on_bm (BMesh.faces_new [profile_get this_profile 0; profile_get this_profile 3;
                              profile_get next_profile 2; profile_get next_profile 1]) ;;;
      match crease c with
      | None => ret tt
      | Some _ =>
          let! e1 := on_bm (BMesh.edges_get (profile_get this_profile 0)
                                            (profile_get next_profile 1)) in
          update (λ c, set_creased_edges (creased_edges c ++ [e1]) c) ;;;
          let! e2 := on_bm (BMesh.edges_get (profile_get next_profile 2)
                                            (profile_get this_profile 3)) in
          update (λ c, set_creased_edges (creased_edges c ++ [e2]) c)
      end).

(** [crease_edges(self, crease_layer)]: [edge[crease_layer] = self.crease];
    an [edge] or a value that is [None] is a [TypeError]. *)
Definition crease_edges : M St unit :=
  let! c := self in
  for_each (creased_edges c) (λ edge,
    match crease c, edge with
    | Some value, Some e => on_bm (BMesh.set_crease e value)
    | _, _ => raise TypeError
    end).

End VertCap.

(** ** The objects of a [WireSkin] and the store they live in *)

(** The fields of a [ProfileConnector]: [edge] is the index of the wireframe
    edge and [edge_vertices] its two vertex indices; [vert_caps] is the list
    of the [WireSkin] itself and is read from the store. *)
Record Connector : Set := mkConnector {
  pc_edge : nat;
  pc_edge_vertices : nat * nat;
  pc_bm : nat;
  pc_crease : option float;
  pc_creased_edges : list (option nat)
}.

(** The store: every [BMesh] allocated so far, named by its position, and the
    fields of the [WireSkin]. *)
Record World : Set := mkWorld {
  bmeshes : list BMesh.t;
  mesh : Mesh;
  kwargs : Kwargs;
  crease_layer : option nat;
  vert_caps : list VertCap.t;
  profile_connectors : list Connector
}.

Definition set_bmeshes (v : list BMesh.t) (w : World) : World :=
  mkWorld v (mesh w) (kwargs w) (crease_layer w) (vert_caps w) (profile_connectors w).
Definition set_crease_layer (v : option nat) (w : World) : World :=
  mkWorld (bmeshes w) (mesh w) (kwargs w) v (vert_caps w) (profile_connectors w).
Definition set_vert_caps (v : list VertCap.t) (w : World) : World :=
  mkWorld (bmeshes w) (mesh w) (kwargs w) (crease_layer w) v (profile_connectors w).
Definition set_profile_connectors (v : list Connector) (w : World) : World :=
  mkWorld (bmeshes w) (mesh w) (kwargs w) (crease_layer w) (vert_caps w) v.

(** Runs a [BMesh] method on the mesh named [b]. *)
Definition on_bmesh {A} (b : nat) (m : M BMesh.t A) : M World A :=
  λ w, match bmeshes w !! b with
       | None => (Raise ReferenceError, w)
       | Some bm =>
           let '(r, bm') := m bm in (r, set_bmeshes (<[b := bm']> (bmeshes w)) w)
       end.

(** Runs a method of the cap [self.vert_caps[i]] on that cap and its mesh. *)
Definition with_cap {A} (i : nat) (m : M VertCap.St A) : M World A :=
  λ w, match vert_caps w !! i with
       | None => (Raise IndexError, w)
       | Some c =>
           match bmeshes w !! VertCap.bm c with
           | None => (Raise ReferenceError, w)
           | Some bm =>
               let '(r, (c', bm')) := m (c, bm) in
               (r, set_bmeshes (<[VertCap.bm c := bm']> (bmeshes w))
                     (set_vert_caps (<[i := c']> (vert_caps w)) w))
           end
       end.

(** ** class ProfileConnector *)

Module ProfileConnector.

Local Open Scope float_scope.

Definition St : Set := Connector * BMesh.t.

Definition self : M St Connector := gets fst.
Definition on_bm {A} (m : M BMesh.t A) : M St A := zoom snd (λ b s, (s.1, b)) m.
Definition append_creased_edge (e : option nat) : M St unit :=
  modify (λ s, (mkConnector (pc_edge s.1) (pc_edge_vertices s.1) (pc_bm s.1) (pc_crease s.1)
                            (pc_creased_edges s.1 ++ [e]), s.2)).

(** [ProfileConnector.__init__(self, edge, vert_caps, bm, **kwargs)]. *)
Definition init (edge : nat) (edge_vertices : nat * nat) (b : nat) (kw : Kwargs) : Connector :=
  mkConnector edge edge_vertices b
              (match kw_crease kw with Some c => c | None => None end) [].

(** Lines 323 to 325: one round of the search for the smallest length. *)
Definition nearest_step (acc : float * Z) (il : Z * float) : float * Z :=
  let '(min_len, min_i) := acc in
  let '(i, l) := il in
  if PrimFloat.ltb l min_len then (l, i) else (min_len, min_i).

(** Lines 320 to 325: the index of the first smallest length. *)
Definition nearest (lengths : list float) : Z :=
  match lengths with
  | [] => 0
  | l0 :: rest =>
      snd (foldl nearest_step (l0, 0%Z) (imap (λ i l, (Z.of_nat (S i), l)) rest))
  end.

(** [loop[k]] for an integer [k] in [0..3]. *)
Definition at_ (loop : Profile) (k : Z) : BMesh.BMVert := profile_get loop (Z.to_nat k).

(** Lines 314 to 335: [min_i], [min_i2] and [mult]. *)
Definition correspondence (loop0 loop1 : Profile) : Z * Z * Z :=
  let v0 := BMesh.co (at_ loop0 0) in
  let v1 := BMesh.co (at_ loop0 1) in
  let vloop1 := map BMesh.co (profile_verts loop1) in
  let lengths := map (λ p, Vec.magnitude (Vec.sub v0 p)) vloop1 in
  let min_i := nearest lengths in
  let len1 := Vec.magnitude (Vec.sub (BMesh.co (at_ loop1 ((min_i + 1) mod 4))) v1) in
  let len2 := Vec.magnitude (Vec.sub (BMesh.co (at_ loop1 ((min_i - 1) mod 4))) v1) in
  if PrimFloat.ltb len1 len2 then (min_i, (min_i + 1) mod 4, 1)%Z
  else (min_i, (min_i - 1) mod 4, -1)%Z.

(** [join_profiles(self)]. *)
Definition join_profiles (vert_caps : list VertCap.t) : M St unit :=
  let! pc := self in
  let! vc0 := lift (Py.getitem vert_caps (pc_edge_vertices pc).1) in
  let! vc1 := lift (Py.getitem vert_caps (pc_edge_vertices pc).2) in
  let! loop0 := lift (VertCap.get_edge_profile vc0 (pc_edge pc)) in
  let! loop1 := lift (VertCap.get_edge_profile vc1 (pc_edge pc)) in
  let '(min_i, min_i2, mult) := correspondence loop0 loop1 in
  for_each (seqZ 0 4) (λ idx,
    let idx1 := ((idx + 1) mod 4)%Z in
    let idx2 := ((min_i2 + mult * idx) mod 4)%Z in
    let idx3 := ((min_i + mult * idx) mod 4)%Z in
    on_bm (BMesh.faces_new [at_ loop0 idx; at_ loop0 idx1; at_ loop1 idx2; at_ loop1 idx3]) ;;;
    match pc_crease pc with
    | None => ret tt
    | Some _ =>
        let! e := on_bm (BMesh.edges_get (at_ loop0 idx1) (at_ loop1 idx2)) in
        append_creased_edge e
    end).

(** [crease_edges(self, crease_layer)]: [edge[crease_layer] = 1.0]. *)
Definition crease_edges : M St unit :=
  let! pc := self in
  for_each (pc_creased_edges pc) (λ edge,
    match edge with
    | Some e => on_bm (BMesh.set_crease e 1.0)
    | None => raise TypeError
    end).

End ProfileConnector.

(** Runs a method of the connector [self.profile_connectors[j]]. *)
Definition with_connector {A} (j : nat) (m : M ProfileConnector.St A) : M World A :=
  λ w, match profile_connectors w !! j with
       | None => (Raise IndexError, w)
       | Some pc =>
           match bmeshes w !! pc_bm pc with
           | None => (Raise ReferenceError, w)
           | Some bm =>
               let '(r, (pc', bm')) := m (pc, bm) in
               (r, set_bmeshes (<[pc_bm pc := bm']> (bmeshes w))
                     (set_profile_connectors (<[j := pc']> (profile_connectors w)) w))
           end
       end.

(** ** class WireSkin *)

Module WireSkin.

(** [WireSkin.__init__(self, mesh, **kwargs)], in a store with no [BMesh]. *)
Definition init (m : Mesh) (kw : Kwargs) : World := mkWorld [] m kw None [] [].

(** [bmesh.new()]: a new mesh in the store; its name is returned. *)
Definition bmesh_new : M World nat :=
  let! b := gets (λ w, length (bmeshes w)) in
  modify (λ w, set_bmeshes (bmeshes w ++ [BMesh.new]) w) ;;;
  ret b.

(** [create_vert_caps(self, bm)]. *)
Definition create_vert_caps (bm : nat) : M World unit :=
  let! w := gets id in
  for_each (vertices (mesh w)) (λ vert,
    let! c := lift (VertCap.init vert bm (kwargs w)) in
    modify (λ w, set_vert_caps (vert_caps w ++ [c]) w)).

(** [add_edges_to_vert_caps(self)]. *)
Definition add_edges_to_vert_caps : M World unit :=
  let! w := gets id in
  for_each (imap pair (mesh_edges (mesh w))) (λ '(edge, edge_vertices),
    for_each [(edge_vertices.1, edge_vertices.2); (edge_vertices.2, edge_vertices.1)]
      (λ '(this_vert_index, other_vert_index),
        let! other_vert := lift (Py.getitem (vertices (mesh w)) other_vert_index) in
        with_cap this_vert_index (VertCap.add_edge_vert edge other_vert_index other_vert))).

(** [for vert_cap in self.vert_caps: body]. *)
Definition for_each_vert_cap (body : nat → M World unit) : M World unit :=
  let! n := gets (λ w, length (vert_caps w)) in
  for_each (seq 0 n) body.

(** [create_vert_cap_poles(self)]. *)
Definition create_vert_cap_poles : M World unit :=
  for_each_vert_cap (λ i, with_cap i VertCap.create_pole_verts).

Section WithAtan2.

Variable atan2 : float → float → float.

(** [create_vert_cap_profiles(self)]. *)
Definition create_vert_cap_profiles : M World unit :=
  for_each_vert_cap (λ i,
    let! caps := gets vert_caps in
    with_cap i (VertCap.create_profiles atan2 caps)).

(** [create_vert_cap_faces(self)]. *)
Definition create_vert_cap_faces : M World unit :=
  for_each_vert_cap (λ i,
    with_cap i VertCap.create_pole_faces ;;;
    with_cap i VertCap.create_inter_profile_faces).

(** [connect_profiles(self, bm)]. *)
Definition connect_profiles (bm : nat) : M World unit :=
  let! w := gets id in
  for_each (imap pair (mesh_edges (mesh w))) (λ '(edge, edge_vertices),
    let profile_connector := ProfileConnector.init edge edge_vertices bm (kwargs w) in
    let! j := gets (λ w, length (profile_connectors w)) in
    modify (λ w, set_profile_connectors (profile_connectors w ++ [profile_connector]) w) ;;;
    let! caps := gets vert_caps in
    with_connector j (ProfileConnector.join_profiles caps)).

(** [crease_edges(self, bm)]. *)
Definition crease_edges : M World unit :=
  let! layer := gets crease_layer in
  match layer with
  | None => ret tt
  | Some _ =>
      for_each_vert_cap (λ i, with_cap i VertCap.crease_edges) ;;;
      let! n := gets (λ w, length (profile_connectors w)) in
      for_each (seq 0 n) (λ j, with_connector j ProfileConnector.crease_edges)
  end.

(** [create_mesh(self)]: the result is the mesh data block [me]. *)
Definition create_mesh : M World BMesh.t :=
  let! bm := bmesh_new in
  let! kw := gets kwargs in
  match kw_crease kw with
  | Some (Some _) =>
      on_bmesh bm BMesh.crease_layer_new ;;;
      modify (set_crease_layer (Some bm))
  | _ => ret tt
  end ;;;
  create_vert_caps bm ;;;
  add_edges_to_vert_caps ;;;
  create_vert_cap_poles ;;;
  create_vert_cap_profiles ;;;
  create_vert_cap_faces ;;;
  connect_profiles bm ;;;
  crease_edges ;;;
  let! me := on_bmesh bm BMesh.to_mesh in
  on_bmesh bm BMesh.free ;;;
  ret me.

End WithAtan2.

End WireSkin.

(** ** An arc tangent for running examples

    [math.atan2] is not part of the program: the definitions above take it as
    a parameter and the general statements below hold for every choice of it.
    Where an example has to run, this approximation is supplied; it is exact
    on the axes. *)

Module Atan2.

Local Open Scope float_scope.

Definition pi : float := 3.141592653589793.

(** The sum [t - t^3/3 + t^5/5 - ...], twelve terms. *)
Definition series (t : float) : float :=
  let t2 := t * t in
  snd (foldl (λ '(p, s) k, (- (p * t2), s + p / Py.of_nat (2 * k + 1)))
             (t, 0) (seq 0 12)).

Definition halve (t : float) : float := t / (1 + PrimFloat.sqrt (1 + t * t)).

(** [atan t] for [|t| <= 1]: the angle is halved twice before the series. *)
Definition atan_unit (t : float) : float := 4 * series (halve (halve t)).

Definition atan (t : float) : float :=
  if PrimFloat.ltb 1 t then pi / 2 - atan_unit (1 / t)
  else if PrimFloat.ltb t (-1) then - (pi / 2) - atan_unit (1 / t)
  else atan_unit t.

Definition atan2 (y x : float) : float :=
  if PrimFloat.ltb 0 x then atan (y / x)
  else if PrimFloat.ltb x 0 then
    (if PrimFloat.ltb y 0 then atan (y / x) - pi else atan (y / x) + pi)
  else if PrimFloat.ltb 0 y then pi / 2
  else if PrimFloat.ltb y 0 then - (pi / 2)
  else 0.

End Atan2.

(** ** Notions used to state the properties *)

(** A face touches a vertex when the vertex is one of its corners. *)
Definition touches (v : BMesh.BMVert) (face : list BMesh.BMVert) : bool :=
  existsb (λ u, Nat.eqb (BMesh.vid u) (BMesh.vid v)) face.

(** The distance between two mesh vertices, [(p.co - q.co).magnitude]. *)
Definition dist_to (p q : BMesh.BMVert) : float :=
  Vec.magnitude (Vec.sub (BMesh.co p) (BMesh.co q)).

(** The four quads of a connector as the specification words them: quad
    [idx] is [(loop0[idx], loop0[(idx+1) mod 4], loop1[(min_i2 + mult*idx)
    mod 4], loop1[(min_i + mult*idx) mod 4])]. *)
Definition wall_quads (loop0 loop1 : Profile) (min_i min_i2 mult : Z)
  : list (list BMesh.BMVert) :=
  map (λ idx, [ProfileConnector.at_ loop0 idx;
               ProfileConnector.at_ loop0 ((idx + 1) mod 4);
               ProfileConnector.at_ loop1 ((min_i2 + mult * idx) mod 4);
               ProfileConnector.at_ loop1 ((min_i + mult * idx) mod 4)])
      [0; 1; 2; 3]%Z.

(** The crease value stored on edge [e] of mesh [b]; [None] when nothing was
    ever assigned. *)
Definition crease_at (w : World) (b e : nat) : option float :=
  bmeshes w !! b ≫= λ m, BMesh.edges m !! e ≫= BMesh.crease.

(** Mesh [b] has an edge named [e]. *)
Definition has_edge (w : World) (b e : nat) : Prop :=
  is_Some (bmeshes w !! b ≫= λ m, BMesh.edges m !! e).

(** The entries of a list that are not [None]. *)
Definition somes {A} (l : list (option A)) : list A := omap id l.

(** The edges of a mesh after [edge[crease_layer] = value] on edge [e], and
    the mesh after the same assignment on each edge of [l]. *)
Definition stamp (value : float) (es : list BMesh.BMEdge) (e : nat) : list BMesh.BMEdge :=
  alter (λ ed, BMesh.mkEdge (BMesh.ev1 ed) (BMesh.ev2 ed) (Some value)) e es.

Definition restamp (value : float) (l : list nat) (b : BMesh.t) : BMesh.t :=
  BMesh.mk (BMesh.is_valid b) (BMesh.verts b) (foldl (stamp value) (BMesh.edges b) l)
           (BMesh.faces b) (BMesh.has_crease_layer b).

(** A cap that has no registered edge, no pole and no profile. *)
Definition blank (c : VertCap.t) : Prop :=
  VertCap.input_edge_verts c = [] ∧ VertCap.poles c = [] ∧ VertCap.profiles c = [].

(** The lists of a [WireSkin]: [N] caps, blank from position [n0] on, and at
    least [K] connectors. *)
Definition stable (m : Mesh) (kw : Kwargs) (N n0 K : nat) (w : World) : Prop :=
  (mesh w = m ∧ kwargs w = kw)
  ∧ length (vert_caps w) = N
  ∧ K ≤ length (profile_connectors w)
  ∧ ∀ i c, n0 ≤ i → vert_caps w !! i = Some c → blank c.

(** Every edge of the wireframe joins two of its vertices. *)
Definition edges_in_range (m : Mesh) : Prop :=
  ∀ a b, (a, b) ∈ mesh_edges m → a < length (vertices m) ∧ b < length (vertices m).

(** The store once [create_mesh] has allocated its mesh and, when a crease
    is configured, the crease layer. *)
Definition prepared (w : World) : World :=
  match kw_crease (kwargs w) with
  | Some (Some _) =>
      mkWorld (bmeshes w ++ [BMesh.mk true [] [] [] true]) (mesh w) (kwargs w)
              (Some (length (bmeshes w))) (vert_caps w) (profile_connectors w)
  | _ =>
      mkWorld (bmeshes w ++ [BMesh.new]) (mesh w) (kwargs w) (crease_layer w)
              (vert_caps w) (profile_connectors w)
  end.

(** The phases of [create_mesh] on the mesh [bm], from the caps on. *)
Definition phases (atan2 : float → float → float) (bm : nat) : M World BMesh.t :=
  WireSkin.create_vert_caps bm ;;;
  WireSkin.add_edges_to_vert_caps ;;;
  WireSkin.create_vert_cap_poles ;;;
  WireSkin.create_vert_cap_profiles atan2 ;;;
  WireSkin.create_vert_cap_faces ;;;
  WireSkin.connect_profiles bm ;;;
  WireSkin.crease_edges ;;;
  let! me := on_bmesh bm BMesh.to_mesh in
  on_bmesh bm BMesh.free ;;;
  ret me.

(** The configuration gives [inside_radius] and [outside_radius]. *)
Definition has_radii (kw : Kwargs) : Prop :=
  is_Some (kw_inside_radius kw) ∧ is_Some (kw_outside_radius kw).

(** Two computations simulate each other under [R]: from related states they
    give the same result and reach related states. *)
Definition Sim {S1 S2 A} (R : S1 → S2 → Prop) (m1 : M S1 A) (m2 : M S2 A) : Prop :=
  ∀ s1 s2, R s1 s2 → (m1 s1).1 = (m2 s2).1 ∧ R (m1 s1).2 (m2 s2).2.

(** The cap with its [displace] field set to [None]. *)
Definition undisplaced (c : VertCap.t) : VertCap.t :=
  VertCap.mk (VertCap.input_vert c) (VertCap.bm c) (VertCap.input_edge_verts c)
    (VertCap.width_2 c) (VertCap.height_2 c) (VertCap.dist c) (VertCap.inside_radius c)
    (VertCap.outside_radius c) (VertCap.crease c) None (VertCap.proportional_scale c)
    (VertCap.poles c) (VertCap.normal c) (VertCap.profiles c) (VertCap.edge_profile_map c)
    (VertCap.creased_edges c).

(** [c1] holds [displace = 0.0] and [c2] is the same cap without it. *)
Definition zero_displaced (c1 c2 : VertCap.t) : Prop :=
  VertCap.displace c1 = Some 0%float ∧ c2 = undisplaced c1.

(** The same relation on a cap and its mesh. *)
Definition R_st (s1 s2 : VertCap.St) : Prop := zero_displaced s1.1 s2.1 ∧ s1.2 = s2.2.

(** The keyword arguments without [displace]. *)
Definition kw_undisplaced (kw : Kwargs) : Kwargs :=
  mkKwargs (kw_width kw) (kw_height kw) (kw_dist kw) (kw_radius kw) (kw_inside_radius kw)
           (kw_outside_radius kw) (kw_crease kw) None (kw_proportional_scale kw).

(** Two stores that differ only in that the first was configured with
    [displace = 0.0] and the second without [displace]. *)
Definition R_world (w1 w2 : World) : Prop :=
  kw_displace (kwargs w1) = Some 0%float
  ∧ Forall (λ c, VertCap.displace c = Some 0%float) (vert_caps w1)
  ∧ w2 = mkWorld (bmeshes w1) (mesh w1) (kw_undisplaced (kwargs w1)) (crease_layer w1)
                 (undisplaced <$> vert_caps w1) (profile_connectors w1).

(** The wireframe edges, each with its index, that have [v] as an end, and
    the degree of [v]: their number. *)
Definition incident_edges (m : Mesh) (v : nat) : list (nat * (nat * nat)) :=
  filter (λ ke, ke.2.1 = v ∨ ke.2.2 = v) (imap pair (mesh_edges m)).

Definition degree (m : Mesh) (v : nat) : nat := length (incident_edges m v).

(** The faces that close the end of one profile: a fan of four triangles
    around the only pole of a leaf, or a triangle to each of the two poles. *)
Definition end_cap_faces (poles : list BMesh.BMVert) (p : Profile) : list (list BMesh.BMVert) :=
  match poles with
  | [pole0] => map (λ i, [pole0; profile_get p ((i + 1) mod 4); profile_get p i]) (seq 0 4)
  | [pole0; pole1] =>
      [[pole1; profile_get p 3; profile_get p 2]; [pole0; profile_get p 1; profile_get p 0]]
  | _ => []
  end.

(** The faces between a profile and the next one: a top triangle, a bottom
    triangle and the quad between them. *)
Definition lens_faces (poles : list BMesh.BMVert) (this next : Profile)
  : list (list BMesh.BMVert) :=
  match poles with
  | [pole0; pole1] =>
      [[pole0; profile_get this 0; profile_get next 1];
       [pole1; profile_get next 2; profile_get this 3];
       [profile_get this 0; profile_get this 3; profile_get next 2; profile_get next 1]]
  | _ => []
  end.

(** The faces between profile [i] of a cap and its cyclic successor. *)
Definition lens_at (c : VertCap.t) (i : nat) : list (list BMesh.BMVert) :=
  let ps := VertCap.profiles c in
  match ps !! i, ps !! ((i + 1) mod length ps) with
  | Some this, Some next => lens_faces (VertCap.poles c) this next
  | _, _ => []
  end.

(** The intra-cap faces of a cap, in the order of their creation: the end
    caps of every profile, then the faces between adjacent profiles. *)
Definition intra_cap_faces (c : VertCap.t) : list (list BMesh.BMVert) :=
  let ps := VertCap.profiles c in
  flat_map (end_cap_faces (VertCap.poles c)) ps
  ++ flat_map (λ i, match ps !! i, ps !! ((i + 1) mod length ps) with
                    | Some this, Some next => lens_faces (VertCap.poles c) this next
                    | _, _ => []
                    end) (seq 0 (length ps)).

(** The number of faces with [n] corners. *)
Definition count_sides (n : nat) (fs : list (list BMesh.BMVert)) : nat :=
  length (filter (λ f, length f = n) fs).

(** The caps, or the connectors, that all work on the mesh named [0]. *)
Definition on_mesh_0 (caps : list VertCap.t) : Prop := Forall (λ c, VertCap.bm c = 0) caps.

Definition on_mesh_0_pcs (pcs : list Connector) : Prop := Forall (λ pc, pc_bm pc = 0) pcs.

(** A cap on mesh [0] before the pole phase. *)
Definition untouched (c : VertCap.t) : Prop :=
  VertCap.bm c = 0 ∧ VertCap.poles c = [] ∧ VertCap.normal c = None
  ∧ VertCap.profiles c = [] ∧ VertCap.edge_profile_map c = ∅.

(** What the pole phase leaves in a cap with [n] registered edges: no normal
    and no pole, or a normal and one pole, two when [n > 1]. *)
Definition pole_shape (n : nat) (c : VertCap.t) : Prop :=
  (VertCap.normal c = None ∧ VertCap.poles c = [])
  ∨ (is_Some (VertCap.normal c) ∧ n ≠ 0
     ∧ length (VertCap.poles c) = if Nat.ltb 1 n then 2 else 1).

(** A cap [c] and the same cap [c'] after the pole phase, after the profile
    phase, and after the face phase, each when the phase returned normally. *)
Definition poled (c c' : VertCap.t) : Prop :=
  VertCap.input_edge_verts c' = VertCap.input_edge_verts c
  ∧ VertCap.profiles c' = [] ∧ VertCap.edge_profile_map c' = ∅
  ∧ pole_shape (length (VertCap.input_edge_verts c)) c'.

Definition profiled (c c' : VertCap.t) : Prop :=
  VertCap.poles c' = VertCap.poles c ∧ VertCap.normal c' = VertCap.normal c
  ∧ length (VertCap.input_edge_verts c') ≤ length (VertCap.input_edge_verts c)
  ∧ (length (VertCap.input_edge_verts c) < 2 →
     length (VertCap.input_edge_verts c') = length (VertCap.input_edge_verts c))
  ∧ (2 ≤ length (VertCap.input_edge_verts c) →
     2 ≤ length (VertCap.input_edge_verts c') ∧ is_Some (VertCap.normal c))
  ∧ length (VertCap.profiles c') = length (VertCap.input_edge_verts c')
  ∧ ∀ e, is_Some (VertCap.edge_profile_map c' !! e) →
         e ∈ map ev_e (VertCap.input_edge_verts c').

Definition faced (c c' : VertCap.t) : Prop :=
  (∃ ce, c' = VertCap.set_creased_edges ce c)
  ∧ length (VertCap.poles c) = Nat.min (length (VertCap.input_edge_verts c)) 2.

(** A cap as the face phase finds it in a build that got that far: one
    profile per registered edge and no pole too many. *)
Definition ready (c : VertCap.t) : Prop :=
  length (VertCap.profiles c) = length (VertCap.input_edge_verts c)
  ∧ length (VertCap.poles c) ≤ Nat.min (length (VertCap.input_edge_verts c)) 2
  ∧ (2 ≤ length (VertCap.input_edge_verts c) → length (VertCap.poles c) = 2).

(** A face between two profiles: four corners, each a vertex of one of them. *)
Definition joins_profiles (loop0 loop1 : Profile) (f : list BMesh.BMVert) : Prop :=
  length f = 4 ∧ ∀ v, v ∈ f → v ∈ profile_verts loop0 ∨ v ∈ profile_verts loop1.

(** A face between two profiles that caps of the list hold in their maps. *)
Definition wall_of (caps : list VertCap.t) (f : list BMesh.BMVert) : Prop :=
  length f = 4
  ∧ ∀ v, v ∈ f → ∃ c e p, c ∈ caps ∧ VertCap.edge_profile_map c !! e = Some p
                          ∧ v ∈ profile_verts p.

(** A vertex of a cap: a pole or a vertex of one of its profiles. *)
Definition cap_vertex (c : VertCap.t) (v : BMesh.BMVert) : Prop :=
  v ∈ VertCap.poles c ∨ ∃ p, p ∈ VertCap.profiles c ∧ v ∈ profile_verts p.

(** The mesh of a cap is in the store. *)
Definition present (bms : list BMesh.t) (c : VertCap.t) : Prop :=
  is_Some (bms !! VertCap.bm c).

(** The entry that [add_edge_vert] makes at a cap at position [p] for the
    edge [k] and the vertex [o] at its other end. *)
Definition edge_vert_of (vs : list Vec.t) (p : Vec.t) (k o : nat) : list EdgeVert :=
  match vs !! o with
  | Some co => [mkEdgeVert co o k (Vec.magnitude (Vec.sub p co))]
  | None => []
  end.

(** The entries that the edge [k], from [a] to [b], registers at vertex [v]:
    one when [v] is its first end, then one when [v] is its second end. *)
Definition registrations (vs : list Vec.t) (p : Vec.t) (v : nat) (ke : nat * (nat * nat))
  : list EdgeVert :=
  (if decide (ke.2.1 = v) then edge_vert_of vs p ke.1 ke.2.2 else [])
  ++ (if decide (ke.2.2 = v) then edge_vert_of vs p ke.1 ke.2.1 else []).

(** An entry of [creased_edges] that names an edge of the mesh. *)
Definition names_edge (b : BMesh.t) (e : option nat) : Prop :=
  ∃ k, e = Some k ∧ k < length (BMesh.edges b).

(** Every mesh of the store has the property [J]. *)
Definition meshes_keep (J : BMesh.t → Prop) (w : World) : Prop := Forall J (bmeshes w).

(** A mesh without a crease layer and without a crease value on any edge. *)
Definition uncreased (b : BMesh.t) : Prop :=
  BMesh.has_crease_layer b = false ∧ Forall (λ e, BMesh.crease e = None) (BMesh.edges b).
(** A cap on mesh [k] that, if [P] holds, has a registered edge. *)
Definition anchored (k : nat) (P : Prop) (c : VertCap.t) : Prop :=
  VertCap.bm c = k ∧ (P → VertCap.input_edge_verts c ≠ []).

(** The cap at position [i0] has a registered edge and its mesh is freed. *)
Definition stranded (i0 : nat) (w : World) : Prop :=
  ∃ c b, vert_caps w !! i0 = Some c ∧ VertCap.input_edge_verts c ≠ []
         ∧ bmeshes w !! VertCap.bm c = Some b ∧ BMesh.is_valid b = false.

(** Every profile in the map of a cap is one of its profiles. *)
Definition maps_profiles (c : VertCap.t) : Prop :=
  ∀ e p, VertCap.edge_profile_map c !! e = Some p → p ∈ VertCap.profiles c.

(** A cap on mesh [0] that has nothing to do: no registered edge, no profile
    and no edge recorded for creasing. *)
Definition idle (c : VertCap.t) : Prop :=
  VertCap.bm c = 0 ∧ VertCap.input_edge_verts c = [] ∧ VertCap.poles c = []
  ∧ VertCap.profiles c = [] ∧ VertCap.creased_edges c = [].

(** ** Example inputs *)

Module Examples.

Local Open Scope float_scope.

(** Every option that the code needs, and no other. *)
Definition kw_full : Kwargs :=
  mkKwargs (Some 0.2) (Some 0.2) (Some 0.25) None (Some 0.1) (Some 0.1) None None None.

(** [kw_full] with a crease value. *)
Definition kw_crease_half : Kwargs :=
  mkKwargs (Some 0.2) (Some 0.2) (Some 0.25) None (Some 0.1) (Some 0.1) (Some (Some 0.5))
           None None.

(** Only the two radii: [width], [height] and [dist] take their defaults. *)
Definition kw_radii : Kwargs :=
  mkKwargs None None None None (Some 0.1) (Some 0.1) None None None.

(** A base [radius], and neither [inside_radius] nor [outside_radius]. *)
Definition kw_base_radius : Kwargs :=
  mkKwargs (Some 0.2) (Some 0.2) (Some 0.25) (Some 0.1) None None None None None.

(** One vertex, no edge. *)
Definition mesh_point : Mesh := mkMesh [Vec.mk 0 0 0] [].

(** Two vertices joined by one edge. *)
Definition mesh_segment : Mesh := mkMesh [Vec.mk 0 0 0; Vec.mk 1 0 0] [(0, 1)%nat].

(** Three vertices on a right angle: the middle one has degree 2. *)
Definition mesh_corner : Mesh :=
  mkMesh [Vec.mk 1 0 0; Vec.mk 0 0 0; Vec.mk 0 1 0] [(0, 1)%nat; (1, 2)%nat].

(** Three vertices on a straight line: the two directions at the middle
    vertex cancel. *)
Definition mesh_line : Mesh :=
  mkMesh [Vec.mk (-1) 0 0; Vec.mk 0 0 0; Vec.mk 1 0 0] [(0, 1)%nat; (1, 2)%nat].

(** A vertex with three edges, two of them to vertices at the same place. *)
Definition mesh_fork : Mesh :=
  mkMesh [Vec.mk 0 0 0; Vec.mk 1 0 0; Vec.mk 0 1 0; Vec.mk 0 1 0]
         [(0, 1)%nat; (0, 2)%nat; (0, 3)%nat].

(** The store of a build of [mesh_segment] once every cap has made its
    faces, before the connectors run. *)
Definition segment_capped : World :=
  Eval vm_compute in
    ((let! bm := WireSkin.bmesh_new in
      WireSkin.create_vert_caps bm ;;;
      WireSkin.add_edges_to_vert_caps ;;;
      WireSkin.create_vert_cap_poles ;;;
      WireSkin.create_vert_cap_profiles Atan2.atan2 ;;;
      WireSkin.create_vert_cap_faces) (WireSkin.init mesh_segment kw_full)).2.

(** The store of a build of [mesh_corner] with a crease value once the
    connectors have run, before the creases are stamped. *)
Definition corner_connected : World :=
  Eval vm_compute in
    ((let! bm := WireSkin.bmesh_new in
      on_bmesh bm BMesh.crease_layer_new ;;;
      modify (set_crease_layer (Some bm)) ;;;
      WireSkin.create_vert_caps bm ;;;
      WireSkin.add_edges_to_vert_caps ;;;
      WireSkin.create_vert_cap_poles ;;;
      WireSkin.create_vert_cap_profiles Atan2.atan2 ;;;
      WireSkin.create_vert_cap_faces ;;;
      WireSkin.connect_profiles bm) (WireSkin.init mesh_corner kw_crease_half)).2.

(** A cap at the origin with one registered edge, to a vertex at [(1, 0, 0)]. *)
Definition cap_leaf : VertCap.t :=
  VertCap.mk (Vec.mk 0 0 0) 0 [mkEdgeVert (Vec.mk 1 0 0) 1 0 1] 0.1 0.1 (Py.Float 0.25)
             0.1 0.1 None None false [] None [] ∅ [].

(** A build of [mesh_corner]: what [create_mesh] returns and the mesh in it. *)
Definition corner_run : res BMesh.t * World :=
  Eval vm_compute in
    WireSkin.create_mesh Atan2.atan2 (WireSkin.init mesh_corner kw_full).

Definition corner_skin : BMesh.t :=
  Eval vm_compute in match corner_run.1 with Ok me => me | Raise _ => BMesh.new end.

(** The edge vertex of [cap_leaf]. *)
Definition leaf_edge : EdgeVert := mkEdgeVert (Vec.mk 1 0 0) 1 0 1.

(** [cap_leaf] on a new mesh once it has made its pole. *)
Definition leaf_poled : VertCap.St :=
  Eval vm_compute in (VertCap.create_pole_verts (cap_leaf, BMesh.new)).2.

(** [leaf_poled] once the profile of its edge is made, with the normal
    [(1, 0, 0)] for the cap at the other end. *)
Definition leaf_profiled : VertCap.St :=
  Eval vm_compute in (VertCap.create_profile leaf_edge (Some (Vec.mk 1 0 0)) leaf_poled).2.

(** The store of a build of [mesh_corner] with a crease value once every cap
    has made its profiles. *)
Definition corner_profiled : World :=
  Eval vm_compute in
    ((let! bm := WireSkin.bmesh_new in
      on_bmesh bm BMesh.crease_layer_new ;;;
      modify (set_crease_layer (Some bm)) ;;;
      WireSkin.create_vert_caps bm ;;;
      WireSkin.add_edges_to_vert_caps ;;;
      WireSkin.create_vert_cap_poles ;;;
      WireSkin.create_vert_cap_profiles Atan2.atan2) (WireSkin.init mesh_corner kw_crease_half)).2.

(** The cap of the middle vertex in [corner_profiled], with the mesh. *)
Definition corner_mid : VertCap.St :=
  Eval vm_compute in
    match vert_caps corner_profiled !! 1%nat, bmeshes corner_profiled !! 0%nat with
    | Some c, Some b => (c, b)
    | _, _ => (cap_leaf, BMesh.new)
    end.

(** [corner_mid] once the cap has made the faces between its profiles. *)
Definition corner_mid_faced : VertCap.St :=
  Eval vm_compute in (VertCap.create_inter_profile_faces corner_mid).2.

(** The store of [corner_profiled] once every cap has made its faces. *)
Definition corner_faced : World :=
  Eval vm_compute in (WireSkin.create_vert_cap_faces corner_profiled).2.

(** The connector of edge 0 of [mesh_corner], with the mesh of [corner_faced]. *)
Definition corner_connector : ProfileConnector.St :=
  Eval vm_compute in
    (ProfileConnector.init 0 (0, 1)%nat 0 kw_crease_half,
     default BMesh.new (bmeshes corner_faced !! 0%nat)).

(** [corner_connector] once it has joined its two profiles. *)
Definition corner_joined : ProfileConnector.St :=
  Eval vm_compute in
    (ProfileConnector.join_profiles (vert_caps corner_faced) corner_connector).2.

(** The store of a build of [mesh_corner] once the caps exist. *)
Definition corner_capped : World :=
  Eval vm_compute in
    ((let! bm := WireSkin.bmesh_new in WireSkin.create_vert_caps bm)
       (WireSkin.init mesh_corner kw_full)).2.

(** Two vertices, and a second edge to a vertex that does not exist. *)
Definition mesh_dangling : Mesh :=
  mkMesh [Vec.mk 0 0 0; Vec.mk 1 0 0] [(0, 1)%nat; (1, 5)%nat].

(** The store of a build of [mesh_dangling] once the caps exist. *)
Definition dangling_capped : World :=
  Eval vm_compute in
    ((let! bm := WireSkin.bmesh_new in WireSkin.create_vert_caps bm)
       (WireSkin.init mesh_dangling kw_full)).2.

(** A vertex with an edge along each of the three axes. *)
Definition mesh_star : Mesh :=
  mkMesh [Vec.mk 0 0 0; Vec.mk 1 0 0; Vec.mk 0 1 0; Vec.mk 0 0 1]
         [(0, 1)%nat; (0, 2)%nat; (0, 3)%nat].

(** The cap of vertex 0 of [mesh_star] once the poles are made, with the mesh. *)
Definition star_hub : VertCap.St :=
  Eval vm_compute in
    let w := ((let! bm := WireSkin.bmesh_new in
               WireSkin.create_vert_caps bm ;;;
               WireSkin.add_edges_to_vert_caps ;;;
               WireSkin.create_vert_cap_poles) (WireSkin.init mesh_star kw_full)).2 in
    match vert_caps w !! 0%nat, bmeshes w !! 0%nat with
    | Some c, Some b => (c, b)
    | _, _ => (cap_leaf, BMesh.new)
    end.

(** The normal of [star_hub], its first edge vertex and the others. *)
Definition star_normal : Vec.t :=
  Eval vm_compute in default Vec.zero (VertCap.normal star_hub.1).
Definition star_first : EdgeVert := mkEdgeVert (Vec.mk 1 0 0) 1 0 1.
Definition star_rest : list EdgeVert :=
  [mkEdgeVert (Vec.mk 0 1 0) 2 1 1; mkEdgeVert (Vec.mk 0 0 1) 3 2 1].

(** The frame in which [star_hub] measures the angles of its edges. *)
Definition star_frame : Matrix.t :=
  Eval vm_compute in
    let to_y := Vec.normalized (Vec.cross star_normal
                                  (Vec.sub (ev_v star_first) (VertCap.input_vert star_hub.1))) in
    let to_x := Vec.normalized (Vec.cross to_y star_normal) in
    match Matrix.invert (Matrix.transpose (Matrix.mk to_x to_y star_normal)) with
    | Ok mat => mat
    | Raise _ => Matrix.mk to_x to_y star_normal
    end.

(** A build of [mesh_segment]: what [create_mesh] returns and the mesh in it. *)
Definition segment_run : res BMesh.t * World :=
  Eval vm_compute in
    WireSkin.create_mesh Atan2.atan2 (WireSkin.init mesh_segment kw_full).

Definition segment_skin : BMesh.t :=
  Eval vm_compute in match segment_run.1 with Ok me => me | Raise _ => BMesh.new end.

End Examples.

(** * Properties *)

(** ** The monad *)

Lemma bind_ok {S A B} (m : M S A) (k : A → M S B) s b s' :
  bind m k s = (Ok b, s') → ∃ a s1, m s = (Ok a, s1) ∧ k a s1 = (Ok b, s').
Proof.
  unfold bind. destruct (m s) as [[a|e] s1]; [eauto | discriminate].
Qed.

Lemma bind_inv {S A B} (m : M S A) (k : A → M S B) s r s' :
  bind m k s = (r, s') →
  (∃ e, m s = (Raise e, s') ∧ r = Raise e) ∨ (∃ a s1, m s = (Ok a, s1) ∧ k a s1 = (r, s')).
Proof.
  unfold bind. destruct (m s) as [[a|e] s1]; intros H.
  - right. eauto.
  - left. inversion H; subst. eauto.
Qed.

Lemma bind_eq_ok {S A B} (m : M S A) (k : A → M S B) s a s1 :
  m s = (Ok a, s1) → bind m k s = k a s1.
Proof. unfold bind. intros ->. reflexivity. Qed.

Lemma bind_eq_raise {S A B} (m : M S A) (k : A → M S B) s e s1 :
  m s = (Raise e, s1) → bind m k s = (Raise e, s1).
Proof. unfold bind. intros ->. reflexivity. Qed.

Lemma for_each_app {S X} (l1 l2 : list X) (body : X → M S unit) s :
  for_each (l1 ++ l2) body s = (for_each l1 body ;;; for_each l2 body) s.
Proof.
  revert s. induction l1 as [|x l1 IH]; intros s.
  - reflexivity.
  - change (for_each ((x :: l1) ++ l2) body s)
      with ((body x ;;; for_each (l1 ++ l2) body) s).
    change (for_each (x :: l1) body) with (body x ;;; for_each l1 body).
    unfold bind. destruct (body x s) as [[[]|e] s1]; [ | reflexivity].
    rewrite IH. reflexivity.
Qed.

(** A loop that returns normally carries an invariant from the first
    position of the list to the position after the last. *)
Lemma for_each_ok_inv {S X} (Inv : nat → S → Prop) (l : list X) (body : X → M S unit) :
  (∀ k x s s', l !! k = Some x → Inv k s → body x s = (Ok tt, s') → Inv (Datatypes.S k) s') →
  ∀ s s', Inv 0 s → for_each l body s = (Ok tt, s') → Inv (length l) s'.
Proof.
  revert Inv. induction l as [|x l IH]; intros Inv Hstep s s' H0 Hrun; simpl in *.
  - inversion Hrun; subst. exact H0.
  - apply bind_ok in Hrun as ([] & s1 & Hx & Hrest).
    apply (IH (λ k, Inv (Datatypes.S k))) with (s := s1); [ | | exact Hrest].
    + intros k y t t' Hk. apply (Hstep (Datatypes.S k)). exact Hk.
    + apply (Hstep 0 x s s1); [reflexivity | exact H0 | exact Hx].
Qed.

(** Whatever a loop does, it keeps what every round keeps. *)
Lemma for_each_keeps {S X} (I : S → Prop) (l : list X) (body : X → M S unit) :
  (∀ x s, x ∈ l → I s → I (body x s).2) → ∀ s, I s → I (for_each l body s).2.
Proof.
  induction l as [|x l IH]; intros Hbody s Hs; simpl.
  - exact Hs.
  - unfold bind. specialize (Hbody x s) as Hx.
    destruct (body x s) as [[[]|e] s1]; simpl in *.
    + apply IH; [ | apply Hx; [left | exact Hs]].
      intros y t Hy. apply Hbody. right. exact Hy.
    + apply Hx; [left | exact Hs].
Qed.

Lemma bind_keeps {S A B} (I : S → Prop) (m : M S A) (k : A → M S B) s :
  I (m s).2 → (∀ a s1, I s1 → I (k a s1).2) → I (bind m k s).2.
Proof.
  unfold bind. intros Hm Hk. destruct (m s) as [[a|e] s1]; simpl in *; [apply Hk | ]; exact Hm.
Qed.

(** ** Construction of a cap: defaults and missing radii *)

(** C5.  With [width], [height] and [dist] absent, a cap is built with the
    half-width [0.1] and a half-height equal to it, but its [dist] is the
    tuple [(0, 25)], not the float [0.25]: multiplying it by the scale is a
    [TypeError], and a build of a single edge with these defaults raises it. *)
Lemma default_dist_is_a_tuple (v : Vec.t) (b : nat) (ri ro : float) :
  ∃ c, VertCap.init v b (mkKwargs None None None None (Some ri) (Some ro) None None None) = Ok c
       ∧ VertCap.width_2 c = 0.1%float
       ∧ VertCap.height_2 c = VertCap.width_2 c
       ∧ VertCap.dist c = Py.Tuple [0%Z; 25%Z]
       ∧ VertCap.dist c ≠ Py.Float 0.25%float
       ∧ (∀ scale, Py.mul (VertCap.dist c) scale = Raise TypeError)
       ∧ ∀ atan2, (WireSkin.create_mesh atan2
                     (WireSkin.init Examples.mesh_segment Examples.kw_radii)).1
                  = Raise TypeError.
Proof.
  eexists. split; [reflexivity | ]. cbn.
  split; [reflexivity | ]. split; [reflexivity | ]. split; [reflexivity | ].
  split; [discriminate | ]. split; [reflexivity | ].
  intros atan2. vm_compute. reflexivity.
Qed.

(** C3.  A cap cannot be built without [inside_radius], nor without
    [outside_radius], whether or not a base [radius] is given: the attribute
    [self.radius] does not exist.  A build with a base radius alone raises
    [AttributeError] at its first vertex, with no cap and no geometry made. *)
Lemma radius_is_never_a_fallback (v : Vec.t) (b : nat) (w h d r ri ro : option float)
    (cr : option (option float)) (dp : option float) (ps : option bool) :
  VertCap.init v b (mkKwargs w h d r None ro cr dp ps) = Raise AttributeError
  ∧ VertCap.init v b (mkKwargs w h d r ri None cr dp ps) = Raise AttributeError
  ∧ ∀ atan2,
      let run := WireSkin.create_mesh atan2
                   (WireSkin.init Examples.mesh_point Examples.kw_base_radius) in
      run.1 = Raise AttributeError
      ∧ vert_caps run.2 = []
      ∧ bmeshes run.2 = [BMesh.new].
Proof.
  split; [reflexivity | ]. split.
  - unfold VertCap.init. destruct ri; reflexivity.
  - intros atan2. vm_compute. repeat split; reflexivity.
Qed.

(** C4.  On three vertices in a straight line the directions at the middle
    vertex cancel: the pole phase leaves that cap without a normal and without
    poles, and the build then raises [TypeError] when the first cap blends its
    normal with the missing one. *)
Lemma straight_line_aborts_the_build (atan2 : float → float → float) :
  let w := WireSkin.init Examples.mesh_line Examples.kw_full in
  let poles_done :=
    (let! bm := WireSkin.bmesh_new in
     WireSkin.create_vert_caps bm ;;;
     WireSkin.add_edges_to_vert_caps ;;;
     WireSkin.create_vert_cap_poles) w in
  poles_done.1 = Ok tt
  ∧ (VertCap.normal <$> vert_caps poles_done.2 !! 1%nat) = Some None
  ∧ (VertCap.poles <$> vert_caps poles_done.2 !! 1%nat) = Some []
  ∧ (WireSkin.create_mesh atan2 w).1 = Raise TypeError.
Proof.
  vm_compute. repeat split; reflexivity.
Qed.

(** ** Reordering the edges of a cap *)

(** C7.  Vertex 0 of [Examples.mesh_fork] has three edges; two of them lead
    to vertices at the same place and so get the same angle.  The dict keyed
    by the angle keeps one of them: after the profile phase, which returns
    normally, the cap of vertex 0 holds two edge vertices and two profiles,
    it has no profile for edge 1, and the build ends in [KeyError] when the
    connector of edge 1 asks for it. *)
Lemma equal_angles_lose_a_profile :
  let w := WireSkin.init Examples.mesh_fork Examples.kw_full in
  let registered :=
    (let! bm := WireSkin.bmesh_new in
     WireSkin.create_vert_caps bm ;;;
     WireSkin.add_edges_to_vert_caps ;;;
     WireSkin.create_vert_cap_poles) w in
  let profiled := WireSkin.create_vert_cap_profiles Atan2.atan2 registered.2 in
  registered.1 = Ok tt
  ∧ (length ∘ VertCap.input_edge_verts <$> vert_caps registered.2 !! 0%nat) = Some 3%nat
  ∧ profiled.1 = Ok tt
  ∧ (length ∘ VertCap.input_edge_verts <$> vert_caps profiled.2 !! 0%nat) = Some 2%nat
  ∧ (length ∘ VertCap.profiles <$> vert_caps profiled.2 !! 0%nat) = Some 2%nat
  ∧ (vert_caps profiled.2 !! 0%nat ≫= λ c, VertCap.edge_profile_map c !! 1%nat) = None
  ∧ (WireSkin.create_mesh Atan2.atan2 w).1 = Raise KeyError.
Proof.
  vm_compute. repeat split; reflexivity.
Qed.

(** ** The direction of the poles *)

Ltac unfold_py :=
  unfold VertCap.self, VertCap.update, VertCap.on_bm, ProfileConnector.self,
    ProfileConnector.on_bm, ProfileConnector.append_creased_edge,
    BMesh.verts_new, BMesh.faces_new, BMesh.edges_get, BMesh.set_crease,
    BMesh.check_valid in *;
  unfold bind, ret, gets, lift, modify, raise, zoom in *.

(** C6.  In [create_pole_verts], for a cap with at least one edge whose
    averaged direction [vave] is longer than [1e-7]: with fewer than three
    edges the normal becomes [-normalize(vave)]; with three or more it becomes
    [-normalize(fit)], where [fit] is the result of [least_squares_normal];
    and [least_squares_normal] returns its centroid argument unchanged when
    the largest of the three determinant magnitudes is below [1e-5]. *)
Lemma pole_direction (c : VertCap.t) (b : BMesh.t) (vave : Vec.t) :
  let n := length (VertCap.input_edge_verts c) in
  let diffs := VertCap.edge_diffs c in
  let c' := (VertCap.create_pole_verts (c, b)).2.1 in
  n ≠ 0%nat →
  VertCap.diff_average diffs = Ok vave →
  PrimFloat.ltb 0.0000001 (Vec.magnitude vave) = true →
  (n < 3 → VertCap.normal c' = Some (Vec.neg (Vec.normalized vave)))
  ∧ (3 ≤ n → ∀ fit, VertCap.least_squares_normal vave diffs = Ok fit →
       VertCap.normal c' = Some (Vec.neg (Vec.normalized fit)))
  ∧ (∀ centroid ds,
       PrimFloat.ltb (VertCap.det_max (VertCap.covariance centroid ds)) 0.00001 = true →
       VertCap.least_squares_normal centroid ds = Ok centroid).
Proof.
  intros n diffs c' Hn Hvave Hmag. subst n diffs c'.
  set (n := length (VertCap.input_edge_verts c)) in *.
  assert (Hn0 : Nat.eqb n 0 = false) by (apply Nat.eqb_neq; exact Hn).
  split; [ | split].
  - intros Hlt. apply Nat.ltb_lt in Hlt.
    unfold VertCap.create_pole_verts.
    unfold_py. cbn [fst snd]. fold n. rewrite Hn0, Hvave, Hmag, Hlt.
    cbn [fst snd].
    repeat case_match; simplify_eq; reflexivity.
  - intros Hge fit Hfit.
    assert (Hlt : Nat.ltb n 3 = false) by (apply Nat.ltb_ge; exact Hge).
    unfold VertCap.create_pole_verts.
    unfold_py. cbn [fst snd]. fold n. rewrite Hn0, Hvave, Hmag, Hlt, Hfit.
    cbn [fst snd].
    repeat case_match; simplify_eq; reflexivity.
  - intros centroid ds Hdet. unfold VertCap.least_squares_normal.
    destruct (VertCap.covariance centroid ds) as [[[[[xx xy] xz] yy] yz] zz] eqn:E.
    rewrite Hdet. reflexivity.
Qed.

Lemma pole_direction_witness :
  length (VertCap.input_edge_verts Examples.cap_leaf) ≠ 0%nat
  ∧ VertCap.diff_average (VertCap.edge_diffs Examples.cap_leaf) = Ok (Vec.mk 1 0 0)
  ∧ PrimFloat.ltb 0.0000001 (Vec.magnitude (Vec.mk 1 0 0)) = true
  ∧ VertCap.normal (VertCap.create_pole_verts (Examples.cap_leaf, BMesh.new)).2.1
    = Some (Vec.mk (-1) (-0) (-0)).
Proof.
  split; [discriminate | ]. split; [reflexivity | ]. split; [reflexivity | ].
  apply (pole_direction Examples.cap_leaf BMesh.new (Vec.mk 1 0 0));
    [discriminate | reflexivity | reflexivity | ].
  cbn. apply Nat.lt_succ_diag_r || (repeat constructor).
Defined.

(** ** The order of floats *)

Lemma SFltb_trans (a b c : spec_float) :
  SFltb a b = true → SFltb b c = true → SFltb a c = true.
Proof.
  unfold SFltb, SFcompare.
  destruct a as [[]|[]| |[] ma ea], b as [[]|[]| |[] mb eb], c as [[]|[]| |[] mc ec];
    try (intros; reflexivity); try (intros; discriminate);
    change (Pos.compare_cont Eq) with Pos.compare;
    destruct (Z.compare_spec ea eb), (Z.compare_spec eb ec), (Z.compare_spec ea ec);
    try lia; try (intros; reflexivity); try (intros; discriminate); subst;
    destruct (Pos.compare_spec ma mb), (Pos.compare_spec mb mc), (Pos.compare_spec ma mc);
    try lia; try (intros; reflexivity); try (intros; discriminate).
Qed.

Lemma SFltb_irrefl (a : spec_float) : SFltb a a = false.
Proof.
  unfold SFltb, SFcompare. destruct a as [[]|[]| |[] m e]; try reflexivity;
    change (Pos.compare_cont Eq) with Pos.compare;
    rewrite Z.compare_refl, Pos.compare_refl; reflexivity.
Qed.

Lemma ltb_trans (a b c : float) :
  PrimFloat.ltb a b = true → PrimFloat.ltb b c = true → PrimFloat.ltb a c = true.
Proof. rewrite !ltb_spec. apply SFltb_trans. Qed.

Lemma ltb_irrefl (a : float) : PrimFloat.ltb a a = false.
Proof. rewrite ltb_spec. apply SFltb_irrefl. Qed.

(** ** The connector of an edge *)

(** The search keeps, at every position [k], an index whose length no
    earlier length is strictly below. *)
Lemma nearest_fold (L rest : list float) (k : nat) (m : float) (i : Z)
    (f : nat → float → Z * float) :
  (∀ j l, f j l = (Z.of_nat (k + j), l)) →
  drop k L = rest →
  L !! Z.to_nat i = Some m →
  (0 ≤ i)%Z →
  (∀ j x, j < k → L !! j = Some x → PrimFloat.ltb x m = false) →
  ∃ m' i', foldl ProfileConnector.nearest_step (m, i) (imap f rest) = (m', i')
    ∧ L !! Z.to_nat i' = Some m' ∧ (0 ≤ i')%Z
    ∧ ∀ x, x ∈ L → PrimFloat.ltb x m' = false.
Proof.
  revert k m i f. induction rest as [|x rest IH]; intros k m i f Hf Hdrop Hi Hi0 Hmin.
  - exists m, i. split; [reflexivity | ]. split; [exact Hi | ]. split; [exact Hi0 | ].
    intros x Hx. apply list_elem_of_lookup in Hx as [j Hj].
    apply (Hmin j); [ | exact Hj].
    apply drop_nil_inv in Hdrop. apply lookup_lt_Some in Hj. lia.
  - assert (Hk : L !! k = Some x).
    { pose proof (lookup_drop L k 0) as E. rewrite Hdrop, Nat.add_0_r in E.
      symmetry. exact E. }
    assert (Hdrop' : drop (S k) L = rest).
    { pose proof (drop_drop L 1 k) as E. rewrite Hdrop, Nat.add_1_r in E.
      symmetry. exact E. }
    cbn [imap foldl]. rewrite Hf, Nat.add_0_r. cbn [ProfileConnector.nearest_step].
    destruct (PrimFloat.ltb x m) eqn:Hlt.
    + apply (IH (S k)); [ | exact Hdrop' | | lia | ].
      * intros j l. unfold compose. rewrite Hf. f_equal. lia.
      * rewrite Nat2Z.id. exact Hk.
      * intros j y Hj Hy. destruct (decide (j = k)) as [->|Hne].
        -- rewrite Hk in Hy. inversion Hy; subst. apply ltb_irrefl.
        -- destruct (PrimFloat.ltb y x) eqn:Hyx; [ | reflexivity].
           rewrite <- (Hmin j y); [ | lia | exact Hy].
           symmetry. apply (ltb_trans y x m); assumption.
    + apply (IH (S k)); [ | exact Hdrop' | exact Hi | exact Hi0 | ].
      * intros j l. unfold compose. rewrite Hf. f_equal. lia.
      * intros j y Hj Hy. destruct (decide (j = k)) as [->|Hne].
        -- rewrite Hk in Hy. inversion Hy; subst. exact Hlt.
        -- apply (Hmin j); [lia | exact Hy].
Qed.

Lemma nearest_is_nearest (L : list float) :
  L ≠ [] →
  ∃ m, L !! Z.to_nat (ProfileConnector.nearest L) = Some m
       ∧ (0 ≤ ProfileConnector.nearest L)%Z
       ∧ ∀ x, x ∈ L → PrimFloat.ltb x m = false.
Proof.
  destruct L as [|l0 rest]; [congruence | intros _].
  destruct (nearest_fold (l0 :: rest) rest 1 l0 0 (λ i l, (Z.of_nat (S i), l)))
    as (m' & i' & Hfold & Hm & Hi & Hmin).
  - reflexivity.
  - reflexivity.
  - reflexivity.
  - lia.
  - intros j x Hj Hx. assert (j = 0) as -> by lia. inversion Hx; subst. apply ltb_irrefl.
  - exists m'. unfold ProfileConnector.nearest. rewrite Hfold. cbn [snd]. auto.
Qed.

(** What lines 314 to 335 compute: [min_i] names a vertex of [loop1] that no
    other one beats in distance to [loop0[0]], and the winding follows the
    comparison of the two neighbours of [min_i] against [loop0[1]]. *)
Lemma correspondence_spec (loop0 loop1 : Profile) :
  ∃ min_i min_i2 mult,
    ProfileConnector.correspondence loop0 loop1 = (min_i, min_i2, mult)
    ∧ (0 ≤ min_i < 4)%Z
    ∧ (∀ k, (0 ≤ k < 4)%Z →
         PrimFloat.ltb (dist_to (ProfileConnector.at_ loop0 0) (ProfileConnector.at_ loop1 k))
                       (dist_to (ProfileConnector.at_ loop0 0) (ProfileConnector.at_ loop1 min_i))
         = false)
    ∧ (if PrimFloat.ltb
            (dist_to (ProfileConnector.at_ loop1 ((min_i + 1) mod 4)) (ProfileConnector.at_ loop0 1))
            (dist_to (ProfileConnector.at_ loop1 ((min_i - 1) mod 4)) (ProfileConnector.at_ loop0 1))
       then min_i2 = ((min_i + 1) mod 4)%Z ∧ mult = 1%Z
       else min_i2 = ((min_i - 1) mod 4)%Z ∧ mult = (-1)%Z).
Proof.
  set (L := map (λ p, Vec.magnitude (Vec.sub (BMesh.co (ProfileConnector.at_ loop0 0)) p))
                (map BMesh.co (profile_verts loop1))).
  destruct (nearest_is_nearest L) as (m & Hm & H0 & Hmin); [discriminate | ].
  assert (Hlt : (ProfileConnector.nearest L < 4)%Z).
  { apply lookup_lt_Some in Hm. change (length L) with 4 in Hm. lia. }
  assert (HL : ∀ k, (0 ≤ k < 4)%Z →
            L !! Z.to_nat k
            = Some (dist_to (ProfileConnector.at_ loop0 0) (ProfileConnector.at_ loop1 k))).
  { intros k Hk.
    assert (k = 0 ∨ k = 1 ∨ k = 2 ∨ k = 3)%Z as [->|[->|[->| ->]]] by lia; reflexivity. }
  unfold ProfileConnector.correspondence. fold L.
  set (c := PrimFloat.ltb _ _).
  exists (ProfileConnector.nearest L),
    (if c then (ProfileConnector.nearest L + 1) mod 4
     else (ProfileConnector.nearest L - 1) mod 4)%Z,
    (if c then 1 else -1)%Z.
  split; [destruct c; reflexivity | ]. split; [lia | ]. split.
  - intros k Hk. rewrite HL in Hm by lia. inversion Hm; subst m.
    apply Hmin. eapply list_elem_of_lookup_2. apply HL. exact Hk.
  - subst c. unfold dist_to. destruct (PrimFloat.ltb _ _); split; reflexivity.
Qed.

(** [join_profiles] on a live mesh, for an edge that has its two profiles:
    it returns normally and appends the four quads. *)
Lemma join_profiles_run caps pc bm vc0 vc1 loop0 loop1 min_i min_i2 mult :
  caps !! (pc_edge_vertices pc).1 = Some vc0 →
  caps !! (pc_edge_vertices pc).2 = Some vc1 →
  VertCap.edge_profile_map vc0 !! pc_edge pc = Some loop0 →
  VertCap.edge_profile_map vc1 !! pc_edge pc = Some loop1 →
  BMesh.is_valid bm = true →
  ProfileConnector.correspondence loop0 loop1 = (min_i, min_i2, mult) →
  ∃ pc' bm',
    ProfileConnector.join_profiles caps (pc, bm) = (Ok tt, (pc', bm'))
    ∧ BMesh.faces bm' = BMesh.faces bm ++ wall_quads loop0 loop1 min_i min_i2 mult
    ∧ BMesh.verts bm' = BMesh.verts bm
    ∧ BMesh.is_valid bm' = true.
Proof.
  intros H0 H1 Hl0 Hl1 Hv Hc.
  unfold ProfileConnector.join_profiles, Py.getitem, VertCap.get_edge_profile.
  change (seqZ 0 4) with [0; 1; 2; 3]%Z.
  destruct bm as [valid vs es fs cl]. cbn in Hv. subst valid.
  unfold_py. cbn [fst snd]. rewrite H0, H1, Hl0, Hl1, Hc.
  destruct (pc_crease pc); cbn; (do 2 eexists; split; [reflexivity | ]);
    cbn; rewrite <- !app_assoc; repeat split; reflexivity.
Qed.

Ltac decide_vids :=
  repeat match goal with
         | |- context [Nat.eqb ?x ?y] =>
             destruct (Nat.eqb_spec x y); [try congruence | try congruence]
         end.

(** Around the wall every profile vertex is a corner of two quads. *)
Lemma wall_is_closed (loop0 loop1 : Profile) (min_i min_i2 mult : Z) :
  (0 ≤ min_i < 4)%Z →
  (min_i2 = ((min_i + 1) mod 4)%Z ∧ mult = 1%Z)
  ∨ (min_i2 = ((min_i - 1) mod 4)%Z ∧ mult = (-1)%Z) →
  NoDup (map BMesh.vid (profile_verts loop0 ++ profile_verts loop1)) →
  ∀ v, v ∈ profile_verts loop0 ++ profile_verts loop1 →
       length (List.filter (touches v) (wall_quads loop0 loop1 min_i min_i2 mult)) = 2.
Proof.
  intros Hi Hw Hnd v Hv.
  assert (min_i = 0 ∨ min_i = 1 ∨ min_i = 2 ∨ min_i = 3)%Z as Hcase by lia.
  assert (Hq : ∃ q, wall_quads loop0 loop1 min_i min_i2 mult = q ∧
                    length (List.filter (touches v) q) = 2);
    [ | destruct Hq as (q & <- & Hq); exact Hq].
  destruct loop0 as [[a0 ca0] [a1 ca1] [a2 ca2] [a3 ca3]].
  destruct loop1 as [[b0 cb0] [b1 cb1] [b2 cb2] [b3 cb3]].
  unfold profile_verts in Hnd, Hv. cbn in Hnd, Hv.
  repeat (apply NoDup_cons in Hnd as [?%not_elem_of_cons Hnd]).
  repeat match goal with
         | H : _ ∧ _ |- _ => destruct H
         | H : _ ∉ _ :: _ |- _ => apply not_elem_of_cons in H
         end.
  rewrite !elem_of_cons in Hv.
  destruct Hw as [[-> ->]|[-> ->]];
    destruct Hcase as [->|[->|[->| ->]]];
    (eexists; split; [vm_compute; reflexivity | ]);
    destruct Hv as [->|[->|[->|[->|[->|[->|[->|[->|Hv]]]]]]]];
    try (by apply elem_of_nil in Hv);
    unfold touches; simpl; decide_vids; reflexivity.
Qed.

(** C2.  For an edge whose two endpoint caps hold its profiles [loop0] and
    [loop1] (eight distinct vertices) and a live mesh, [join_profiles] returns
    normally and adds exactly four faces: quad [idx] is [(loop0[idx],
    loop0[(idx+1) mod 4], loop1[(min_i2 + mult*idx) mod 4], loop1[(min_i +
    mult*idx) mod 4])], where no vertex of [loop1] is closer to [loop0[0]] than
    [loop1[min_i]], and [min_i2], [mult] are [(min_i+1) mod 4], [+1] when
    [loop1[(min_i+1) mod 4]] is closer to [loop0[1]] than [loop1[(min_i-1) mod
    4]], and [(min_i-1) mod 4], [-1] otherwise.  Each of the eight profile
    vertices is a corner of exactly two of the four quads. *)
Theorem connector_wall caps pc bm vc0 vc1 loop0 loop1 :
  caps !! (pc_edge_vertices pc).1 = Some vc0 →
  caps !! (pc_edge_vertices pc).2 = Some vc1 →
  VertCap.edge_profile_map vc0 !! pc_edge pc = Some loop0 →
  VertCap.edge_profile_map vc1 !! pc_edge pc = Some loop1 →
  BMesh.is_valid bm = true →
  NoDup (map BMesh.vid (profile_verts loop0 ++ profile_verts loop1)) →
  ∃ min_i min_i2 mult pc' bm',
    ProfileConnector.correspondence loop0 loop1 = (min_i, min_i2, mult)
    ∧ (0 ≤ min_i < 4)%Z
    ∧ (∀ k, (0 ≤ k < 4)%Z →
         PrimFloat.ltb (dist_to (ProfileConnector.at_ loop0 0) (ProfileConnector.at_ loop1 k))
                       (dist_to (ProfileConnector.at_ loop0 0) (ProfileConnector.at_ loop1 min_i))
         = false)
    ∧ (if PrimFloat.ltb
            (dist_to (ProfileConnector.at_ loop1 ((min_i + 1) mod 4)) (ProfileConnector.at_ loop0 1))
            (dist_to (ProfileConnector.at_ loop1 ((min_i - 1) mod 4)) (ProfileConnector.at_ loop0 1))
       then min_i2 = ((min_i + 1) mod 4)%Z ∧ mult = 1%Z
       else min_i2 = ((min_i - 1) mod 4)%Z ∧ mult = (-1)%Z)
    ∧ ProfileConnector.join_profiles caps (pc, bm) = (Ok tt, (pc', bm'))
    ∧ BMesh.faces bm' = BMesh.faces bm ++ wall_quads loop0 loop1 min_i min_i2 mult
    ∧ length (wall_quads loop0 loop1 min_i min_i2 mult) = 4
    ∧ ∀ v, v ∈ profile_verts loop0 ++ profile_verts loop1 →
           length (List.filter (touches v) (wall_quads loop0 loop1 min_i min_i2 mult)) = 2.
Proof.
  intros H0 H1 Hl0 Hl1 Hv Hnd.
  destruct (correspondence_spec loop0 loop1) as (min_i & min_i2 & mult & Hc & Hi & Hnear & Hw).
  destruct (join_profiles_run caps pc bm vc0 vc1 loop0 loop1 min_i min_i2 mult
              H0 H1 Hl0 Hl1 Hv Hc) as (pc' & bm' & Hrun & Hfaces & _ & _).
  exists min_i, min_i2, mult, pc', bm'.
  split; [exact Hc | ]. split; [exact Hi | ]. split; [exact Hnear | ].
  split; [exact Hw | ]. split; [exact Hrun | ]. split; [exact Hfaces | ].
  split; [reflexivity | ].
  apply wall_is_closed; [exact Hi | | exact Hnd].
  destruct (PrimFloat.ltb _ _); [left | right]; exact Hw.
Qed.

Lemma connector_wall_witness :
  ∃ vc0 vc1 loop0 loop1 bm,
    vert_caps Examples.segment_capped !! 0 = Some vc0
    ∧ vert_caps Examples.segment_capped !! 1 = Some vc1
    ∧ VertCap.edge_profile_map vc0 !! 0 = Some loop0
    ∧ VertCap.edge_profile_map vc1 !! 0 = Some loop1
    ∧ bmeshes Examples.segment_capped !! 0 = Some bm
    ∧ BMesh.is_valid bm = true
    ∧ NoDup (map BMesh.vid (profile_verts loop0 ++ profile_verts loop1))
    ∧ ∃ min_i min_i2 mult pc' bm',
        ProfileConnector.correspondence loop0 loop1 = (min_i, min_i2, mult)
        ∧ ProfileConnector.join_profiles (vert_caps Examples.segment_capped)
            (ProfileConnector.init 0 (0, 1) 0 Examples.kw_full, bm) = (Ok tt, (pc', bm'))
        ∧ BMesh.faces bm' = BMesh.faces bm ++ wall_quads loop0 loop1 min_i min_i2 mult.
Proof.
  do 5 eexists.
  split; [reflexivity | ]. split; [reflexivity | ]. split; [reflexivity | ].
  split; [reflexivity | ]. split; [reflexivity | ]. split; [reflexivity | ].
  assert (Hnd : NoDup [2; 3; 4; 5; 6; 7; 8; 9]) by (apply (bool_decide_unpack _); exact I).
  split; [exact Hnd | ].
  match goal with
  | |- context [ProfileConnector.join_profiles _ (_, ?b)] =>
      destruct (connector_wall (vert_caps Examples.segment_capped)
                  (ProfileConnector.init 0 (0, 1) 0 Examples.kw_full) b _ _ _ _
                  eq_refl eq_refl eq_refl eq_refl eq_refl Hnd)
        as (min_i & min_i2 & mult & pc' & bm' & Hc & _ & _ & _ & Hrun & Hfaces & _)
  end.
  exists min_i, min_i2, mult, pc', bm'. auto.
Defined.

(** ** Methods run on an object of the store *)

Lemma with_cap_inv {A} i (m : M VertCap.St A) w r w' :
  with_cap i m w = (r, w') →
  (w' = w ∧ ∃ e, r = Raise e)
  ∨ ∃ c b c' b', vert_caps w !! i = Some c ∧ bmeshes w !! VertCap.bm c = Some b
                 ∧ m (c, b) = (r, (c', b'))
                 ∧ w' = set_bmeshes (<[VertCap.bm c := b']> (bmeshes w))
                          (set_vert_caps (<[i := c']> (vert_caps w)) w).
Proof.
  unfold with_cap. intros H.
  destruct (vert_caps w !! i) as [c|] eqn:Hc; [ | inversion H; subst; eauto].
  destruct (bmeshes w !! VertCap.bm c) as [b|] eqn:Hb; [ | inversion H; subst; eauto].
  destruct (m (c, b)) as [r0 [c' b']] eqn:Hm. inversion H; subst.
  right. exists c, b, c', b'. auto.
Qed.

Lemma with_cap_ok {A} i (m : M VertCap.St A) w a w' :
  with_cap i m w = (Ok a, w') →
  ∃ c b c' b', vert_caps w !! i = Some c ∧ bmeshes w !! VertCap.bm c = Some b
               ∧ m (c, b) = (Ok a, (c', b'))
               ∧ w' = set_bmeshes (<[VertCap.bm c := b']> (bmeshes w))
                        (set_vert_caps (<[i := c']> (vert_caps w)) w).
Proof.
  intros H. apply with_cap_inv in H as [[_ [e He]]|H]; [discriminate | exact H].
Qed.

Lemma with_connector_ok {A} j (m : M ProfileConnector.St A) w a w' :
  with_connector j m w = (Ok a, w') →
  ∃ pc b pc' b', profile_connectors w !! j = Some pc ∧ bmeshes w !! pc_bm pc = Some b
               ∧ m (pc, b) = (Ok a, (pc', b'))
               ∧ w' = set_bmeshes (<[pc_bm pc := b']> (bmeshes w))
                        (set_profile_connectors (<[j := pc']> (profile_connectors w)) w).
Proof.
  unfold with_connector. intros H.
  destruct (profile_connectors w !! j) as [c|] eqn:Hc; [ | discriminate].
  destruct (bmeshes w !! pc_bm c) as [b|] eqn:Hb; [ | discriminate].
  destruct (m (c, b)) as [r0 [c' b']] eqn:Hm. inversion H; subst.
  exists c, b, c', b'. auto.
Qed.


(** ** Stamping the creases *)

Lemma set_crease_ok e value b b' :
  BMesh.set_crease e value b = (Ok tt, b') → b' = restamp value [e] b.
Proof.
  unfold BMesh.set_crease. unfold_py. destruct (BMesh.is_valid b); intros H; inversion H.
  reflexivity.
Qed.

Lemma restamp_app value l1 l2 b : restamp value (l1 ++ l2) b = restamp value l2 (restamp value l1 b).
Proof. unfold restamp. cbn. rewrite foldl_app. reflexivity. Qed.

Lemma stamped_lookup value l es e :
  foldl (stamp value) es l !! e
  = if bool_decide (e ∈ l)
    then (λ ed, BMesh.mkEdge (BMesh.ev1 ed) (BMesh.ev2 ed) (Some value)) <$> es !! e
    else es !! e.
Proof.
  revert es. induction l as [|x l IH]; intros es; cbn [foldl].
  - rewrite bool_decide_eq_false_2; [reflexivity | apply not_elem_of_nil].
  - rewrite IH. unfold stamp. destruct (decide (x = e)) as [->|Hne].
    + rewrite list_lookup_alter_eq. rewrite (bool_decide_eq_true_2 (e ∈ e :: l)) by left.
      destruct (bool_decide (e ∈ l)); destruct (es !! e); reflexivity.
    + rewrite list_lookup_alter_ne by exact Hne.
      destruct (decide (e ∈ l)) as [Hin|Hnin].
      * rewrite !bool_decide_eq_true_2; [reflexivity | right; exact Hin | exact Hin].
      * rewrite !bool_decide_eq_false_2; [reflexivity | | exact Hnin].
        intros [->|H]%elem_of_cons; [congruence | contradiction].
Qed.

Lemma cap_crease_edges_ok c b c' b' value :
  VertCap.crease c = Some value →
  VertCap.crease_edges (c, b) = (Ok tt, (c', b')) →
  c' = c ∧ b' = restamp value (somes (VertCap.creased_edges c)) b
  ∧ VertCap.creased_edges c = Some <$> somes (VertCap.creased_edges c).
Proof.
  intros Hcr. unfold VertCap.crease_edges. unfold bind at 1. unfold VertCap.self, gets.
  cbn [fst]. rewrite Hcr.
  generalize (VertCap.creased_edges c) as l. intros l. revert b.
  induction l as [|[e|] l IH]; intros b H.
  - inversion H; subst. split; [reflexivity | ]. split; [ | reflexivity].
    match goal with |- ?x = _ => destruct x; reflexivity end.
  - cbn [for_each] in H. apply bind_ok in H as ([] & [c1 b1] & H1 & H2).
    unfold VertCap.on_bm, zoom in H1. cbn [fst snd] in H1.
    destruct (BMesh.set_crease e value b) as [r bx] eqn:Hs. inversion H1; subst.
    apply set_crease_ok in Hs. subst b1.
    apply IH in H2 as (-> & -> & Hl). split; [reflexivity | ]. split.
    + change (somes (Some e :: l)) with ([e] ++ somes l). rewrite restamp_app. reflexivity.
    + change (somes (Some e :: l)) with (e :: somes l). cbn. f_equal. exact Hl.
  - cbn [for_each] in H. apply bind_ok in H as ([] & s1 & H1 & _). discriminate.
Qed.

Lemma connector_crease_edges_ok pc b pc' b' :
  ProfileConnector.crease_edges (pc, b) = (Ok tt, (pc', b')) →
  pc' = pc ∧ b' = restamp 1%float (somes (pc_creased_edges pc)) b
  ∧ pc_creased_edges pc = Some <$> somes (pc_creased_edges pc).
Proof.
  unfold ProfileConnector.crease_edges. unfold bind at 1. unfold ProfileConnector.self, gets.
  cbn [fst].
  generalize (pc_creased_edges pc) as l. intros l. revert b.
  induction l as [|[e|] l IH]; intros b H.
  - inversion H; subst. split; [reflexivity | ]. split; [ | reflexivity].
    match goal with |- ?x = _ => destruct x; reflexivity end.
  - cbn [for_each] in H. apply bind_ok in H as ([] & [c1 b1] & H1 & H2).
    unfold ProfileConnector.on_bm, zoom in H1. cbn [fst snd] in H1.
    destruct (BMesh.set_crease e 1 b) as [r bx] eqn:Hs. inversion H1; subst.
    apply set_crease_ok in Hs. subst b1.
    apply IH in H2 as (-> & -> & Hl). split; [reflexivity | ]. split.
    + change (somes (Some e :: l)) with ([e] ++ somes l). rewrite restamp_app. reflexivity.
    + change (somes (Some e :: l)) with (e :: somes l). cbn. f_equal. exact Hl.
  - cbn [for_each] in H. apply bind_ok in H as ([] & s1 & H1 & _). discriminate.
Qed.

Lemma somes_elem {A} (l : list (option A)) (x : A) : x ∈ somes l ↔ Some x ∈ l.
Proof.
  unfold somes. rewrite list_elem_of_omap. split.
  - intros (y & Hy & Hx). cbn in Hx. subst. exact Hy.
  - intros H. exists (Some x). auto.
Qed.

(** The effect on the creases of stamping the edges [es] of mesh [b]. *)
Lemma stamp_world (w : World) (b : nat) (m : BMesh.t) (v : float) (es : list nat)
    (caps : list VertCap.t) (pcs : list Connector) :
  bmeshes w !! b = Some m →
  let w2 := mkWorld (<[b := restamp v es m]> (bmeshes w)) (mesh w) (kwargs w)
                    (crease_layer w) caps pcs in
  (∀ b' e', has_edge w2 b' e' ↔ has_edge w b' e')
  ∧ (∀ e', e' ∈ es → has_edge w b e' → crease_at w2 b e' = Some v)
  ∧ (∀ b' e', b' ≠ b ∨ e' ∉ es → crease_at w2 b' e' = crease_at w b' e').
Proof.
  intros Hm w2.
  assert (Hb : ∀ b', bmeshes w2 !! b' = if decide (b = b') then Some (restamp v es m)
                                         else bmeshes w !! b').
  { intros b'. subst w2. cbn. destruct (decide (b = b')) as [<-|Hne].
    - apply list_lookup_insert_eq. eapply lookup_lt_Some. exact Hm.
    - apply list_lookup_insert_ne. exact Hne. }
  split; [ | split].
  - intros b' e'. unfold has_edge. rewrite Hb. destruct (decide (b = b')) as [<-|Hne];
      [ | reflexivity].
    rewrite Hm. cbn. rewrite stamped_lookup.
    destruct (bool_decide (e' ∈ es)); [ | reflexivity].
    rewrite fmap_is_Some. reflexivity.
  - intros e' Hin [ed Hed]. unfold crease_at. rewrite Hb. rewrite decide_True by reflexivity.
    rewrite Hm in Hed. cbn in Hed. cbn. rewrite stamped_lookup.
    rewrite bool_decide_eq_true_2 by exact Hin. rewrite Hed. reflexivity.
  - intros b' e' Hor. unfold crease_at. rewrite Hb.
    destruct (decide (b = b')) as [<-|Hne]; [ | reflexivity].
    destruct Hor as [Hor|Hor]; [congruence | ].
    rewrite Hm. cbn. rewrite stamped_lookup.
    rewrite bool_decide_eq_false_2 by exact Hor. reflexivity.
Qed.

(** C8.  When a crease layer exists and the configured crease is [value]
    (every cap carries the configured value, as [VertCap.init] stores it), a
    call of [WireSkin.crease_edges] that returns normally leaves [value] on
    every edge recorded by a cap, unless a connector of the same mesh recorded
    that edge too, and leaves [1.0] on every edge recorded by a connector,
    whatever [value] is. *)
Theorem crease_stamping (w w' : World) (value : float) :
  is_Some (crease_layer w) →
  kw_crease (kwargs w) = Some (Some value) →
  (∀ c, c ∈ vert_caps w → VertCap.crease c = default None (kw_crease (kwargs w))) →
  WireSkin.crease_edges w = (Ok tt, w') →
  (∀ c e, c ∈ vert_caps w → Some e ∈ VertCap.creased_edges c →
          has_edge w (VertCap.bm c) e →
          (∀ pc, pc ∈ profile_connectors w → pc_bm pc = VertCap.bm c →
                 Some e ∉ pc_creased_edges pc) →
          crease_at w' (VertCap.bm c) e = Some value)
  ∧ (∀ pc e, pc ∈ profile_connectors w → Some e ∈ pc_creased_edges pc →
             has_edge w (pc_bm pc) e →
             crease_at w' (pc_bm pc) e = Some 1%float).
Proof.
  intros [layer Hlayer] Hkw Hcr Hrun. rewrite Hkw in Hcr. cbn in Hcr.
  unfold WireSkin.crease_edges in Hrun.
  apply bind_ok in Hrun as (l0 & w0 & Hg & Hrun). inversion Hg; subst l0 w0. clear Hg.
  rewrite Hlayer in Hrun.
  apply bind_ok in Hrun as ([] & w1 & Hcaps & Hrun).
  apply bind_ok in Hrun as (n & w1' & Hg & Hpcs). inversion Hg; subst n w1'. clear Hg.
  unfold WireSkin.for_each_vert_cap in Hcaps.
  apply bind_ok in Hcaps as (n & w0 & Hg & Hcaps). inversion Hg; subst n w0. clear Hg.
  (* the caps *)
  pose (InvC := λ (k : nat) (w2 : World),
          vert_caps w2 = vert_caps w ∧ profile_connectors w2 = profile_connectors w
          ∧ (∀ b e, has_edge w2 b e ↔ has_edge w b e)
          ∧ ∀ i c e, i < k → vert_caps w !! i = Some c → Some e ∈ VertCap.creased_edges c →
                     has_edge w (VertCap.bm c) e → crease_at w2 (VertCap.bm c) e = Some value).
  assert (HC : InvC (length (seq 0 (length (vert_caps w)))) w1).
  { refine (for_each_ok_inv InvC _ _ _ w w1 _ Hcaps).
    - intros k x s s' Hx (Hvc & Hpc & Hhas & Hdone) Hstep.
      apply lookup_seq in Hx as [-> _]. cbn in Hstep.
      apply with_cap_ok in Hstep as (c & b & c' & b' & Hc & Hb & Hm & ->).
      rewrite Hvc in Hc.
      apply cap_crease_edges_ok with (value := value) in Hm as (-> & -> & Hl);
        [ | apply Hcr; eapply list_elem_of_lookup_2; exact Hc].
      destruct (stamp_world s (VertCap.bm c) b value (somes (VertCap.creased_edges c))
                  (<[k := c]> (vert_caps s)) (profile_connectors s) Hb)
        as (Hhas' & Hin & Hout).
      unfold set_bmeshes, set_vert_caps. cbn [bmeshes mesh kwargs crease_layer vert_caps
                                                 profile_connectors].
      split; [ | split; [ | split]].
      + cbn. rewrite list_insert_id; [exact Hvc | rewrite Hvc; exact Hc].
      + cbn. exact Hpc.
      + intros b0 e0. rewrite Hhas'. apply Hhas.
      + intros i c0 e0 Hi Hc0 He0 Hex.
        destruct (decide (VertCap.bm c0 = VertCap.bm c ∧ e0 ∈ somes (VertCap.creased_edges c)))
          as [[Heq Hin0]|Hno].
        * rewrite Heq. apply Hin; [exact Hin0 | ]. apply Hhas. rewrite <- Heq. exact Hex.
        * assert (i = k ∨ i < k) as [->|Hlt] by lia.
          -- exfalso. apply Hno. rewrite Hc in Hc0. inversion Hc0; subst c0.
             split; [reflexivity | ]. apply somes_elem. exact He0.
          -- rewrite Hout; [apply (Hdone i); assumption | ].
             apply not_and_l in Hno. exact Hno.
    - repeat split; auto. intros i c e Hi. lia. }
  rewrite length_seq in HC. destruct HC as (Hvc1 & Hpc1 & Hhas1 & Hdone1).
  (* the connectors *)
  pose (InvP := λ (k : nat) (w2 : World),
          vert_caps w2 = vert_caps w ∧ profile_connectors w2 = profile_connectors w
          ∧ (∀ b e, has_edge w2 b e ↔ has_edge w b e)
          ∧ (∀ j pc e, j < k → profile_connectors w !! j = Some pc →
                       Some e ∈ pc_creased_edges pc → has_edge w (pc_bm pc) e →
                       crease_at w2 (pc_bm pc) e = Some 1%float)
          ∧ ∀ b e, (∀ pc, pc ∈ profile_connectors w → pc_bm pc = b →
                          Some e ∉ pc_creased_edges pc) →
                   crease_at w2 b e = crease_at w1 b e).
  assert (HP : InvP (length (seq 0 (length (profile_connectors w1)))) w').
  { refine (for_each_ok_inv InvP _ _ _ w1 w' _ Hpcs).
    - intros k x s s' Hx (Hvc & Hpc & Hhas & Hdone & Hframe) Hstep.
      apply lookup_seq in Hx as [-> _]. cbn in Hstep.
      apply with_connector_ok in Hstep as (pc & b & pc' & b' & Hc & Hb & Hm & ->).
      rewrite Hpc in Hc.
      apply connector_crease_edges_ok in Hm as (-> & -> & Hl).
      destruct (stamp_world s (pc_bm pc) b 1%float (somes (pc_creased_edges pc))
                  (vert_caps s) (<[k := pc]> (profile_connectors s)) Hb)
        as (Hhas' & Hin & Hout).
      unfold set_bmeshes, set_profile_connectors.
      cbn [bmeshes mesh kwargs crease_layer vert_caps profile_connectors].
      split; [ | split; [ | split; [ | split]]].
      + cbn. exact Hvc.
      + cbn. rewrite list_insert_id; [exact Hpc | rewrite Hpc; exact Hc].
      + intros b0 e0. rewrite Hhas'. apply Hhas.
      + intros j pc0 e0 Hj Hpc0 He0 Hex.
        destruct (decide (pc_bm pc0 = pc_bm pc ∧ e0 ∈ somes (pc_creased_edges pc)))
          as [[Heq Hin0]|Hno].
        * rewrite Heq. apply Hin; [exact Hin0 | ]. apply Hhas. rewrite <- Heq. exact Hex.
        * assert (j = k ∨ j < k) as [->|Hlt] by lia.
          -- exfalso. apply Hno. rewrite Hc in Hpc0. inversion Hpc0; subst pc0.
             split; [reflexivity | ]. apply somes_elem. exact He0.
          -- rewrite Hout; [apply (Hdone j); assumption | ].
             apply not_and_l in Hno. exact Hno.
      + intros b0 e0 Hfree. rewrite Hout; [apply Hframe; exact Hfree | ].
        destruct (decide (b0 = pc_bm pc)) as [->|Hne]; [right | left; exact Hne].
        rewrite somes_elem. apply Hfree; [ | reflexivity].
        eapply list_elem_of_lookup_2. exact Hc.
    - split; [exact Hvc1 | ]. split; [exact Hpc1 | ]. split; [exact Hhas1 | ].
      split; [ | reflexivity]. intros j pc e Hj. lia. }
  rewrite length_seq, Hpc1 in HP. destruct HP as (Hvc2 & Hpc2 & Hhas2 & Hdone2 & Hframe2).
  split.
  - intros c e Hc He Hex Hfree.
    apply list_elem_of_lookup in Hc as [i Hi].
    rewrite Hframe2 by exact Hfree.
    apply (Hdone1 i); [eapply lookup_lt_Some; exact Hi | exact Hi | exact He | exact Hex].
  - intros pc e Hpc He Hex.
    apply list_elem_of_lookup in Hpc as [j Hj].
    apply (Hdone2 j); [eapply lookup_lt_Some; exact Hj | exact Hj | exact He | exact Hex].
Qed.

(** [VertCap.init] stores the configured crease. *)
Lemma init_crease v b kw c :
  VertCap.init v b kw = Ok c → VertCap.crease c = default None (kw_crease kw).
Proof.
  unfold VertCap.init, VertCap.self_radius.
  destruct (kw_inside_radius kw), (kw_outside_radius kw); intros H; inversion H.
  reflexivity.
Qed.

Lemma crease_stamping_witness :
  is_Some (crease_layer Examples.corner_connected)
  ∧ kw_crease (kwargs Examples.corner_connected) = Some (Some 0.5%float)
  ∧ (∀ c, c ∈ vert_caps Examples.corner_connected →
          VertCap.crease c = default None (kw_crease (kwargs Examples.corner_connected)))
  ∧ (WireSkin.crease_edges Examples.corner_connected).1 = Ok tt
  ∧ crease_at (WireSkin.crease_edges Examples.corner_connected).2 0 20 = Some 0.5%float
  ∧ crease_at (WireSkin.crease_edges Examples.corner_connected).2 0 36 = Some 1%float.
Proof.
  assert (H1 : is_Some (crease_layer Examples.corner_connected)) by (eexists; reflexivity).
  assert (H2 : kw_crease (kwargs Examples.corner_connected) = Some (Some 0.5%float))
    by reflexivity.
  assert (H3 : ∀ c, c ∈ vert_caps Examples.corner_connected →
                    VertCap.crease c
                    = default None (kw_crease (kwargs Examples.corner_connected))).
  { intros c Hc. unfold Examples.corner_connected in Hc. cbn [vert_caps] in Hc.
    repeat (apply elem_of_cons in Hc as [->|Hc]; [reflexivity | ]).
    by apply elem_of_nil in Hc. }
  assert (H4 : WireSkin.crease_edges Examples.corner_connected
               = (Ok tt, (WireSkin.crease_edges Examples.corner_connected).2)).
  { vm_compute. reflexivity. }
  destruct (crease_stamping _ _ _ H1 H2 H3 H4) as [Hcap Hpc].
  split; [exact H1 | ]. split; [exact H2 | ]. split; [exact H3 | ].
  split; [rewrite H4; reflexivity | ]. split.
  - destruct (vert_caps Examples.corner_connected !! 1) as [c|] eqn:Hc; [ | discriminate].
    vm_compute in Hc. inversion Hc as [Hc']. clear Hc.
    match type of Hc' with ?t = _ => apply (Hcap t 20) end.
    + unfold Examples.corner_connected. cbn [vert_caps]. right. left.
    + cbn [VertCap.creased_edges]. repeat first [left | right].
    + eexists. reflexivity.
    + unfold Examples.corner_connected. cbn [profile_connectors].
      intros pc Hin _.
      repeat (apply elem_of_cons in Hin as [->|Hin];
              [cbn [pc_creased_edges]; intros Hx;
               repeat (apply elem_of_cons in Hx as [Hx|Hx]; [discriminate | ]);
               by apply elem_of_nil in Hx | ]).
      by apply elem_of_nil in Hin.
  - destruct (profile_connectors Examples.corner_connected !! 0) as [pc|] eqn:Hc;
      [ | discriminate].
    vm_compute in Hc. inversion Hc as [Hc']. clear Hc.
    match type of Hc' with ?t = _ => apply (Hpc t 36) end.
    + unfold Examples.corner_connected. cbn [profile_connectors]. left.
    + cbn [pc_creased_edges]. repeat first [left | right].
    + eexists. reflexivity.
Defined.

(** ** What a build keeps of the lists of a [WireSkin] *)

Lemma with_cap_keeps_stable {A} m0 kw0 N n0 K i (m : M VertCap.St A) w :
  (i < n0 ∨ N ≤ i ∨ ∀ c b, blank c → blank (m (c, b)).2.1) →
  stable m0 kw0 N n0 K w → stable m0 kw0 N n0 K (with_cap i m w).2.
Proof.
  intros Hm (HI & HN & HK & Hblank).
  destruct (with_cap i m w) as [r w'] eqn:Hrun.
  apply with_cap_inv in Hrun as [[-> _]|(c & b & c' & b' & Hc & Hb & Hrun & ->)];
    [exact (conj HI (conj HN (conj HK Hblank))) | ].
  split; [exact HI | ]. split; [ | split]; cbn.
  - rewrite length_insert. exact HN.
  - exact HK.
  - intros j cj Hj Hcj. destruct (decide (i = j)) as [<-|Hne].
    + rewrite list_lookup_insert_eq in Hcj by (eapply lookup_lt_Some; exact Hc).
      inversion Hcj; subst cj. apply lookup_lt_Some in Hc as Hlt.
      destruct Hm as [Hm|[Hm|Hm]]; [lia | lia | ].
      specialize (Hm c b (Hblank i c Hj Hc)). rewrite Hrun in Hm. exact Hm.
    + rewrite list_lookup_insert_ne in Hcj by exact Hne. eapply Hblank; eassumption.
Qed.

Lemma on_bmesh_caps {A} b (m : M BMesh.t A) w : vert_caps (on_bmesh b m w).2 = vert_caps w.
Proof.
  unfold on_bmesh. destruct (bmeshes w !! b); [ | reflexivity].
  destruct (m t). reflexivity.
Qed.

Lemma with_connector_caps {A} j (m : M ProfileConnector.St A) w :
  vert_caps (with_connector j m w).2 = vert_caps w.
Proof.
  unfold with_connector. destruct (profile_connectors w !! j); [ | reflexivity].
  destruct (bmeshes w !! pc_bm c); [ | reflexivity].
  destruct (m (c, t)) as [r [c' b']]. reflexivity.
Qed.

Lemma blank_create_pole_verts c b : blank c → blank (VertCap.create_pole_verts (c, b)).2.1.
Proof.
  intros (H1 & H2 & H3). unfold VertCap.create_pole_verts, bind, VertCap.self, gets.
  cbn [fst]. rewrite H1. cbn. repeat split; assumption.
Qed.

Lemma blank_create_profiles atan2 caps c b :
  blank c → blank (VertCap.create_profiles atan2 caps (c, b)).2.1.
Proof.
  intros (H1 & H2 & H3). unfold VertCap.create_profiles, bind, VertCap.self, gets.
  cbn [fst]. rewrite H1. cbn. repeat split; assumption.
Qed.

Lemma blank_create_pole_faces c b : blank c → blank (VertCap.create_pole_faces (c, b)).2.1.
Proof.
  intros (H1 & H2 & H3). unfold VertCap.create_pole_faces, bind, VertCap.self, gets.
  cbn [fst]. rewrite H3. cbn. repeat split; assumption.
Qed.

Lemma blank_create_inter_profile_faces c b :
  blank c → blank (VertCap.create_inter_profile_faces (c, b)).2.1.
Proof.
  intros (H1 & H2 & H3). unfold VertCap.create_inter_profile_faces, bind, VertCap.self, gets.
  cbn [fst]. rewrite H1. cbn. repeat split; assumption.
Qed.

Lemma on_bm_cap {A} (m : M BMesh.t A) s : (VertCap.on_bm m s).2.1 = s.1.
Proof. unfold VertCap.on_bm, zoom. destruct (m s.2). reflexivity. Qed.

Lemma crease_edges_cap c b : (VertCap.crease_edges (c, b)).2.1 = c.
Proof.
  unfold VertCap.crease_edges, bind, VertCap.self, gets. cbn [fst].
  apply (for_each_keeps (λ s, s.1 = c)); [ | reflexivity].
  intros e s _ Hs. destruct (VertCap.crease c), e; try exact Hs.
  rewrite on_bm_cap. exact Hs.
Qed.

Lemma blank_crease_edges c b : blank c → blank (VertCap.crease_edges (c, b)).2.1.
Proof. rewrite crease_edges_cap. auto. Qed.

Lemma ret_keeps {S A} (I : S → Prop) (a : A) s : I s → I (ret a s).2.
Proof. auto. Qed.

Lemma for_each_vert_cap_keeps (I : World → Prop) body w :
  (∀ i s, I s → I (body i s).2) → I w → I (WireSkin.for_each_vert_cap body w).2.
Proof.
  intros Hbody Hw. unfold WireSkin.for_each_vert_cap.
  apply bind_keeps; [exact Hw | ]. intros n s1 Hs1.
  apply for_each_keeps; [ | exact Hs1]. intros i s _. apply Hbody.
Qed.

Lemma in_imap_pair {A} (l : list A) k x : (k, x) ∈ imap pair l → x ∈ l.
Proof.
  intros H. apply list_elem_of_lookup in H as [i Hi].
  rewrite list_lookup_imap in Hi. destruct (l !! i) as [y|] eqn:Hy; [ | discriminate].
  cbn in Hi. inversion Hi; subst. eapply list_elem_of_lookup_2. exact Hy.
Qed.

Lemma bind_gets {S A B} (f : S → A) (k : A → M S B) s : bind (gets f) k s = k (f s) s.
Proof. reflexivity. Qed.

Lemma add_edges_keeps_stable m0 kw0 N n0 K w :
  (∀ a b, (a, b) ∈ mesh_edges (mesh w) → (a < n0 ∨ N ≤ a) ∧ (b < n0 ∨ N ≤ b)) →
  stable m0 kw0 N n0 K w →
  stable m0 kw0 N n0 K (WireSkin.add_edges_to_vert_caps w).2.
Proof.
  intros Hr Hw. unfold WireSkin.add_edges_to_vert_caps. rewrite bind_gets. unfold id.
  apply (for_each_keeps (stable m0 kw0 N n0 K)); [ | exact Hw].
  intros [edge [a b]] s Hin Hs. apply in_imap_pair in Hin. apply Hr in Hin as [Ha Hb].
  apply for_each_keeps; [ | exact Hs].
  intros [this other] s1 Hto Hs1. cbn [fst snd] in Hto.
  apply bind_keeps; [exact Hs1 | ]. intros v s2 Hs2.
  apply with_cap_keeps_stable; [ | exact Hs2].
  apply elem_of_cons in Hto as [Hto|Hto]; [inversion Hto; subst; tauto | ].
  apply elem_of_cons in Hto as [Hto|Hto]; [inversion Hto; subst; tauto | ].
  by apply elem_of_nil in Hto.
Qed.

Lemma poles_keeps_stable m0 kw0 N n0 K w :
  stable m0 kw0 N n0 K w → stable m0 kw0 N n0 K (WireSkin.create_vert_cap_poles w).2.
Proof.
  intros Hw. unfold WireSkin.create_vert_cap_poles.
  apply for_each_vert_cap_keeps; [ | exact Hw]. intros i s Hs.
  apply with_cap_keeps_stable; [ | exact Hs]. right. right. apply blank_create_pole_verts.
Qed.

Lemma profiles_keeps_stable atan2 m0 kw0 N n0 K w :
  stable m0 kw0 N n0 K w → stable m0 kw0 N n0 K (WireSkin.create_vert_cap_profiles atan2 w).2.
Proof.
  intros Hw. unfold WireSkin.create_vert_cap_profiles.
  apply for_each_vert_cap_keeps; [ | exact Hw]. intros i s Hs.
  rewrite bind_gets.
  apply with_cap_keeps_stable; [ | exact Hs]. right. right. apply blank_create_profiles.
Qed.

Lemma faces_keeps_stable m0 kw0 N n0 K w :
  stable m0 kw0 N n0 K w → stable m0 kw0 N n0 K (WireSkin.create_vert_cap_faces w).2.
Proof.
  intros Hw. unfold WireSkin.create_vert_cap_faces.
  apply for_each_vert_cap_keeps; [ | exact Hw]. intros i s Hs.
  apply bind_keeps.
  - apply with_cap_keeps_stable; [ | exact Hs]. right. right. apply blank_create_pole_faces.
  - intros _ s1 Hs1. apply with_cap_keeps_stable; [ | exact Hs1]. right. right.
    apply blank_create_inter_profile_faces.
Qed.

Lemma with_connector_keeps_stable {A} m0 kw0 N n0 K j (m : M ProfileConnector.St A) w :
  stable m0 kw0 N n0 K w → stable m0 kw0 N n0 K (with_connector j m w).2.
Proof.
  intros (HI & HN & HK & Hblank). unfold with_connector.
  destruct (profile_connectors w !! j); [ | exact (conj HI (conj HN (conj HK Hblank)))].
  destruct (bmeshes w !! pc_bm c); [ | exact (conj HI (conj HN (conj HK Hblank)))].
  destruct (m (c, t)) as [r [c' b']].
  split; [exact HI | ]. split; [exact HN | ]. split; [ | exact Hblank].
  cbn [snd]. unfold set_bmeshes, set_profile_connectors. cbn [profile_connectors].
  rewrite length_insert. exact HK.
Qed.

Lemma on_bmesh_keeps_stable {A} m0 kw0 N n0 K b (m : M BMesh.t A) w :
  stable m0 kw0 N n0 K w → stable m0 kw0 N n0 K (on_bmesh b m w).2.
Proof.
  intros Hw. unfold on_bmesh. destruct (bmeshes w !! b); [ | exact Hw].
  destruct (m t). exact Hw.
Qed.

Lemma connect_keeps_stable m0 kw0 N n0 K bm w :
  stable m0 kw0 N n0 K w → stable m0 kw0 N n0 K (WireSkin.connect_profiles bm w).2.
Proof.
  intros Hw. unfold WireSkin.connect_profiles. rewrite bind_gets.
  apply for_each_keeps; [ | exact Hw]. intros [edge ev] s _ Hs.
  rewrite bind_gets.
  apply bind_keeps.
  - destruct Hs as (HI & HN & HK & Hblank).
    split; [exact HI | ]. split; [exact HN | ]. split; [ | exact Hblank].
    unfold modify, set_profile_connectors. cbn [snd profile_connectors].
    rewrite length_app. lia.
  - intros _ s1 Hs1. rewrite bind_gets. apply with_connector_keeps_stable. exact Hs1.
Qed.

Lemma crease_keeps_stable m0 kw0 N n0 K w :
  stable m0 kw0 N n0 K w → stable m0 kw0 N n0 K (WireSkin.crease_edges w).2.
Proof.
  intros Hw. unfold WireSkin.crease_edges. rewrite bind_gets.
  destruct (crease_layer w); [ | exact Hw].
  apply bind_keeps.
  - apply for_each_vert_cap_keeps; [ | exact Hw]. intros i s Hs.
    apply with_cap_keeps_stable; [ | exact Hs]. right. right. apply blank_crease_edges.
  - intros _ s1 Hs1. rewrite bind_gets. apply for_each_keeps; [ | exact Hs1].
    intros j s _ Hs. apply with_connector_keeps_stable. exact Hs.
Qed.

Lemma create_mesh_unfold atan2 w :
  WireSkin.create_mesh atan2 w = phases atan2 (length (bmeshes w)) (prepared w).
Proof.
  unfold WireSkin.create_mesh, WireSkin.bmesh_new, prepared, phases.
  rewrite bind_eq_ok with (a := length (bmeshes w))
                          (s1 := set_bmeshes (bmeshes w ++ [BMesh.new]) w)
    by reflexivity.
  rewrite bind_gets. cbn [kwargs set_bmeshes].
  destruct (kw_crease (kwargs w)) as [[v|]|].
  - erewrite bind_eq_ok; [reflexivity | ].
    unfold bind, on_bmesh, set_bmeshes.
    cbn [bmeshes mesh kwargs crease_layer vert_caps profile_connectors].
    rewrite list_lookup_middle by reflexivity. cbn.
    unfold modify, set_crease_layer, set_bmeshes. cbn. do 3 f_equal.
    rewrite <- (Nat.add_0_r (length (bmeshes w))).
    rewrite insert_app_r. reflexivity.
  - erewrite bind_eq_ok; reflexivity.
  - erewrite bind_eq_ok; reflexivity.
Qed.

Lemma init_ok v b kw :
  has_radii kw → ∃ c, VertCap.init v b kw = Ok c ∧ blank c ∧ VertCap.bm c = b.
Proof.
  intros [[ri Hi] [ro Ho]]. unfold VertCap.init. rewrite Hi, Ho.
  eexists. split; [reflexivity | ]. repeat split.
Qed.

Lemma create_vert_caps_run bm w :
  has_radii (kwargs w) →
  ∃ new, WireSkin.create_vert_caps bm w = (Ok tt, set_vert_caps (vert_caps w ++ new) w)
         ∧ Forall2 (λ v c, VertCap.init v bm (kwargs w) = Ok c) (vertices (mesh w)) new.
Proof.
  intros Hr. unfold WireSkin.create_vert_caps. rewrite bind_gets. unfold id.
  generalize (vertices (mesh w)) as l. intros l.
  assert (H : ∀ s, ∃ new,
             for_each l (λ vert, let! c := lift (VertCap.init vert bm (kwargs w)) in
                                 modify (λ w0, set_vert_caps (vert_caps w0 ++ [c]) w0)) s
             = (Ok tt, set_vert_caps (vert_caps s ++ new) s)
             ∧ Forall2 (λ v c, VertCap.init v bm (kwargs w) = Ok c) l new);
    [ | apply H].
  induction l as [|v l IH]; intros s.
  - exists []. split; [ | constructor]. cbn. unfold ret. f_equal.
    rewrite app_nil_r. destruct s; reflexivity.
  - destruct (init_ok v bm (kwargs w) Hr) as (c & Hc & _).
    destruct (IH (set_vert_caps (vert_caps s ++ [c]) s)) as (new & Hrun & Hall).
    exists (c :: new). split; [ | constructor; assumption].
    cbn [for_each].
    rewrite (bind_eq_ok _ _ s tt (set_vert_caps (vert_caps s ++ [c]) s));
      [ | unfold bind, lift; rewrite Hc; reflexivity].
    rewrite Hrun. cbn. rewrite <- app_assoc. reflexivity.
Qed.

Lemma init_blank v b kw c : VertCap.init v b kw = Ok c → blank c.
Proof.
  unfold VertCap.init, VertCap.self_radius.
  destruct (kw_inside_radius kw), (kw_outside_radius kw); intros H; inversion H.
  repeat split.
Qed.

(** Whatever [create_vert_caps] does, it only appends blank caps. *)
Lemma create_vert_caps_appends bm w :
  let w' := (WireSkin.create_vert_caps bm w).2 in
  length (vert_caps w) ≤ length (vert_caps w')
  ∧ profile_connectors w' = profile_connectors w
  ∧ mesh w' = mesh w
  ∧ ∀ i c, length (vert_caps w) ≤ i → vert_caps w' !! i = Some c → blank c.
Proof.
  unfold WireSkin.create_vert_caps. rewrite bind_gets. unfold id.
  apply (for_each_keeps
           (λ s, length (vert_caps w) ≤ length (vert_caps s)
                 ∧ profile_connectors s = profile_connectors w
                 ∧ mesh s = mesh w
                 ∧ ∀ i c, length (vert_caps w) ≤ i → vert_caps s !! i = Some c → blank c)).
  - intros v s _ (Hlen & Hpc & Hmesh & Hblank). unfold bind, lift.
    destruct (VertCap.init v bm (kwargs w)) as [c|e] eqn:Hc; [ | auto].
    unfold modify, set_vert_caps. cbn [snd vert_caps profile_connectors mesh].
    split; [rewrite length_app; lia | ]. split; [exact Hpc | ]. split; [exact Hmesh | ].
    intros i c0 Hi Hc0. apply lookup_app_Some in Hc0 as [Hc0|[_ Hc0]].
    + eapply Hblank; eassumption.
    + apply list_lookup_singleton_Some in Hc0 as [_ <-]. eapply init_blank. exact Hc.
  - split; [lia | ]. split; [reflexivity | ]. split; [reflexivity | ].
    intros i c Hi Hc. apply lookup_lt_Some in Hc. lia.
Qed.

(** The phases after [create_vert_caps]. *)
Lemma later_phases_keep_stable atan2 m0 kw0 N n0 K bm w :
  (∀ a b, (a, b) ∈ mesh_edges (mesh w) → (a < n0 ∨ N ≤ a) ∧ (b < n0 ∨ N ≤ b)) →
  stable m0 kw0 N n0 K w →
  stable m0 kw0 N n0 K
    ((WireSkin.add_edges_to_vert_caps ;;;
      WireSkin.create_vert_cap_poles ;;;
      WireSkin.create_vert_cap_profiles atan2 ;;;
      WireSkin.create_vert_cap_faces ;;;
      WireSkin.connect_profiles bm ;;;
      WireSkin.crease_edges ;;;
      let! me := on_bmesh bm BMesh.to_mesh in
      on_bmesh bm BMesh.free ;;;
      ret me) w).2.
Proof.
  intros Hr Hw.
  apply bind_keeps; [apply add_edges_keeps_stable; assumption | intros _ s1 Hs1].
  apply bind_keeps; [apply poles_keeps_stable; assumption | intros _ s2 Hs2].
  apply bind_keeps; [apply profiles_keeps_stable; assumption | intros _ s3 Hs3].
  apply bind_keeps; [apply faces_keeps_stable; assumption | intros _ s4 Hs4].
  apply bind_keeps; [apply connect_keeps_stable; assumption | intros _ s5 Hs5].
  apply bind_keeps; [apply crease_keeps_stable; assumption | intros _ s6 Hs6].
  apply bind_keeps; [apply on_bmesh_keeps_stable; assumption | intros me s7 Hs7].
  apply bind_keeps; [apply on_bmesh_keeps_stable; assumption | intros _ s8 Hs8].
  exact Hs8.
Qed.

Lemma create_mesh_grows atan2 w :
  let w' := (WireSkin.create_mesh atan2 w).2 in
  length (vert_caps w) ≤ length (vert_caps w')
  ∧ length (profile_connectors w) ≤ length (profile_connectors w').
Proof.
  cbn zeta. rewrite create_mesh_unfold. unfold phases.
  assert (Hp : vert_caps (prepared w) = vert_caps w
               ∧ profile_connectors (prepared w) = profile_connectors w).
  { unfold prepared. destruct (kw_crease (kwargs w)) as [[?|]|]; split; reflexivity. }
  destruct Hp as [Hp1 Hp2]. rewrite <- Hp1, <- Hp2.
  apply (bind_keeps (λ s, length (vert_caps (prepared w)) ≤ length (vert_caps s)
                          ∧ length (profile_connectors (prepared w))
                            ≤ length (profile_connectors s))).
  - destruct (create_vert_caps_appends (length (bmeshes w)) (prepared w))
      as (H1 & H2 & _). rewrite H2. split; [exact H1 | lia].
  - intros _ s1 [H1 H2].
    destruct (later_phases_keep_stable atan2 (mesh s1) (kwargs s1) (length (vert_caps s1))
                (length (vert_caps s1)) (length (profile_connectors s1))
                (length (bmeshes w)) s1)
      as (_ & HN & HK & _).
    + intros a b _. lia.
    + split; [split; reflexivity | ]. split; [reflexivity | ]. split; [lia | ].
      intros i c Hi Hc.
      apply lookup_lt_Some in Hc. lia.
    + rewrite HN. split; [exact H1 | lia].
Qed.

Lemma create_mesh_stable atan2 w :
  has_radii (kwargs w) →
  edges_in_range (mesh w) →
  stable (mesh w) (kwargs w) (length (vert_caps w) + length (vertices (mesh w)))
         (Nat.max (length (vert_caps w)) (length (vertices (mesh w)))) 0
         (WireSkin.create_mesh atan2 w).2.
Proof.
  intros Hr He. rewrite create_mesh_unfold. unfold phases.
  assert (Hp : vert_caps (prepared w) = vert_caps w ∧ mesh (prepared w) = mesh w
               ∧ kwargs (prepared w) = kwargs w).
  { unfold prepared. destruct (kw_crease (kwargs w)) as [[?|]|]; repeat split. }
  destruct Hp as (Hp1 & Hp2 & Hp3).
  destruct (create_vert_caps_run (length (bmeshes w)) (prepared w)) as (new & Hrun & Hall);
    [rewrite Hp3; exact Hr | ].
  rewrite (bind_eq_ok _ _ _ _ _ Hrun).
  apply Forall2_length in Hall as Hlen. rewrite Hp2 in Hlen.
  apply later_phases_keep_stable.
  - cbn [mesh set_vert_caps]. rewrite Hp2. intros a b Hab. apply He in Hab as [Ha Hb].
    lia.
  - split; [split; [exact Hp2 | exact Hp3] | ]. split; [ | split].
    + cbn. rewrite length_app, Hp1. lia.
    + lia.
    + intros i c Hi Hc. cbn in Hc. rewrite Hp1 in Hc.
      apply lookup_app_Some in Hc as [Hc|[_ Hc]]; [apply lookup_lt_Some in Hc; lia | ].
      eapply Forall2_lookup_r in Hall as (v & _ & Hv); [ | exact Hc].
      eapply init_blank. exact Hv.
Qed.

(** C9.  [create_mesh] never shortens [vert_caps] or [profile_connectors],
    in any store and whatever its outcome.  With both radii configured and
    every edge joining two vertices of the wireframe of [n] vertices, the
    first call on a new [WireSkin] leaves [n] caps and a second call leaves
    [2 * n]; the caps the second call has created, at positions [n] and
    above, end without a registered edge, a pole or a profile: registration
    and everything after it worked on the caps of the first call. *)
Theorem create_mesh_only_appends atan2 (m : Mesh) (kw : Kwargs) :
  has_radii kw →
  edges_in_range m →
  let n := length (vertices m) in
  let w1 := (WireSkin.create_mesh atan2 (WireSkin.init m kw)).2 in
  let w2 := (WireSkin.create_mesh atan2 w1).2 in
  (∀ w, length (vert_caps w) ≤ length (vert_caps (WireSkin.create_mesh atan2 w).2)
        ∧ length (profile_connectors w)
          ≤ length (profile_connectors (WireSkin.create_mesh atan2 w).2))
  ∧ length (vert_caps w1) = n
  ∧ length (vert_caps w2) = 2 * n
  ∧ ∀ i c, n ≤ i → vert_caps w2 !! i = Some c → blank c.
Proof.
  intros Hr He n w1 w2.
  split; [intros w; apply create_mesh_grows | ].
  destruct (create_mesh_stable atan2 (WireSkin.init m kw) Hr He)
    as ((Hm1 & Hk1) & HN1 & _ & _).
  fold w1 in Hm1, Hk1, HN1. cbn in Hm1, Hk1, HN1. fold n in HN1.
  destruct (create_mesh_stable atan2 w1) as (_ & HN2 & _ & Hblank).
  { rewrite Hk1. exact Hr. }
  { rewrite Hm1. exact He. }
  fold w2 in HN2, Hblank. rewrite Hm1, HN1 in HN2, Hblank. fold n in HN2, Hblank.
  split; [exact HN1 | ]. split; [lia | ].
  intros i c Hi. apply Hblank. lia.
Qed.

Lemma create_mesh_only_appends_witness :
  has_radii Examples.kw_full
  ∧ edges_in_range Examples.mesh_segment
  ∧ let w1 := (WireSkin.create_mesh Atan2.atan2
                 (WireSkin.init Examples.mesh_segment Examples.kw_full)).2 in
    let w2 := (WireSkin.create_mesh Atan2.atan2 w1).2 in
    length (vert_caps w1) = 2 ∧ length (vert_caps w2) = 4
    ∧ (length ∘ VertCap.input_edge_verts <$> vert_caps w2) = [2; 2; 0; 0].
Proof.
  assert (Hr : has_radii Examples.kw_full) by (split; eexists; reflexivity).
  assert (He : edges_in_range Examples.mesh_segment).
  { intros a b Hab. apply list_elem_of_singleton in Hab. inversion Hab; subst. cbn. lia. }
  split; [exact Hr | ]. split; [exact He | ].
  destruct (create_mesh_only_appends Atan2.atan2 _ _ Hr He) as (_ & H1 & H2 & _).
  split; [exact H1 | ]. split; [exact H2 | ].
  vm_compute. reflexivity.
Defined.

(** ** A zero displacement *)

Section Simulation.

Context {S1 S2 : Type} (R : S1 → S2 → Prop).

Lemma Sim_ret {A} (a : A) : Sim R (ret a) (ret a).
Proof. intros s1 s2 H. split; [reflexivity | exact H]. Qed.

Lemma Sim_raise {A} (e : exn) : Sim R (raise (A := A) e) (raise e).
Proof. intros s1 s2 H. split; [reflexivity | exact H]. Qed.

Lemma Sim_lift {A} (r1 r2 : res A) : r1 = r2 → Sim R (lift r1) (lift r2).
Proof. intros -> s1 s2 H. split; [reflexivity | exact H]. Qed.

Lemma Sim_bind {A B} (m1 : M S1 A) (m2 : M S2 A) (k1 : A → M S1 B) (k2 : A → M S2 B) :
  Sim R m1 m2 → (∀ a, Sim R (k1 a) (k2 a)) → Sim R (bind m1 k1) (bind m2 k2).
Proof.
  intros Hm Hk s1 s2 H. unfold bind. specialize (Hm s1 s2 H).
  destruct (m1 s1) as [r1 t1], (m2 s2) as [r2 t2]. cbn in Hm. destruct Hm as [<- Ht].
  destruct r1 as [a|e]; [apply Hk; exact Ht | split; [reflexivity | exact Ht]].
Qed.

Lemma Sim_bind_gets {A B} (f1 : S1 → A) (f2 : S2 → A) (k1 : A → M S1 B) (k2 : A → M S2 B) :
  (∀ s1 s2, R s1 s2 → f1 s1 = f2 s2) → (∀ a, Sim R (k1 a) (k2 a)) →
  Sim R (bind (gets f1) k1) (bind (gets f2) k2).
Proof.
  intros Hf Hk s1 s2 H. unfold bind, gets. rewrite (Hf s1 s2 H). apply Hk. exact H.
Qed.

Lemma Sim_for_each {X} (l : list X) (b1 : X → M S1 unit) (b2 : X → M S2 unit) :
  (∀ x, Sim R (b1 x) (b2 x)) → Sim R (for_each l b1) (for_each l b2).
Proof.
  intros Hb. induction l as [|x l IH]; cbn [for_each].
  - apply Sim_ret.
  - apply Sim_bind; [apply Hb | intros _; exact IH].
Qed.

Lemma Sim_modify (f1 : S1 → S1) (f2 : S2 → S2) :
  (∀ s1 s2, R s1 s2 → R (f1 s1) (f2 s2)) → Sim R (modify f1) (modify f2).
Proof. intros Hf s1 s2 H. split; [reflexivity | apply Hf; exact H]. Qed.

End Simulation.

Lemma Sim_on_bm {A} (m1 m2 : M BMesh.t A) :
  (∀ b, m1 b = m2 b) → Sim R_st (VertCap.on_bm m1) (VertCap.on_bm m2).
Proof.
  intros Hm [c1 b1] [c2 b2] [Hc Hb]. cbn in Hc, Hb. subst b2.
  unfold VertCap.on_bm, zoom. cbn [fst snd]. rewrite Hm. destruct (m2 b1) as [r b'].
  split; [reflexivity | split; [exact Hc | reflexivity]].
Qed.

Lemma Sim_update (f1 f2 : VertCap.t → VertCap.t) :
  (∀ c1 c2, zero_displaced c1 c2 → zero_displaced (f1 c1) (f2 c2)) →
  Sim R_st (VertCap.update f1) (VertCap.update f2).
Proof.
  intros Hf [c1 b1] [c2 b2] [Hc Hb]. split; [reflexivity | ].
  split; [apply Hf; exact Hc | exact Hb].
Qed.

Lemma Sim_self {B} (k1 k2 : VertCap.t → M VertCap.St B) :
  (∀ c1 c2, zero_displaced c1 c2 → Sim R_st (k1 c1) (k2 c2)) →
  Sim R_st (bind VertCap.self k1) (bind VertCap.self k2).
Proof.
  intros Hk [c1 b1] [c2 b2] H. unfold bind, VertCap.self, gets. cbn [fst].
  apply Hk; [exact (proj1 H) | exact H].
Qed.

Ltac zero_displaced_intro :=
  let c1 := fresh "c" in
  let c2 := fresh "c" in
  let Hd := fresh "Hd" in
  intros c1 c2 [Hd ->]; destruct c1; cbn in Hd; subst;
  unfold undisplaced;
  cbn [VertCap.input_vert VertCap.bm VertCap.input_edge_verts VertCap.width_2
       VertCap.height_2 VertCap.dist VertCap.inside_radius VertCap.outside_radius
       VertCap.crease VertCap.displace VertCap.proportional_scale VertCap.poles
       VertCap.normal VertCap.profiles VertCap.edge_profile_map VertCap.creased_edges].

Ltac sim_update :=
  apply Sim_update;
  let c1 := fresh "c" in
  let c2 := fresh "c" in
  let Hd := fresh "Hd" in
  intros c1 c2 [Hd ->]; destruct c1; cbn in Hd; subst; split; reflexivity.

Ltac sim_step :=
  first
    [ apply Sim_ret
    | apply Sim_raise
    | apply Sim_lift; reflexivity
    | apply Sim_self; zero_displaced_intro
    | apply Sim_on_bm; intros ?; reflexivity
    | sim_update
    | apply Sim_bind; [ | intros ?]
    | apply Sim_for_each; intros ?
    | match goal with
      | |- Sim _ (if ?b then _ else _) _ => destruct b
      | |- Sim _ (match ?x with _ => _ end) _ => destruct x
      end ].

Lemma sim_add_edge_vert edge i co :
  Sim R_st (VertCap.add_edge_vert edge i co) (VertCap.add_edge_vert edge i co).
Proof. unfold VertCap.add_edge_vert. repeat sim_step. Qed.

Lemma sim_create_pole_verts : Sim R_st VertCap.create_pole_verts VertCap.create_pole_verts.
Proof. unfold VertCap.create_pole_verts. repeat sim_step. Qed.

Lemma sim_create_pole_faces : Sim R_st VertCap.create_pole_faces VertCap.create_pole_faces.
Proof. unfold VertCap.create_pole_faces. repeat sim_step. Qed.

Lemma sim_create_inter_profile_faces :
  Sim R_st VertCap.create_inter_profile_faces VertCap.create_inter_profile_faces.
Proof. unfold VertCap.create_inter_profile_faces. repeat sim_step. Qed.

Lemma sim_crease_edges : Sim R_st VertCap.crease_edges VertCap.crease_edges.
Proof. unfold VertCap.crease_edges. repeat sim_step. Qed.

Lemma sim_create_profile ev other :
  Sim R_st (VertCap.create_profile ev other) (VertCap.create_profile ev other).
Proof. unfold VertCap.create_profile. repeat sim_step. Qed.

Lemma sim_reorder_edge_verts atan2 :
  Sim R_st (VertCap.reorder_edge_verts atan2) (VertCap.reorder_edge_verts atan2).
Proof. unfold VertCap.reorder_edge_verts. repeat sim_step. Qed.

Lemma getitem_undisplaced caps i :
  Py.getitem (undisplaced <$> caps) i
  = match Py.getitem caps i with Ok c => Ok (undisplaced c) | Raise e => Raise e end.
Proof. unfold Py.getitem. rewrite list_lookup_fmap. destruct (caps !! i); reflexivity. Qed.

Lemma sim_create_profiles atan2 caps :
  Sim R_st (VertCap.create_profiles atan2 caps)
           (VertCap.create_profiles atan2 (undisplaced <$> caps)).
Proof.
  unfold VertCap.create_profiles. apply Sim_self. zero_displaced_intro.
  destruct (Nat.eqb _ _); [apply Sim_ret | ].
  apply Sim_bind; [apply sim_reorder_edge_verts | intros _].
  apply Sim_self. zero_displaced_intro.
  apply Sim_for_each. intros ev. rewrite getitem_undisplaced.
  destruct (Py.getitem caps (ev_i ev)) as [c|e]; unfold lift, bind.
  - apply sim_create_profile.
  - intros s1 s2 H. split; [reflexivity | exact H].
Qed.

Lemma bind_lift {S A B} (r : res A) (k : A → M S B) s :
  bind (lift r) k s = match r with Ok a => k a s | Raise e => (Raise e, s) end.
Proof. unfold bind, lift. destruct r; reflexivity. Qed.

Lemma join_profiles_undisplaced caps s :
  ProfileConnector.join_profiles (undisplaced <$> caps) s
  = ProfileConnector.join_profiles caps s.
Proof.
  unfold ProfileConnector.join_profiles, ProfileConnector.self.
  rewrite !bind_gets, !bind_lift, !getitem_undisplaced.
  destruct (Py.getitem caps (pc_edge_vertices s.1).1) as [c0|e]; [ | reflexivity].
  rewrite !bind_lift.
  destruct (Py.getitem caps (pc_edge_vertices s.1).2) as [c1|e]; reflexivity.
Qed.

Lemma Sim_on_bmesh {A} b (m : M BMesh.t A) : Sim R_world (on_bmesh b m) (on_bmesh b m).
Proof.
  intros w1 w2 (Hk & Hc & ->). unfold on_bmesh. cbn [bmeshes].
  destruct (bmeshes w1 !! b) as [bm|]; [ | split; [reflexivity | repeat split; assumption]].
  destruct (m bm) as [r bm']. split; [reflexivity | ]. repeat split; assumption.
Qed.

Lemma Sim_with_connector {A} j (m1 m2 : M ProfileConnector.St A) :
  (∀ s, m1 s = m2 s) → Sim R_world (with_connector j m1) (with_connector j m2).
Proof.
  intros Hm w1 w2 (Hk & Hc & ->). unfold with_connector. cbn [bmeshes profile_connectors].
  destruct (profile_connectors w1 !! j) as [pc|];
    [ | split; [reflexivity | repeat split; assumption]].
  destruct (bmeshes w1 !! pc_bm pc) as [bm|];
    [ | split; [reflexivity | repeat split; assumption]].
  rewrite Hm. destruct (m2 (pc, bm)) as [r [pc' bm']].
  split; [reflexivity | ]. repeat split; assumption.
Qed.

Lemma Sim_with_cap {A} i (m1 m2 : M VertCap.St A) :
  Sim R_st m1 m2 → Sim R_world (with_cap i m1) (with_cap i m2).
Proof.
  intros Hm w1 w2 (Hk & Hc & ->). unfold with_cap. cbn [bmeshes vert_caps].
  rewrite list_lookup_fmap.
  destruct (vert_caps w1 !! i) as [c|] eqn:Hi;
    [ | split; [reflexivity | repeat split; assumption]].
  cbn [fmap option_fmap option_map]. change (VertCap.bm (undisplaced c)) with (VertCap.bm c).
  destruct (bmeshes w1 !! VertCap.bm c) as [bm|];
    [ | split; [reflexivity | repeat split; assumption]].
  assert (Hrel : R_st (c, bm) (undisplaced c, bm)).
  { split; [ | reflexivity]. split; [ | reflexivity].
    rewrite Forall_lookup in Hc. exact (Hc i c Hi). }
  specialize (Hm _ _ Hrel).
  destruct (m1 (c, bm)) as [r1 [c1 b1]], (m2 (undisplaced c, bm)) as [r2 [c2 b2]].
  unfold R_st, zero_displaced in Hm. cbn in Hm. destruct Hm as (<- & (Hd & ->) & <-).
  split; [reflexivity | ]. unfold R_world.
  cbn [snd set_bmeshes set_vert_caps bmeshes mesh kwargs crease_layer vert_caps
       profile_connectors].
  split; [exact Hk | ]. split.
  - apply Forall_insert; assumption.
  - rewrite list_fmap_insert. reflexivity.
Qed.

Lemma Sim_bind_read {S1 S2 A1 A2 B} (R : S1 → S2 → Prop) (f1 : S1 → A1) (f2 : S2 → A2)
    (k1 : A1 → M S1 B) (k2 : A2 → M S2 B) :
  (∀ s1 s2, R s1 s2 → Sim R (k1 (f1 s1)) (k2 (f2 s2))) →
  Sim R (bind (gets f1) k1) (bind (gets f2) k2).
Proof. intros Hk s1 s2 H. unfold bind, gets. apply (Hk s1 s2 H). exact H. Qed.

Lemma init_undisplaced v b kw :
  kw_displace kw = Some 0%float →
  match VertCap.init v b kw with
  | Ok c => VertCap.displace c = Some 0%float
            ∧ VertCap.init v b (kw_undisplaced kw) = Ok (undisplaced c)
  | Raise e => VertCap.init v b (kw_undisplaced kw) = Raise e
  end.
Proof.
  intros Hd. unfold VertCap.init, kw_undisplaced, VertCap.self_radius.
  cbn [kw_width kw_height kw_dist kw_radius kw_inside_radius kw_outside_radius kw_crease
       kw_displace kw_proportional_scale].
  rewrite Hd. destruct (kw_inside_radius kw), (kw_outside_radius kw); try reflexivity.
  split; reflexivity.
Qed.

Lemma sim_bmesh_new : Sim R_world WireSkin.bmesh_new WireSkin.bmesh_new.
Proof.
  unfold WireSkin.bmesh_new. apply Sim_bind_read. intros w1 w2 (Hk & Hc & ->).
  cbn [bmeshes]. apply Sim_bind; [ | intros _; apply Sim_ret].
  apply Sim_modify. intros s1 s2 (Hk' & Hc' & ->). repeat split; assumption.
Qed.

Lemma sim_create_vert_caps bm :
  Sim R_world (WireSkin.create_vert_caps bm) (WireSkin.create_vert_caps bm).
Proof.
  unfold WireSkin.create_vert_caps. apply Sim_bind_read. intros w1 w2 (Hk & Hc & ->).
  unfold id. cbn [mesh kwargs]. apply Sim_for_each. intros v.
  pose proof (init_undisplaced v bm (kwargs w1) Hk) as Hinit.
  destruct (VertCap.init v bm (kwargs w1)) as [c|e].
  - destruct Hinit as [Hd ->]. unfold bind, lift.
    apply Sim_modify. intros s1 s2 (Hk' & Hc' & ->).
    split; [exact Hk' | ]. split.
    + cbn. apply Forall_app. split; [exact Hc' | ]. constructor; [exact Hd | constructor].
    + unfold set_vert_caps. cbn. rewrite fmap_app. reflexivity.
  - rewrite Hinit. unfold bind, lift. intros s1 s2 H. split; [reflexivity | exact H].
Qed.

Lemma sim_add_edges :
  Sim R_world WireSkin.add_edges_to_vert_caps WireSkin.add_edges_to_vert_caps.
Proof.
  unfold WireSkin.add_edges_to_vert_caps. apply Sim_bind_read. intros w1 w2 (Hk & Hc & ->).
  unfold id. cbn [mesh]. apply Sim_for_each. intros [edge ev].
  apply Sim_for_each. intros [this other].
  apply Sim_bind; [apply Sim_lift; reflexivity | intros co].
  apply Sim_with_cap. apply sim_add_edge_vert.
Qed.

Lemma sim_for_each_vert_cap body1 body2 :
  (∀ i, Sim R_world (body1 i) (body2 i)) →
  Sim R_world (WireSkin.for_each_vert_cap body1) (WireSkin.for_each_vert_cap body2).
Proof.
  intros Hb. unfold WireSkin.for_each_vert_cap. apply Sim_bind_read.
  intros w1 w2 (Hk & Hc & ->). cbn [vert_caps]. rewrite length_fmap.
  apply Sim_for_each. exact Hb.
Qed.

Lemma sim_poles : Sim R_world WireSkin.create_vert_cap_poles WireSkin.create_vert_cap_poles.
Proof.
  apply sim_for_each_vert_cap. intros i. apply Sim_with_cap. apply sim_create_pole_verts.
Qed.

Lemma sim_profiles atan2 :
  Sim R_world (WireSkin.create_vert_cap_profiles atan2)
              (WireSkin.create_vert_cap_profiles atan2).
Proof.
  apply sim_for_each_vert_cap. intros i. apply Sim_bind_read.
  intros w1 w2 (Hk & Hc & ->). cbn [vert_caps].
  apply Sim_with_cap. apply sim_create_profiles.
Qed.

Lemma sim_faces : Sim R_world WireSkin.create_vert_cap_faces WireSkin.create_vert_cap_faces.
Proof.
  apply sim_for_each_vert_cap. intros i.
  apply Sim_bind; [ | intros _]; apply Sim_with_cap.
  - apply sim_create_pole_faces.
  - apply sim_create_inter_profile_faces.
Qed.

Lemma sim_connect bm :
  Sim R_world (WireSkin.connect_profiles bm) (WireSkin.connect_profiles bm).
Proof.
  unfold WireSkin.connect_profiles. apply Sim_bind_read. intros w1 w2 (Hk & Hc & ->).
  unfold id. cbn [mesh kwargs]. apply Sim_for_each. intros [edge ev].
  apply Sim_bind_read. intros s1 s2 (Hk1 & Hc1 & ->). cbn [profile_connectors].
  apply Sim_bind.
  - apply Sim_modify. intros t1 t2 (Hk2 & Hc2 & ->). repeat split; assumption.
  - intros _. apply Sim_bind_read. intros t1 t2 (Hk2 & Hc2 & ->). cbn [vert_caps].
    apply Sim_with_connector. intros s. symmetry. apply join_profiles_undisplaced.
Qed.

Lemma sim_crease : Sim R_world WireSkin.crease_edges WireSkin.crease_edges.
Proof.
  unfold WireSkin.crease_edges. apply Sim_bind_read. intros w1 w2 (Hk & Hc & ->).
  cbn [crease_layer]. destruct (crease_layer w1); [ | apply Sim_ret].
  apply Sim_bind.
  - apply sim_for_each_vert_cap. intros i. apply Sim_with_cap. apply sim_crease_edges.
  - intros _. apply Sim_bind_read. intros s1 s2 (Hk1 & Hc1 & ->). cbn [profile_connectors].
    apply Sim_for_each. intros j. apply Sim_with_connector. reflexivity.
Qed.

Lemma sim_create_mesh atan2 :
  Sim R_world (WireSkin.create_mesh atan2) (WireSkin.create_mesh atan2).
Proof.
  unfold WireSkin.create_mesh.
  apply Sim_bind; [apply sim_bmesh_new | intros bm].
  apply Sim_bind_read. intros w1 w2 (Hk & Hc & ->). cbn [kwargs kw_undisplaced kw_crease].
  apply Sim_bind.
  { destruct (kw_crease (kwargs w1)) as [[v|]|]; try apply Sim_ret.
    apply Sim_bind; [apply Sim_on_bmesh | intros _].
    apply Sim_modify. intros s1 s2 (Hk1 & Hc1 & ->). repeat split; assumption. }
  intros _.
  apply Sim_bind; [apply sim_create_vert_caps | intros _].
  apply Sim_bind; [apply sim_add_edges | intros _].
  apply Sim_bind; [apply sim_poles | intros _].
  apply Sim_bind; [apply sim_profiles | intros _].
  apply Sim_bind; [apply sim_faces | intros _].
  apply Sim_bind; [apply sim_connect | intros _].
  apply Sim_bind; [apply sim_crease | intros _].
  apply Sim_bind; [apply Sim_on_bmesh | intros me].
  apply Sim_bind; [apply Sim_on_bmesh | intros _].
  apply Sim_ret.
Qed.

(** C10.  For every wireframe and every other option, a build configured
    with [displace = 0.0] and a build without [displace] end alike: the same
    exception or the same mesh, and the same meshes and connectors in the
    store.  (Both places that read [displace] test its truth value.) *)
Theorem zero_displace_is_no_displace (atan2 : float → float → float) (m : Mesh)
    (w h d r ri ro : option float) (cr : option (option float)) (ps : option bool) :
  let run0 := WireSkin.create_mesh atan2
                (WireSkin.init m (mkKwargs w h d r ri ro cr (Some 0%float) ps)) in
  let run := WireSkin.create_mesh atan2
               (WireSkin.init m (mkKwargs w h d r ri ro cr None ps)) in
  run0.1 = run.1
  ∧ bmeshes run0.2 = bmeshes run.2
  ∧ profile_connectors run0.2 = profile_connectors run.2.
Proof.
  intros run0 run.
  destruct (sim_create_mesh atan2
              (WireSkin.init m (mkKwargs w h d r ri ro cr (Some 0%float) ps))
              (WireSkin.init m (mkKwargs w h d r ri ro cr None ps)))
    as (Hres & _ & _ & Hw).
  { split; [reflexivity | ]. split; [constructor | reflexivity]. }
  fold run0 run in Hres, Hw. split; [exact Hres | ]. rewrite Hw. split; reflexivity.
Qed.

(** A displacement that is not zero does move the vertices. *)
Lemma displace_matters :
  (WireSkin.create_mesh Atan2.atan2
     (WireSkin.init Examples.mesh_segment
        (mkKwargs (Some 0.2%float) (Some 0.2%float) (Some 0.25%float) None
                  (Some 0.1%float) (Some 0.1%float) None (Some 0.5%float) None))).1
  ≠ (WireSkin.create_mesh Atan2.atan2
       (WireSkin.init Examples.mesh_segment Examples.kw_full)).1.
Proof. vm_compute. discriminate. Qed.

(** ** The counts of a cap

    What a method has done when it returned normally. *)
Lemma lift_ok {S A} (r : res A) (s s' : S) a : lift r s = (Ok a, s') → r = Ok a ∧ s' = s.
Proof. unfold lift. intros H. inversion H; auto. Qed.

Lemma gets_ok {S A} (f : S → A) (s s' : S) a : gets f s = (Ok a, s') → a = f s ∧ s' = s.
Proof. unfold gets. intros H. inversion H; auto. Qed.

Lemma on_bm_ok {A} (m : M BMesh.t A) c b a c' b' :
  VertCap.on_bm m (c, b) = (Ok a, (c', b')) → c' = c ∧ m b = (Ok a, b').
Proof.
  unfold VertCap.on_bm, zoom. cbn [fst snd]. destruct (m b) as [r bx]. intros H.
  inversion H; subst. auto.
Qed.

Lemma update_ok f c b c' b' :
  VertCap.update f (c, b) = (Ok tt, (c', b')) → c' = f c ∧ b' = b.
Proof. unfold VertCap.update, modify. cbn. intros H. inversion H; auto. Qed.

Lemma verts_new_ok p b v b' :
  BMesh.verts_new p b = (Ok v, b') →
  BMesh.is_valid b = true ∧ BMesh.is_valid b' = true ∧ BMesh.faces b' = BMesh.faces b
  ∧ BMesh.verts b' = BMesh.verts b ++ [v].
Proof.
  unfold BMesh.verts_new. unfold_py. destruct (BMesh.is_valid b) eqn:Hv; intros H; inversion H.
  subst. cbn. auto.
Qed.

Lemma faces_new_ok vs b b' :
  BMesh.faces_new vs b = (Ok tt, b') →
  BMesh.is_valid b = true ∧ BMesh.is_valid b' = true ∧ BMesh.faces b' = BMesh.faces b ++ [vs]
  ∧ BMesh.verts b' = BMesh.verts b.
Proof.
  unfold BMesh.faces_new. unfold_py. destruct (BMesh.is_valid b) eqn:Hv; intros H; inversion H.
  subst. cbn. auto.
Qed.

Lemma edges_get_ok x y b e b' :
  BMesh.edges_get x y b = (Ok e, b') → b' = b.
Proof.
  unfold BMesh.edges_get. unfold_py. destruct (BMesh.is_valid b); intros H; inversion H; auto.
Qed.

Lemma create_pole_verts_ok c b c' b' :
  VertCap.create_pole_verts (c, b) = (Ok tt, (c', b')) →
  VertCap.input_edge_verts c' = VertCap.input_edge_verts c
  ∧ VertCap.bm c' = VertCap.bm c
  ∧ VertCap.profiles c' = VertCap.profiles c
  ∧ VertCap.edge_profile_map c' = VertCap.edge_profile_map c
  ∧ BMesh.faces b' = BMesh.faces b
  ∧ (VertCap.poles c = [] → VertCap.normal c = None →
     pole_shape (length (VertCap.input_edge_verts c)) c').
Proof.
  unfold VertCap.create_pole_verts. intros H.
  apply bind_ok in H as (c0 & s0 & H0 & H). apply gets_ok in H0 as [-> ->]. cbn [fst] in H.
  destruct (Nat.eqb (length (VertCap.input_edge_verts c)) 0) eqn:Hn.
  { inversion H; subst. repeat split; try reflexivity. intros Hp Hno. left. auto. }
  apply Nat.eqb_neq in Hn.
  apply bind_ok in H as (vave & s1 & H1 & H). apply lift_ok in H1 as [Hvave ->].
  destruct (PrimFloat.ltb _ (Vec.magnitude vave)).
  2: { inversion H; subst. repeat split; try reflexivity. intros Hp Hno. left. auto. }
  apply bind_ok in H as (nv & s2 & H2 & H).
  assert (s2 = (c, b)) as ->.
  { destruct (Nat.ltb _ 3).
    - inversion H2; reflexivity.
    - apply bind_ok in H2 as (x & sx & Hx & H2). apply lift_ok in Hx as [_ ->].
      inversion H2; reflexivity. }
  clear H2.
  apply bind_ok in H as ([] & [c3 b3] & H3 & H). apply update_ok in H3 as [-> ->].
  apply bind_ok in H as (scale & s4 & H4 & H).
  assert (s4 = (VertCap.set_normal (Some nv) c, b)) as ->.
  { destruct (VertCap.proportional_scale c).
    - apply bind_ok in H4 as (x & sx & Hx & H4). apply lift_ok in Hx as [_ ->].
      inversion H4; reflexivity.
    - inversion H4; reflexivity. }
  clear H4.
  apply bind_ok in H as (v1 & [c5 b5] & H5 & H). apply on_bm_ok in H5 as [-> H5].
  apply verts_new_ok in H5 as (_ & _ & Hf5 & _).
  apply bind_ok in H as ([] & [c6 b6] & H6 & H). apply update_ok in H6 as [-> ->].
  destruct (Nat.ltb 1 (length (VertCap.input_edge_verts c))) eqn:Hlt.
  - apply bind_ok in H as (v2 & [c7 b7] & H7 & H). apply on_bm_ok in H7 as [-> H7].
    apply verts_new_ok in H7 as (_ & _ & Hf7 & _).
    apply update_ok in H as [-> ->].
    repeat split; try reflexivity; [congruence | ].
    intros Hp Hno. right. split; [eexists; reflexivity | ]. split; [exact Hn | ].
    rewrite Hlt. cbn. rewrite Hp. reflexivity.
  - inversion H; subst.
    repeat split; try reflexivity; [congruence | ].
    intros Hp Hno. right. split; [eexists; reflexivity | ]. split; [exact Hn | ].
    rewrite Hlt. cbn. rewrite Hp. reflexivity.
Qed.

Lemma bind_lift_ok {S A B} (r : res A) (k : A → M S B) s b s' :
  bind (lift r) k s = (Ok b, s') → ∃ a, r = Ok a ∧ k a s = (Ok b, s').
Proof. rewrite bind_lift. destruct r; [eauto | discriminate]. Qed.

Lemma bind_on_bm_ok {A B} (m : M BMesh.t A) (k : A → M VertCap.St B) c b x s' :
  bind (VertCap.on_bm m) k (c, b) = (Ok x, s') →
  ∃ a b1, m b = (Ok a, b1) ∧ k a (c, b1) = (Ok x, s').
Proof.
  intros H. apply bind_ok in H as (a & [c1 b1] & H1 & H).
  apply on_bm_ok in H1 as [-> H1]. eauto.
Qed.

Lemma bind_update {B} f (k : unit → M VertCap.St B) c b :
  bind (VertCap.update f) k (c, b) = k tt (f c, b).
Proof. reflexivity. Qed.

Lemma bind_self {B} (k : VertCap.t → M VertCap.St B) c b :
  bind VertCap.self k (c, b) = k c (c, b).
Proof. reflexivity. Qed.

Lemma create_profile_ok ev o c b c' b' :
  VertCap.create_profile ev o (c, b) = (Ok tt, (c', b')) →
  ∃ p, c' = VertCap.set_profiles (VertCap.profiles c ++ [p])
              (<[ev_e ev := p]> (VertCap.edge_profile_map c)) c
       ∧ BMesh.faces b' = BMesh.faces b.
Proof.
  unfold VertCap.create_profile. rewrite bind_self. intros H.
  apply bind_lift_ok in H as (dist & _ & H).
  apply bind_ok in H as (vpole & s1 & H1 & H).
  assert (s1 = (c, b)) as ->.
  { destruct (PrimFloat.ltb _ _).
    - apply bind_lift_ok in H1 as (? & _ & H1). apply bind_lift_ok in H1 as (? & _ & H1).
      apply bind_lift_ok in H1 as (? & _ & H1). inversion H1; reflexivity.
    - inversion H1; reflexivity. }
  clear H1.
  apply bind_lift_ok in H as (vp & _ & H).
  apply bind_on_bm_ok in H as (v1 & b1 & Hb1 & H). apply verts_new_ok in Hb1 as (_ & _ & Hf1 & _).
  apply bind_on_bm_ok in H as (v2 & b2 & Hb2 & H). apply verts_new_ok in Hb2 as (_ & _ & Hf2 & _).
  apply bind_on_bm_ok in H as (v3 & b3 & Hb3 & H). apply verts_new_ok in Hb3 as (_ & _ & Hf3 & _).
  apply bind_on_bm_ok in H as (v4 & b4 & Hb4 & H). apply verts_new_ok in Hb4 as (_ & _ & Hf4 & _).
  apply update_ok in H as [-> ->].
  eexists. split; [reflexivity | congruence].
Qed.

(** The dict of [reorder_edge_verts] holds at most one entry per edge vertex
    and, when there is one, at least one. *)
Lemma dict_set_length {V} (d : list (float * V)) k v :
  length d ≤ length (Py.dict_set d k v) ≤ S (length d) ∧ 1 ≤ length (Py.dict_set d k v).
Proof.
  induction d as [|[k' v'] d IH]; cbn; [lia | ].
  destruct (PrimFloat.eqb k' k); cbn; lia.
Qed.

Lemma dict_fold_length {V X} (f : X → float) (g : X → V) (l : list X) d :
  let d' := foldl (λ d x, Py.dict_set d (f x) (g x)) d l in
  length d ≤ length d' ≤ length d + length l ∧ (l ≠ [] → 1 ≤ length d').
Proof.
  revert d. induction l as [|x l IH]; intros d; cbn.
  - split; [lia | congruence].
  - specialize (IH (Py.dict_set d (f x) (g x))). cbn in IH.
    pose proof (dict_set_length d (f x) (g x)). split; [lia | intros _; lia].
Qed.

Lemma insert_sorted_length {V} (kv : float * V) l :
  length (Py.insert_sorted kv l) = S (length l).
Proof.
  induction l as [|kv' l IH]; cbn; [reflexivity | ].
  destruct (PrimFloat.ltb _ _); cbn; lia.
Qed.

Lemma sorted_length {V} (d : list (float * V)) : length (Py.sorted d) = length d.
Proof.
  unfold Py.sorted. induction d as [|kv d IH]; cbn; [reflexivity | ].
  rewrite insert_sorted_length. lia.
Qed.

Lemma set_input_edge_verts_id c : VertCap.set_input_edge_verts (VertCap.input_edge_verts c) c = c.
Proof. destruct c; reflexivity. Qed.

Lemma reorder_edge_verts_ok atan2 c b c' b' :
  VertCap.reorder_edge_verts atan2 (c, b) = (Ok tt, (c', b')) →
  b' = b
  ∧ ∃ l, c' = VertCap.set_input_edge_verts l c
         ∧ length l ≤ length (VertCap.input_edge_verts c)
         ∧ (length (VertCap.input_edge_verts c) < 2 → l = VertCap.input_edge_verts c)
         ∧ (2 ≤ length (VertCap.input_edge_verts c) →
            2 ≤ length l ∧ is_Some (VertCap.normal c)).
Proof.
  unfold VertCap.reorder_edge_verts. rewrite bind_self. intros H.
  destruct (Nat.ltb (length (VertCap.input_edge_verts c)) 2) eqn:Hn.
  - apply Nat.ltb_lt in Hn. inversion H; subst. split; [reflexivity | ].
    exists (VertCap.input_edge_verts c'). rewrite set_input_edge_verts_id.
    repeat split; auto; lia.
  - apply Nat.ltb_ge in Hn.
    apply bind_lift_ok in H as (ev0 & Hev0 & H).
    apply bind_lift_ok in H as (zv & Hzv & H).
    apply bind_lift_ok in H as (mat & _ & H).
    apply update_ok in H as [-> ->]. split; [reflexivity | ].
    eexists. split; [reflexivity | ].
    cbn [length]. rewrite length_map, sorted_length.
    pose proof (dict_fold_length (VertCap.theta_of atan2 mat c) id
                  (drop 1 (VertCap.input_edge_verts c)) []) as [Hlen Hne].
    cbn in Hlen, Hne. rewrite length_drop in Hlen.
    assert (drop 1 (VertCap.input_edge_verts c) ≠ []) as Hd.
    { intros Hd. apply (f_equal length) in Hd. rewrite length_drop in Hd. cbn in Hd. lia. }
    specialize (Hne Hd). unfold id in *.
    split; [lia | ]. split; [lia | ]. intros _. split; [lia | ].
    unfold Vec.attr in Hzv. destruct (VertCap.normal c); [eauto | discriminate].
Qed.

Lemma set_profiles_id c :
  VertCap.set_profiles (VertCap.profiles c) (VertCap.edge_profile_map c) c = c.
Proof. destruct c; reflexivity. Qed.

Lemma create_profiles_ok atan2 caps c b c' b' :
  VertCap.create_profiles atan2 caps (c, b) = (Ok tt, (c', b')) →
  VertCap.profiles c = [] → VertCap.edge_profile_map c = ∅ →
  VertCap.poles c' = VertCap.poles c ∧ VertCap.normal c' = VertCap.normal c
  ∧ VertCap.bm c' = VertCap.bm c ∧ BMesh.faces b' = BMesh.faces b
  ∧ length (VertCap.input_edge_verts c') ≤ length (VertCap.input_edge_verts c)
  ∧ (length (VertCap.input_edge_verts c) < 2 →
     length (VertCap.input_edge_verts c') = length (VertCap.input_edge_verts c))
  ∧ (2 ≤ length (VertCap.input_edge_verts c) →
     2 ≤ length (VertCap.input_edge_verts c') ∧ is_Some (VertCap.normal c))
  ∧ length (VertCap.profiles c') = length (VertCap.input_edge_verts c')
  ∧ ∀ e, is_Some (VertCap.edge_profile_map c' !! e) →
         e ∈ map ev_e (VertCap.input_edge_verts c').
Proof.
  unfold VertCap.create_profiles. rewrite bind_self. intros H Hp Hm.
  destruct (Nat.eqb (length (VertCap.input_edge_verts c)) 0) eqn:Hn.
  { apply Nat.eqb_eq in Hn. inversion H; subst. rewrite Hp, Hm, Hn.
    repeat split; auto; try lia. intros e [p He]. rewrite lookup_empty in He. discriminate. }
  apply bind_ok in H as ([] & [c1 b1] & Hr & H).
  apply reorder_edge_verts_ok in Hr as (-> & l & -> & Hle & Hlt & Hge).
  rewrite bind_self in H. cbn [VertCap.input_edge_verts VertCap.set_input_edge_verts] in H.
  set (c1 := VertCap.set_input_edge_verts l c) in *.
  pose (Inv := λ (k : nat) (s : VertCap.St),
          ∃ ps mp, s.1 = VertCap.set_profiles ps mp c1 ∧ BMesh.faces s.2 = BMesh.faces b
                   ∧ length ps = k
                   ∧ ∀ e, is_Some (mp !! e) → e ∈ map ev_e (take k l)).
  assert (Inv (length l) (c', b')) as (ps & mp & Hc' & Hf & Hlen & Hkeys).
  { refine (for_each_ok_inv Inv l _ _ (c1, b) (c', b') _ H).
    - intros k ev [cx bx] [cy by_] Hk (ps & mp & Hcx & Hfx & Hlx & Hkx) Hrun.
      apply bind_lift_ok in Hrun as (other & _ & Hrun).
      apply create_profile_ok in Hrun as (p & Hcy & Hfy). cbn [fst snd] in *. subst cx.
      exists (ps ++ [p]), (<[ev_e ev := p]> mp). cbn [fst snd]. split; [exact Hcy | ].
      split; [congruence | ]. split; [rewrite length_app; cbn; lia | ].
      intros e He. rewrite (take_S_r _ _ _ Hk), map_app, elem_of_app. cbn.
      destruct (decide (e = ev_e ev)) as [->|Hne].
      + right. left.
      + left. apply Hkx. rewrite lookup_insert_ne in He by congruence. exact He.
    - exists [], ∅. cbn [fst snd]. split.
      + rewrite <- (set_profiles_id c1) at 1. subst c1. cbn. rewrite Hp, Hm. reflexivity.
      + repeat split; auto. intros e [p He]. rewrite lookup_empty in He. discriminate. }
  cbn [fst snd] in *. subst c'. subst c1. cbn.
  rewrite firstn_all in Hkeys.
  repeat split; auto; try lia; try (apply Hge; assumption).
  intros Hl. rewrite (Hlt Hl). reflexivity.
Qed.

(** The faces a cap makes. *)
Lemma getitem_ok {A} (l : list A) i a : Py.getitem l i = Ok a → l !! i = Some a.
Proof. unfold Py.getitem. destruct (l !! i); intros H; inversion H; reflexivity. Qed.

Lemma bind_faces_new_ok {B} vs (k : unit → M VertCap.St B) c b x s' :
  bind (VertCap.on_bm (BMesh.faces_new vs)) k (c, b) = (Ok x, s') →
  ∃ b1, BMesh.faces b1 = BMesh.faces b ++ [vs] ∧ k tt (c, b1) = (Ok x, s').
Proof.
  intros H. apply bind_on_bm_ok in H as ([] & b1 & H1 & H).
  apply faces_new_ok in H1 as (_ & _ & H1 & _). eauto.
Qed.

Lemma create_pole_faces_ok c b c' b' :
  VertCap.create_pole_faces (c, b) = (Ok tt, (c', b')) →
  c' = c
  ∧ (VertCap.profiles c ≠ [] →
     (if Nat.ltb 1 (length (VertCap.input_edge_verts c)) then 2 else 1)
     ≤ length (VertCap.poles c))
  ∧ (length (VertCap.poles c) = (if Nat.ltb 1 (length (VertCap.input_edge_verts c)) then 2 else 1) →
     BMesh.faces b' = BMesh.faces b
                      ++ flat_map (end_cap_faces (VertCap.poles c)) (VertCap.profiles c)).
Proof.
  unfold VertCap.create_pole_faces. rewrite bind_self. intros H.
  set (need := if Nat.ltb 1 (length (VertCap.input_edge_verts c)) then 2 else 1).
  pose (Inv := λ (k : nat) (s : VertCap.St),
          s.1 = c ∧ (k ≠ 0 → need ≤ length (VertCap.poles c))
          ∧ (length (VertCap.poles c) = need →
             BMesh.faces s.2 = BMesh.faces b
               ++ flat_map (end_cap_faces (VertCap.poles c)) (take k (VertCap.profiles c)))).
  assert (Inv (length (VertCap.profiles c)) (c', b')) as (Hc & Hneed & Hf).
  { refine (for_each_ok_inv Inv _ _ _ (c, b) (c', b') _ H).
    - intros k p [cx bx] [cy by_] Hk (Hcx & _ & Hfx) Hrun. cbn [fst snd] in *. subst cx.
      unfold Inv. cbn [fst snd]. rewrite (take_S_r _ _ _ Hk), flat_map_app. cbn [flat_map].
      rewrite app_nil_r. subst need.
      destruct (Nat.ltb 1 (length (VertCap.input_edge_verts c))).
      + apply bind_lift_ok in Hrun as (pole1 & H1 & Hrun). apply getitem_ok in H1.
        apply bind_faces_new_ok in Hrun as (b1 & Hb1 & Hrun).
        apply bind_lift_ok in Hrun as (pole0 & H0 & Hrun). apply getitem_ok in H0.
        apply on_bm_ok in Hrun as [-> Hrun]. apply faces_new_ok in Hrun as (_ & _ & Hb2 & _).
        split; [reflexivity | ]. split.
        * intros _. apply lookup_lt_Some in H1. lia.
        * intros Hlen. rewrite Hb2, Hb1, (Hfx Hlen).
          destruct (VertCap.poles c) as [|q0 [|q1 [|]]]; try discriminate.
          cbn in H0, H1. inversion H0; inversion H1; subst. cbn.
          rewrite <- !app_assoc. reflexivity.
      + cbn [seq for_each] in Hrun.
        apply bind_ok in Hrun as ([] & [c1 b1] & H1 & Hrun).
        apply bind_lift_ok in H1 as (pole0 & H0 & H1). apply getitem_ok in H0.
        apply on_bm_ok in H1 as [-> H1]. apply faces_new_ok in H1 as (_ & _ & Hb1 & _).
        apply bind_ok in Hrun as ([] & [c2 b2] & H2 & Hrun).
        apply bind_lift_ok in H2 as (q12 & Hq2 & H2). apply getitem_ok in Hq2.
        rewrite H0 in Hq2. inversion Hq2; subst q12.
        apply on_bm_ok in H2 as [-> H2]. apply faces_new_ok in H2 as (_ & _ & Hb2 & _).
        apply bind_ok in Hrun as ([] & [c3 b3] & H3 & Hrun).
        apply bind_lift_ok in H3 as (q13 & Hq3 & H3). apply getitem_ok in Hq3.
        rewrite H0 in Hq3. inversion Hq3; subst q13.
        apply on_bm_ok in H3 as [-> H3]. apply faces_new_ok in H3 as (_ & _ & Hb3 & _).
        apply bind_ok in Hrun as ([] & [c4 b4] & H4 & Hrun).
        apply bind_lift_ok in H4 as (q14 & Hq4 & H4). apply getitem_ok in Hq4.
        rewrite H0 in Hq4. inversion Hq4; subst q14.
        apply on_bm_ok in H4 as [-> H4]. apply faces_new_ok in H4 as (_ & _ & Hb4 & _).
        assert (cy = c ∧ by_ = b4) as [-> ->] by (inversion Hrun; auto).
        split; [reflexivity | ]. split.
        * intros _. apply lookup_lt_Some in H0. lia.
        * intros Hlen. rewrite Hb4, Hb3, Hb2, Hb1, (Hfx Hlen).
          destruct (VertCap.poles c) as [|r0 [|]]; try discriminate.
          cbn in H0. inversion H0; subst. cbn.
          rewrite <- !app_assoc. reflexivity.
    - split; [reflexivity | ]. split; [congruence | ]. intros _. cbn. rewrite app_nil_r.
      reflexivity. }
  cbn [fst snd] in *. split; [exact Hc | ]. split.
  - intros Hne. apply Hneed. destruct (VertCap.profiles c); [congruence | cbn; lia].
  - intros Hlen. rewrite firstn_all in Hf. apply Hf. exact Hlen.
Qed.

Lemma flat_map_nil {A B} (f : A → list B) l : (∀ x, f x = []) → flat_map f l = [].
Proof. intros Hf. induction l as [|x l IH]; cbn; [ | rewrite Hf, IH]; reflexivity. Qed.

Lemma create_inter_profile_faces_ok c b c' b' :
  VertCap.create_inter_profile_faces (c, b) = (Ok tt, (c', b')) →
  length (VertCap.poles c) = Nat.min (length (VertCap.input_edge_verts c)) 2 →
  (∃ ce, c' = VertCap.set_creased_edges ce c)
  ∧ BMesh.faces b' = BMesh.faces b
                     ++ flat_map (lens_at c) (seq 0 (length (VertCap.profiles c))).
Proof.
  unfold VertCap.create_inter_profile_faces. rewrite bind_self. intros H Hlen.
  destruct (Nat.ltb (length (VertCap.input_edge_verts c)) 2) eqn:Hn.
  { apply Nat.ltb_lt in Hn. inversion H; subst. split.
    - exists (VertCap.creased_edges c'). destruct c'; reflexivity.
    - rewrite flat_map_nil; [rewrite app_nil_r; reflexivity | ].
      intros i. unfold lens_at.
      destruct (VertCap.profiles c' !! i); [ | reflexivity].
      destruct (VertCap.profiles c' !! _); [ | reflexivity].
      destruct (VertCap.poles c') as [|q0 [|q1 [|]]]; try reflexivity. cbn in Hlen. lia. }
  apply Nat.ltb_ge in Hn. rewrite Nat.min_r in Hlen by lia.
  destruct (VertCap.poles c) as [|pole0 [|pole1 [|]]] eqn:Hpoles; try discriminate. clear Hlen.
  pose (Inv := λ (k : nat) (s : VertCap.St),
          (∃ ce, s.1 = VertCap.set_creased_edges ce c)
          ∧ BMesh.faces s.2 = BMesh.faces b ++ flat_map (lens_at c) (seq 0 k)).
  assert (Inv (length (seq 0 (length (VertCap.profiles c)))) (c', b')) as HI;
    [ | unfold Inv in HI; rewrite length_seq in HI; exact HI].
  refine (for_each_ok_inv Inv _ _ _ (c, b) (c', b') _ H).
  - intros k i [cx bx] [cy by_] Hk ([ce Hcx] & Hfx) Hrun. cbn [fst snd] in *. subst cx.
    apply lookup_seq in Hk as [-> Hk]. cbn [Nat.add] in *.
    apply bind_lift_ok in Hrun as (this & Hthis & Hrun). apply getitem_ok in Hthis.
    apply bind_lift_ok in Hrun as (next & Hnext & Hrun). apply getitem_ok in Hnext.
    apply bind_lift_ok in Hrun as (q0 & Hq0 & Hrun). apply getitem_ok in Hq0.
    apply bind_faces_new_ok in Hrun as (b1 & Hb1 & Hrun).
    apply bind_lift_ok in Hrun as (q1 & Hq1 & Hrun). apply getitem_ok in Hq1.
    apply bind_faces_new_ok in Hrun as (b2 & Hb2 & Hrun).
    apply bind_faces_new_ok in Hrun as (b3 & Hb3 & Hrun).
    cbn in Hq0, Hq1. inversion Hq0; inversion Hq1; subst q0 q1.
    assert (lens_at c k
            = [[pole0; profile_get this 0; profile_get next 1];
               [pole1; profile_get next 2; profile_get this 3];
               [profile_get this 0; profile_get this 3; profile_get next 2;
                profile_get next 1]]) as Hlens.
    { unfold lens_at. rewrite Hthis, Hnext, Hpoles. reflexivity. }
    assert (BMesh.faces b3 = BMesh.faces b ++ flat_map (lens_at c) (seq 0 (S k))) as Hf3.
    { rewrite seq_S, flat_map_app. cbn [flat_map Nat.add]. rewrite app_nil_r, Hlens.
      rewrite Hb3, Hb2, Hb1, Hfx, <- !app_assoc. reflexivity. }
    destruct (VertCap.crease c).
    + apply bind_on_bm_ok in Hrun as (e1 & b4 & He1 & Hrun). apply edges_get_ok in He1 as ->.
      rewrite bind_update in Hrun.
      apply bind_on_bm_ok in Hrun as (e2 & b5 & He2 & Hrun). apply edges_get_ok in He2 as ->.
      apply update_ok in Hrun as [-> ->]. split; [ | exact Hf3].
      eexists. cbn. reflexivity.
    + assert (cy = VertCap.set_creased_edges ce c ∧ by_ = b3) as [-> ->]
        by (inversion Hrun; auto).
      split; [eauto | exact Hf3].
  - split; [ | cbn; rewrite app_nil_r; reflexivity].
    exists (VertCap.creased_edges c). destruct c; reflexivity.
Qed.

(** Stamping creases leaves the faces alone. *)
Lemma on_bm_set_crease_faces e value (s : VertCap.St) :
  BMesh.faces (VertCap.on_bm (BMesh.set_crease e value) s).2.2 = BMesh.faces s.2.
Proof.
  unfold VertCap.on_bm, zoom, BMesh.set_crease, BMesh.check_valid, bind, gets, modify, raise, ret.
  destruct s as [c b]. cbn. destruct (BMesh.is_valid b); reflexivity.
Qed.

Lemma crease_edges_faces c b :
  BMesh.faces (VertCap.crease_edges (c, b)).2.2 = BMesh.faces b.
Proof.
  unfold VertCap.crease_edges. rewrite bind_self.
  apply (for_each_keeps (λ s, BMesh.faces s.2 = BMesh.faces b)); [ | reflexivity].
  intros e s _ Hs. destruct (VertCap.crease c), e; try exact Hs.
  rewrite on_bm_set_crease_faces. exact Hs.
Qed.

Lemma cap_crease_edges_frame c b c' b' :
  VertCap.crease_edges (c, b) = (Ok tt, (c', b')) → c' = c ∧ BMesh.faces b' = BMesh.faces b.
Proof.
  intros H. pose proof (crease_edges_cap c b) as H1. pose proof (crease_edges_faces c b) as H2.
  rewrite H in H1, H2. auto.
Qed.

Lemma pc_on_bm_ok {A} (m : M BMesh.t A) pc b a pc' b' :
  ProfileConnector.on_bm m (pc, b) = (Ok a, (pc', b')) → pc' = pc ∧ m b = (Ok a, b').
Proof.
  unfold ProfileConnector.on_bm, zoom. cbn [fst snd]. destruct (m b) as [r bx]. intros H.
  inversion H; subst. auto.
Qed.

Lemma join_profiles_ok caps pc b pc' b' :
  ProfileConnector.join_profiles caps (pc, b) = (Ok tt, (pc', b')) →
  ∃ vc0 vc1 quads,
    caps !! (pc_edge_vertices pc).1 = Some vc0
    ∧ caps !! (pc_edge_vertices pc).2 = Some vc1
    ∧ is_Some (VertCap.edge_profile_map vc0 !! pc_edge pc)
    ∧ is_Some (VertCap.edge_profile_map vc1 !! pc_edge pc)
    ∧ BMesh.faces b' = BMesh.faces b ++ quads ∧ length quads = 4
    ∧ pc_bm pc' = pc_bm pc.
Proof.
  unfold ProfileConnector.join_profiles, ProfileConnector.self. rewrite bind_gets.
  cbn [fst]. intros H.
  apply bind_lift_ok in H as (vc0 & H0 & H). apply getitem_ok in H0.
  apply bind_lift_ok in H as (vc1 & H1 & H). apply getitem_ok in H1.
  apply bind_lift_ok in H as (loop0 & Hl0 & H).
  apply bind_lift_ok in H as (loop1 & Hl1 & H).
  unfold VertCap.get_edge_profile in Hl0, Hl1.
  exists vc0, vc1.
  assert (is_Some (VertCap.edge_profile_map vc0 !! pc_edge pc)) as Hs0
    by (destruct (VertCap.edge_profile_map vc0 !! _); [eauto | discriminate]).
  assert (is_Some (VertCap.edge_profile_map vc1 !! pc_edge pc)) as Hs1
    by (destruct (VertCap.edge_profile_map vc1 !! _); [eauto | discriminate]).
  destruct (ProfileConnector.correspondence loop0 loop1) as [[min_i min_i2] mult].
  pose (Inv := λ (k : nat) (s : ProfileConnector.St),
          pc_bm s.1 = pc_bm pc
          ∧ ∃ quads, BMesh.faces s.2 = BMesh.faces b ++ quads ∧ length quads = k).
  assert (Inv (length (seqZ 0 4)) (pc', b')) as (Hbm & quads & Hq & Hlen).
  { refine (for_each_ok_inv Inv _ _ _ (pc, b) (pc', b') _ H).
    - intros k idx [pcx bx] [pcy by_] _ (Hbx & quads & Hq & Hlen) Hrun. cbn [fst snd] in *.
      apply bind_ok in Hrun as ([] & [pc1 b1] & Hf & Hrun).
      apply pc_on_bm_ok in Hf as [-> Hf]. apply faces_new_ok in Hf as (_ & _ & Hf & _).
      assert (pc_bm pcy = pc_bm pcx ∧ BMesh.faces by_ = BMesh.faces b1) as [Hy1 Hy2].
      { destruct (pc_crease pc).
        - apply bind_ok in Hrun as (e & [pc2 b2] & He & Hrun).
          apply pc_on_bm_ok in He as [-> He]. apply edges_get_ok in He as ->.
          inversion Hrun; subst. auto.
        - inversion Hrun; subst. auto. }
      unfold Inv. cbn [fst snd]. split; [congruence | ].
      eexists. split; [rewrite Hy2, Hf, Hq, <- app_assoc; reflexivity | ].
      rewrite length_app. cbn. lia.
    - split; [reflexivity | ]. exists []. rewrite app_nil_r. auto. }
  exists quads. cbn [fst snd] in *. auto 10.
Qed.

(** In a store with a single mesh, a method that returns normally has run
    on that mesh. *)
Lemma with_cap_one {A} i (body : M VertCap.St A) b m kw cl caps pcs a w' :
  on_mesh_0 caps →
  with_cap i body (mkWorld [b] m kw cl caps pcs) = (Ok a, w') →
  ∃ c c' b', caps !! i = Some c ∧ body (c, b) = (Ok a, (c', b'))
             ∧ w' = mkWorld [b'] m kw cl (<[i := c']> caps) pcs.
Proof.
  intros H0 H. apply with_cap_ok in H as (c & bx & c' & b' & Hc & Hb & Hrun & ->).
  cbn in Hc, Hb. rewrite (proj1 (Forall_lookup _ _) H0 i c Hc) in Hb |- *.
  cbn in Hb. inversion Hb; subst bx. exists c, c', b'. auto.
Qed.

Lemma with_connector_one {A} j (body : M ProfileConnector.St A) b m kw cl caps pcs a w' :
  Forall (λ pc, pc_bm pc = 0) pcs →
  with_connector j body (mkWorld [b] m kw cl caps pcs) = (Ok a, w') →
  ∃ pc pc' b', pcs !! j = Some pc ∧ body (pc, b) = (Ok a, (pc', b'))
               ∧ w' = mkWorld [b'] m kw cl caps (<[j := pc']> pcs).
Proof.
  intros H0 H. apply with_connector_ok in H as (c & bx & c' & b' & Hc & Hb & Hrun & ->).
  cbn in Hc, Hb. rewrite (proj1 (Forall_lookup _ _) H0 j c Hc) in Hb |- *.
  cbn in Hb. inversion Hb; subst bx. exists c, c', b'. auto.
Qed.

(** A loop over the caps that returns normally: every cap went from some [c]
    to a [c'] with [Q c c'], and the faces [T c'] were appended to the mesh
    in the order of the caps. *)
Lemma cap_phase_ok (Pre : VertCap.t → Prop) (Q : VertCap.t → VertCap.t → Prop)
    (T : VertCap.t → list (list BMesh.BMVert)) (wbody : nat → M World unit) m kw cl pcs :
  (∀ i b caps c w', on_mesh_0 caps → caps !! i = Some c → Pre c →
     wbody i (mkWorld [b] m kw cl caps pcs) = (Ok tt, w') →
     ∃ c' b', w' = mkWorld [b'] m kw cl (<[i := c']> caps) pcs
              ∧ Q c c' ∧ VertCap.bm c' = 0
              ∧ BMesh.faces b' = BMesh.faces b ++ T c') →
  ∀ b caps w', on_mesh_0 caps → Forall Pre caps →
    WireSkin.for_each_vert_cap wbody (mkWorld [b] m kw cl caps pcs) = (Ok tt, w') →
    ∃ b' caps', w' = mkWorld [b'] m kw cl caps' pcs ∧ Forall2 Q caps caps'
                ∧ on_mesh_0 caps'
                ∧ BMesh.faces b' = BMesh.faces b ++ flat_map T caps'.
Proof.
  intros Hstep b caps w' H0 Hpre H. unfold WireSkin.for_each_vert_cap in H.
  rewrite bind_gets in H. cbn [vert_caps] in H.
  pose (Inv := λ (k : nat) (w : World),
          ∃ b' caps', w = mkWorld [b'] m kw cl caps' pcs ∧ on_mesh_0 caps'
                      ∧ length caps' = length caps
                      ∧ Forall2 Q (take k caps) (take k caps')
                      ∧ drop k caps' = drop k caps
                      ∧ BMesh.faces b' = BMesh.faces b ++ flat_map T (take k caps')).
  assert (Inv (length (seq 0 (length caps))) w')
    as (b' & caps' & -> & H0' & Hlen & HQ & _ & Hf).
  { refine (for_each_ok_inv Inv _ _ _ _ w' _ H).
    - intros k i w1 w2 Hk (b1 & caps1 & -> & H01 & Hlen1 & HQ1 & Hd1 & Hf1) Hrun.
      apply lookup_seq in Hk as [-> Hk]. cbn [Nat.add] in *.
      destruct (lookup_lt_is_Some_2 caps k Hk) as [c Hc].
      assert (caps1 !! k = Some c) as Hc1.
      { pose proof (lookup_drop caps1 k 0) as E1. pose proof (lookup_drop caps k 0) as E2.
        rewrite Nat.add_0_r in E1, E2. rewrite <- E1, Hd1, E2. exact Hc. }
      destruct (Hstep k b1 caps1 c w2 H01 Hc1 (proj1 (Forall_lookup _ _) Hpre k c Hc) Hrun)
        as (c' & b2 & -> & Hq & Hbm & Hf2).
      exists b2, (<[k := c']> caps1). split; [reflexivity | ].
      split; [apply Forall_insert; assumption | ].
      split; [rewrite length_insert; exact Hlen1 | ].
      assert (<[k := c']> caps1 !! k = Some c') as Hk'
        by (apply list_lookup_insert_eq; lia).
      rewrite (take_S_r _ _ _ Hc), (take_S_r _ _ _ Hk'), take_insert_ge by lia.
      split; [apply Forall2_app; [exact HQ1 | constructor; [exact Hq | constructor]] | ].
      split.
      + rewrite drop_insert_lt by lia.
        pose proof (drop_drop caps1 1 k) as E1. pose proof (drop_drop caps 1 k) as E2.
        rewrite Nat.add_comm in E1, E2. cbn [Nat.add] in E1, E2.
        rewrite <- E1, <- E2, Hd1. reflexivity.
      + rewrite flat_map_app. cbn [flat_map]. rewrite app_nil_r, Hf2, Hf1, <- app_assoc.
        reflexivity.
    - exists b, caps. cbn. rewrite app_nil_r. repeat split; auto. }
  rewrite length_seq in HQ, Hf. rewrite firstn_all in HQ. rewrite <- Hlen in HQ, Hf.
  rewrite firstn_all in HQ, Hf. exists b', caps'. auto.
Qed.

(** The phases of a build that returns normally, one after the other. *)
Lemma init_untouched v kw c :
  VertCap.init v 0 kw = Ok c → untouched c ∧ VertCap.input_edge_verts c = [].
Proof.
  unfold VertCap.init, VertCap.self_radius.
  destruct (kw_inside_radius kw), (kw_outside_radius kw); intros H; inversion H.
  repeat split.
Qed.

Lemma bind_modify {S B} (f : S → S) (k : unit → M S B) s : bind (modify f) k s = k tt (f s).
Proof. reflexivity. Qed.

Lemma create_vert_caps_ok b m kw cl w' :
  WireSkin.create_vert_caps 0 (mkWorld [b] m kw cl [] []) = (Ok tt, w') →
  ∃ caps, w' = mkWorld [b] m kw cl caps []
          ∧ length caps = length (vertices m)
          ∧ Forall (λ c, untouched c ∧ VertCap.input_edge_verts c = []) caps.
Proof.
  unfold WireSkin.create_vert_caps. rewrite bind_gets. unfold id. cbn [mesh kwargs]. intros H.
  pose (Inv := λ (k : nat) (w : World),
          ∃ caps, w = mkWorld [b] m kw cl caps [] ∧ length caps = k
                  ∧ Forall (λ c, untouched c ∧ VertCap.input_edge_verts c = []) caps).
  refine (for_each_ok_inv Inv _ _ _ _ w' _ H).
  - intros k v w1 w2 _ (caps & -> & Hlen & Hall) Hrun.
    apply bind_lift_ok in Hrun as (c & Hc & Hrun). apply init_untouched in Hc.
    inversion Hrun; subst. eexists. split; [reflexivity | ]. cbn.
    split; [rewrite length_app; cbn; lia | ].
    apply Forall_app. split; [exact Hall | constructor; [exact Hc | constructor]].
  - exists []. repeat split. constructor.
Qed.

Lemma add_edge_vert_ok e i co c b c' b' :
  VertCap.add_edge_vert e i co (c, b) = (Ok tt, (c', b')) →
  b' = b ∧ ∃ ev, c' = VertCap.set_input_edge_verts (VertCap.input_edge_verts c ++ [ev]) c.
Proof.
  unfold VertCap.add_edge_vert. rewrite bind_self. intros H.
  apply update_ok in H as [-> ->]. eauto.
Qed.

Lemma add_edges_ok m kw cl b caps w' :
  (∀ x y, (x, y) ∈ mesh_edges m → x ≠ y) →
  Forall (λ c, untouched c ∧ VertCap.input_edge_verts c = []) caps →
  WireSkin.add_edges_to_vert_caps (mkWorld [b] m kw cl caps []) = (Ok tt, w') →
  ∃ caps', w' = mkWorld [b] m kw cl caps' []
           ∧ length caps' = length caps
           ∧ Forall untouched caps'
           ∧ ∀ v c, caps' !! v = Some c → length (VertCap.input_edge_verts c) = degree m v.
Proof.
  intros Hloop Hall. unfold WireSkin.add_edges_to_vert_caps. rewrite bind_gets.
  unfold id. cbn [mesh]. intros H.
  pose (Inv := λ (k : nat) (w : World),
          ∃ caps', w = mkWorld [b] m kw cl caps' []
                   ∧ length caps' = length caps
                   ∧ Forall untouched caps'
                   ∧ ∀ v c, caps' !! v = Some c →
                       length (VertCap.input_edge_verts c)
                       = length (filter (λ ke : nat * (nat * nat), ke.2.1 = v ∨ ke.2.2 = v)
                                   (take k (imap pair (mesh_edges m))))).
  assert (Inv (length (imap pair (mesh_edges m))) w') as (caps' & -> & Hlen & Hu & Hdeg).
  { refine (for_each_ok_inv Inv _ _ _ _ w' _ H).
    - intros k [k' [x y]] w1 w2 Hk (caps1 & -> & Hlen1 & Hu1 & Hdeg1) Hrun.
      assert (k' = k ∧ mesh_edges m !! k = Some (x, y)) as [-> Hxy].
      { rewrite list_lookup_imap in Hk. destruct (mesh_edges m !! k) as [[x' y']|]; [ | discriminate].
        cbn in Hk. inversion Hk; subst. auto. }
      assert (x ≠ y) as Hne by (apply Hloop; eapply list_elem_of_lookup_2; exact Hxy).
      cbn [for_each fst snd] in Hrun.
      apply bind_ok in Hrun as ([] & w3 & H1 & Hrun).
      apply bind_lift_ok in H1 as (vy & _ & H1).
      apply with_cap_one in H1 as (cx & cx' & b1 & Hcx & H1 & ->);
        [ | eapply Forall_impl; [exact Hu1 | intros ? HH; apply HH]].
      apply add_edge_vert_ok in H1 as (-> & evx & ->).
      apply bind_ok in Hrun as ([] & w4 & H2 & Hrun).
      apply bind_lift_ok in H2 as (vx & _ & H2).
      assert (Forall untouched
                (<[x := VertCap.set_input_edge_verts (VertCap.input_edge_verts cx ++ [evx]) cx]>
                   caps1)) as Hu2.
      { apply Forall_insert; [exact Hu1 | ]. apply (proj1 (Forall_lookup _ _) Hu1 x cx Hcx). }
      apply with_cap_one in H2 as (cy & cy' & b2 & Hcy & H2 & ->);
        [ | eapply Forall_impl; [exact Hu2 | intros ? HH; apply HH]].
      apply add_edge_vert_ok in H2 as (-> & evy & ->).
      inversion Hrun; subst w2. clear Hrun.
      rewrite list_lookup_insert_ne in Hcy by exact Hne.
      eexists. split; [reflexivity | ]. split; [rewrite !length_insert; exact Hlen1 | ].
      split.
      { apply Forall_insert; [exact Hu2 | ]. apply (proj1 (Forall_lookup _ _) Hu1 y cy Hcy). }
      intros v c Hc. rewrite (take_S_r _ _ _ Hk), filter_app, length_app.
      apply list_lookup_insert_Some in Hc as [(<- & <- & Hlt)|(Hvy & Hc)].
      + cbn [VertCap.input_edge_verts VertCap.set_input_edge_verts].
        rewrite length_app, (Hdeg1 y cy Hcy). f_equal.
        rewrite filter_cons_True by (cbn; auto). reflexivity.
      + apply list_lookup_insert_Some in Hc as [(<- & <- & Hlt)|(Hvx & Hc)].
        * cbn [VertCap.input_edge_verts VertCap.set_input_edge_verts].
          rewrite length_app, (Hdeg1 x cx Hcx). f_equal.
          rewrite filter_cons_True by (cbn; auto). reflexivity.
        * rewrite (Hdeg1 v c Hc), filter_cons_False by (cbn; intros [?|?]; congruence).
          cbn. lia.
    - exists caps. split; [reflexivity | ]. split; [reflexivity | ]. split.
      + eapply Forall_impl; [exact Hall | intros ? HH; apply HH].
      + intros v c Hc. cbn. apply (proj1 (Forall_lookup _ _) Hall) in Hc as [_ ->]. reflexivity. }
  exists caps'. rewrite firstn_all in Hdeg. auto.
Qed.

Lemma poles_ok m kw cl pcs b caps w' :
  Forall untouched caps →
  WireSkin.create_vert_cap_poles (mkWorld [b] m kw cl caps pcs) = (Ok tt, w') →
  ∃ b' caps', w' = mkWorld [b'] m kw cl caps' pcs ∧ Forall2 poled caps caps'
              ∧ on_mesh_0 caps' ∧ BMesh.faces b' = BMesh.faces b.
Proof.
  intros Hu H.
  destruct (cap_phase_ok untouched poled (λ _, [])
              (λ i, with_cap i VertCap.create_pole_verts) m kw cl pcs) with (4 := H)
    as (b' & caps' & -> & HQ & H0 & Hf).
  - intros i bx capsx c wx H0 Hc (Hbm & Hp & Hn & Hps & Hm) Hrun.
    apply with_cap_one in Hrun as (c0 & c' & b' & Hc0 & Hrun & ->); [ | exact H0].
    rewrite Hc in Hc0. inversion Hc0; subst c0.
    apply create_pole_verts_ok in Hrun as (Hiev & Hbm' & Hps' & Hm' & Hf & Hshape).
    exists c', b'. split; [reflexivity | ]. split.
    + split; [exact Hiev | ]. split; [congruence | ]. split; [congruence | auto].
    + split; [congruence | ]. rewrite app_nil_r. exact Hf.
  - eapply Forall_impl; [exact Hu | intros ? HH; apply HH].
  - exact Hu.
  - exists b', caps'. rewrite flat_map_nil, app_nil_r in Hf by reflexivity. auto.
Qed.

Lemma profiles_ok atan2 m kw cl pcs b caps w' :
  on_mesh_0 caps →
  Forall (λ c, VertCap.profiles c = [] ∧ VertCap.edge_profile_map c = ∅) caps →
  WireSkin.create_vert_cap_profiles atan2 (mkWorld [b] m kw cl caps pcs) = (Ok tt, w') →
  ∃ b' caps', w' = mkWorld [b'] m kw cl caps' pcs ∧ Forall2 profiled caps caps'
              ∧ on_mesh_0 caps' ∧ BMesh.faces b' = BMesh.faces b.
Proof.
  intros H0 Hu H.
  destruct (cap_phase_ok (λ c, VertCap.profiles c = [] ∧ VertCap.edge_profile_map c = ∅)
              profiled (λ _, [])
              (λ i, bind (gets vert_caps)
                      (λ caps, with_cap i (VertCap.create_profiles atan2 caps)))
              m kw cl pcs) with (4 := H)
    as (b' & caps' & -> & HQ & H0' & Hf).
  - intros i bx capsx c wx H0x Hc (Hps & Hm) Hrun. rewrite bind_gets in Hrun.
    apply with_cap_one in Hrun as (c0 & c' & b' & Hc0 & Hrun & ->); [ | exact H0x].
    rewrite Hc in Hc0. inversion Hc0; subst c0.
    apply create_profiles_ok in Hrun as (Hp & Hn & Hbm & Hf & Hrest); [ | exact Hps | exact Hm].
    exists c', b'. split; [reflexivity | ]. split; [exact (conj Hp (conj Hn Hrest)) | ].
    split; [ | rewrite app_nil_r; exact Hf].
    rewrite Hbm. apply (proj1 (Forall_lookup _ _) H0x i c Hc).
  - exact H0.
  - exact Hu.
  - exists b', caps'. rewrite flat_map_nil, app_nil_r in Hf by reflexivity. auto.
Qed.

Lemma cap_faces_ok c b c1 b1 c' b' :
  ready c →
  VertCap.create_pole_faces (c, b) = (Ok tt, (c1, b1)) →
  VertCap.create_inter_profile_faces (c1, b1) = (Ok tt, (c', b')) →
  c1 = c ∧ faced c c' ∧ BMesh.faces b' = BMesh.faces b ++ intra_cap_faces c.
Proof.
  intros (Hps & Hle & Hge) HA HB.
  assert (length (VertCap.poles c) = Nat.min (length (VertCap.input_edge_verts c)) 2
          ∧ c1 = c
          ∧ BMesh.faces b1 = BMesh.faces b
              ++ flat_map (end_cap_faces (VertCap.poles c)) (VertCap.profiles c))
    as (Hlen & -> & Hf1).
  { destruct (VertCap.profiles c) as [|p ps] eqn:Hprof.
    - unfold VertCap.create_pole_faces in HA. rewrite bind_self, Hprof in HA.
      inversion HA; subst. cbn in Hps. rewrite <- Hps in *. cbn in *.
      rewrite app_nil_r. split; [lia | auto].
    - rewrite <- Hprof. apply create_pole_faces_ok in HA as (-> & Hneed & Hf).
      rewrite Hprof in Hneed. specialize (Hneed ltac:(discriminate)).
      assert (length (VertCap.poles c) = Nat.min (length (VertCap.input_edge_verts c)) 2) as Hl.
      { cbn in Hps.
        destruct (Nat.ltb_spec 1 (length (VertCap.input_edge_verts c))); [rewrite Hge; lia | lia]. }
      split; [exact Hl | ]. split; [reflexivity | ]. apply Hf. rewrite Hl.
      cbn in Hps.
      destruct (Nat.ltb_spec 1 (length (VertCap.input_edge_verts c))); lia. }
  apply create_inter_profile_faces_ok in HB as (Hce & Hf2); [ | exact Hlen].
  split; [reflexivity | ]. split; [exact (conj Hce Hlen) | ].
  unfold intra_cap_faces. rewrite Hf2, Hf1, <- app_assoc. reflexivity.
Qed.

Lemma intra_cap_faces_creased ce c :
  intra_cap_faces (VertCap.set_creased_edges ce c) = intra_cap_faces c.
Proof. reflexivity. Qed.

Lemma faces_ok m kw cl pcs b caps w' :
  on_mesh_0 caps → Forall ready caps →
  WireSkin.create_vert_cap_faces (mkWorld [b] m kw cl caps pcs) = (Ok tt, w') →
  ∃ b' caps', w' = mkWorld [b'] m kw cl caps' pcs ∧ Forall2 faced caps caps'
              ∧ on_mesh_0 caps'
              ∧ BMesh.faces b' = BMesh.faces b ++ flat_map intra_cap_faces caps'.
Proof.
  intros H0 Hr H.
  destruct (cap_phase_ok ready faced intra_cap_faces
              (λ i, bind (with_cap i VertCap.create_pole_faces)
                      (λ _, with_cap i VertCap.create_inter_profile_faces))
              m kw cl pcs) with (4 := H)
    as (b' & caps' & -> & HQ & H0' & Hf).
  - intros i bx capsx c wx H0x Hc Hready Hrun.
    apply bind_ok in Hrun as ([] & w1 & HA & HB).
    apply with_cap_one in HA as (c0 & c1 & b1 & Hc0 & HA & ->); [ | exact H0x].
    rewrite Hc in Hc0. inversion Hc0; subst c0.
    pose proof (proj1 (Forall_lookup _ _) H0x i c Hc) as Hbm. cbn in Hbm.
    assert (i < length capsx) as Hi by (eapply lookup_lt_Some; exact Hc).
    apply with_cap_one in HB as (c2 & c' & b' & Hc2 & HB & ->).
    2: { apply Forall_insert; [exact H0x | ].
         apply create_pole_faces_ok in HA as (-> & _). exact Hbm. }
    rewrite list_lookup_insert_eq in Hc2 by exact Hi. inversion Hc2; subst c2.
    destruct (cap_faces_ok c bx c1 b1 c' b' Hready HA HB) as (-> & Hfaced & Hf).
    exists c', b'. rewrite list_insert_insert_eq. split; [reflexivity | ].
    split; [exact Hfaced | ]. destruct Hfaced as [[ce ->] _].
    split; [exact Hbm | ]. rewrite intra_cap_faces_creased. exact Hf.
  - exact H0.
  - exact Hr.
  - exists b', caps'. auto.
Qed.

Lemma connect_profiles_ok m kw cl b caps w' :
  WireSkin.connect_profiles 0 (mkWorld [b] m kw cl caps []) = (Ok tt, w') →
  ∃ b' pcs walls,
    w' = mkWorld [b'] m kw cl caps pcs ∧ on_mesh_0_pcs pcs
    ∧ BMesh.faces b' = BMesh.faces b ++ walls
    ∧ length walls = 4 * length (mesh_edges m)
    ∧ ∀ j x y, mesh_edges m !! j = Some (x, y) →
        ∃ cx cy, caps !! x = Some cx ∧ caps !! y = Some cy
                 ∧ is_Some (VertCap.edge_profile_map cx !! j)
                 ∧ is_Some (VertCap.edge_profile_map cy !! j).
Proof.
  unfold WireSkin.connect_profiles. rewrite bind_gets. unfold id. cbn [mesh kwargs]. intros H.
  pose (Inv := λ (k : nat) (w : World),
          ∃ b' pcs walls,
            w = mkWorld [b'] m kw cl caps pcs ∧ on_mesh_0_pcs pcs
            ∧ BMesh.faces b' = BMesh.faces b ++ walls
            ∧ length walls = 4 * k
            ∧ ∀ j x y, j < k → mesh_edges m !! j = Some (x, y) →
                ∃ cx cy, caps !! x = Some cx ∧ caps !! y = Some cy
                         ∧ is_Some (VertCap.edge_profile_map cx !! j)
                         ∧ is_Some (VertCap.edge_profile_map cy !! j)).
  assert (Inv (length (imap pair (mesh_edges m))) w')
    as (b' & pcs & walls & -> & H0 & Hf & Hlen & Hkeys).
  { refine (for_each_ok_inv Inv _ _ _ _ w' _ H).
    - intros k [k' [x y]] w1 w2 Hk (b1 & pcs1 & walls1 & -> & H01 & Hf1 & Hlen1 & Hkeys1) Hrun.
      assert (k' = k ∧ mesh_edges m !! k = Some (x, y)) as [-> Hxy].
      { rewrite list_lookup_imap in Hk. destruct (mesh_edges m !! k) as [[x' y']|]; [ | discriminate].
        cbn in Hk. inversion Hk; subst. auto. }
      rewrite bind_gets, bind_modify, bind_gets in Hrun.
      cbn [profile_connectors vert_caps set_profile_connectors bmeshes mesh kwargs crease_layer]
        in Hrun.
      apply with_connector_one in Hrun as (pc & pc' & b2 & Hpc & Hrun & ->).
      2: { apply Forall_app. split; [exact H01 | constructor; [reflexivity | constructor]]. }
      rewrite list_lookup_middle in Hpc by reflexivity. inversion Hpc; subst pc. clear Hpc.
      apply join_profiles_ok in Hrun
        as (cx & cy & quads & Hcx & Hcy & Hex & Hey & Hf2 & Hq & Hbm).
      cbn in Hcx, Hcy, Hex, Hey, Hbm.
      exists b2, (<[length pcs1 := pc']> (pcs1 ++ [ProfileConnector.init k (x, y) 0 kw])),
        (walls1 ++ quads).
      split; [reflexivity | ]. split.
      { apply Forall_insert; [ | exact Hbm].
        apply Forall_app. split; [exact H01 | constructor; [reflexivity | constructor]]. }
      split; [rewrite Hf2, Hf1, <- app_assoc; reflexivity | ].
      split; [rewrite length_app; lia | ].
      intros j x' y' Hj Hj'. destruct (decide (j = k)) as [->|Hne].
      + rewrite Hxy in Hj'. inversion Hj'; subst. exists cx, cy. auto.
      + apply Hkeys1; [lia | exact Hj'].
    - exists b, [], []. rewrite app_nil_r. repeat split; auto. { constructor. }
      intros j x y Hj. lia. }
  exists b', pcs, walls. rewrite length_imap in Hlen, Hkeys.
  split; [reflexivity | ]. split; [exact H0 | ]. split; [exact Hf | ]. split; [exact Hlen | ].
  intros j x y Hj. apply Hkeys; [ | exact Hj]. eapply lookup_lt_Some. exact Hj.
Qed.

Lemma crease_edges_ok m kw cl b caps pcs w' :
  on_mesh_0 caps → on_mesh_0_pcs pcs →
  WireSkin.crease_edges (mkWorld [b] m kw cl caps pcs) = (Ok tt, w') →
  ∃ b', w' = mkWorld [b'] m kw cl caps pcs ∧ BMesh.faces b' = BMesh.faces b.
Proof.
  intros H0 H0p. unfold WireSkin.crease_edges. rewrite bind_gets. cbn [crease_layer].
  destruct cl as [l|]; intros H; [ | inversion H; subst; eauto].
  apply bind_ok in H as ([] & w1 & H1 & H).
  destruct (cap_phase_ok (λ _, True) eq (λ _, [])
              (λ i, with_cap i VertCap.crease_edges) m kw (Some l) pcs) with (4 := H1)
    as (b1 & caps1 & -> & HQ & H01 & Hf1).
  - intros i bx capsx c wx H0x Hc _ Hrun.
    apply with_cap_one in Hrun as (c0 & c' & b' & Hc0 & Hrun & ->); [ | exact H0x].
    rewrite Hc in Hc0. inversion Hc0; subst c0.
    apply cap_crease_edges_frame in Hrun as [-> Hf].
    exists c, b'. split; [reflexivity | ]. split; [reflexivity | ].
    split; [ | rewrite app_nil_r; exact Hf]. apply (proj1 (Forall_lookup _ _) H0x i c Hc).
  - exact H0.
  - apply Forall_forall. auto.
  - apply list_eq_Forall2 in HQ. subst caps1.
    rewrite flat_map_nil, app_nil_r in Hf1 by reflexivity.
    rewrite bind_gets in H. cbn [profile_connectors] in H.
    pose (Inv := λ (k : nat) (w : World),
            ∃ b', w = mkWorld [b'] m kw (Some l) caps pcs ∧ BMesh.faces b' = BMesh.faces b).
    refine (for_each_ok_inv Inv _ _ _ _ w' _ H).
    + intros k j w2 w3 _ (b2 & -> & Hf2) Hrun.
      apply with_connector_one in Hrun as (pc & pc' & b3 & Hpc & Hrun & ->); [ | exact H0p].
      apply connector_crease_edges_ok in Hrun as (-> & -> & _).
      exists (restamp 1 (somes (pc_creased_edges pc)) b2).
      rewrite list_insert_id by exact Hpc. split; [reflexivity | exact Hf2].
    + exists b1. auto.
Qed.

Lemma to_mesh_ok m kw cl b caps pcs me w' :
  (bind (on_bmesh 0 BMesh.to_mesh) (λ me, bind (on_bmesh 0 BMesh.free) (λ _, ret me)))
    (mkWorld [b] m kw cl caps pcs) = (Ok me, w') →
  me = b ∧ vert_caps w' = caps.
Proof.
  unfold on_bmesh, BMesh.to_mesh, BMesh.free, BMesh.check_valid.
  unfold bind, gets, modify, ret, raise.
  cbn. destruct (BMesh.is_valid b); cbn; intros H; inversion H; subst. auto.
Qed.

(** Counting the faces of a cap and the edges at a vertex. *)
Lemma flat_map_measure {A B} (size : list B → nat) (f : A → list B) (l : list A) (k : nat) :
  size [] = 0 → (∀ l1 l2, size (l1 ++ l2) = size l1 + size l2) →
  (∀ x, x ∈ l → size (f x) = k) → size (flat_map f l) = length l * k.
Proof.
  intros Hnil Happ. induction l as [|x l IH]; intros Hf; cbn; [exact Hnil | ].
  rewrite Happ, Hf by left. rewrite IH; [lia | ]. intros y Hy. apply Hf. right. exact Hy.
Qed.

Lemma count_sides_app n l1 l2 : count_sides n (l1 ++ l2) = count_sides n l1 + count_sides n l2.
Proof. unfold count_sides. rewrite filter_app, length_app. reflexivity. Qed.

Lemma intra_cap_faces_count c d :
  length (VertCap.poles c) = Nat.min d 2 → length (VertCap.profiles c) = d →
  length (intra_cap_faces c) = (if Nat.ltb d 2 then 4 * d else 2 * d + 3 * d)
  ∧ count_sides 3 (intra_cap_faces c) = 4 * d
  ∧ count_sides 4 (intra_cap_faces c) = (if Nat.ltb d 2 then 0 else d).
Proof.
  intros Hpoles Hprof. unfold intra_cap_faces.
  destruct (VertCap.poles c) as [|pole0 [|pole1 [|]]] eqn:Hp; cbn in Hpoles; try lia.
  - assert (d = 0) as -> by lia. destruct (VertCap.profiles c); [ | discriminate].
    repeat split.
  - assert (d = 1) as -> by lia. destruct (VertCap.profiles c) as [|p [|]]; try discriminate.
    repeat split.
  - assert (2 ≤ d) as Hd by lia. clear Hpoles.
    destruct (Nat.ltb_spec d 2) as [|_]; [lia | ].
    assert (∀ i, i ∈ seq 0 (length (VertCap.profiles c)) →
              ∃ this next,
                match VertCap.profiles c !! i,
                      VertCap.profiles c !! ((i + 1) mod length (VertCap.profiles c)) with
                | Some this, Some next => lens_faces [pole0; pole1] this next
                | _, _ => []
                end = lens_faces [pole0; pole1] this next) as Hlens.
    { intros i Hi. apply elem_of_seq in Hi as [_ Hi]. cbn in Hi.
      destruct (lookup_lt_is_Some_2 (VertCap.profiles c) i Hi) as [this ->].
      destruct (lookup_lt_is_Some_2 (VertCap.profiles c)
                  ((i + 1) mod length (VertCap.profiles c))) as [next ->].
      - apply Nat.mod_upper_bound. lia.
      - eauto. }
    split; [ | split].
    + rewrite length_app.
      rewrite (flat_map_measure length _ _ 2); [ | reflexivity | apply length_app | reflexivity].
      rewrite (flat_map_measure length _ _ 3); [ | reflexivity | apply length_app | ].
      * rewrite length_seq, Hprof. lia.
      * intros i Hi. destruct (Hlens i Hi) as (this & next & ->). reflexivity.
    + rewrite count_sides_app.
      rewrite (flat_map_measure (count_sides 3) _ _ 2);
        [ | reflexivity | apply count_sides_app | reflexivity].
      rewrite (flat_map_measure (count_sides 3) _ _ 2); [ | reflexivity | apply count_sides_app | ].
      * rewrite length_seq, Hprof. lia.
      * intros i Hi. destruct (Hlens i Hi) as (this & next & ->). reflexivity.
    + rewrite count_sides_app.
      rewrite (flat_map_measure (count_sides 4) _ _ 0);
        [ | reflexivity | apply count_sides_app | reflexivity].
      rewrite (flat_map_measure (count_sides 4) _ _ 1); [ | reflexivity | apply count_sides_app | ].
      * rewrite length_seq, Hprof. lia.
      * intros i Hi. destruct (Hlens i Hi) as (this & next & ->). reflexivity.
Qed.

Lemma incident_edges_NoDup m v : NoDup (map fst (incident_edges m v)).
Proof.
  unfold incident_edges.
  apply (sublist_NoDup _ (map fst (imap pair (mesh_edges m)))).
  - assert (map fst (imap pair (mesh_edges m)) = seq 0 (length (mesh_edges m))) as ->.
    { apply list_eq. intros i. change (map fst ?l) with (fst <$> l).
      rewrite list_lookup_fmap, list_lookup_imap.
      destruct (mesh_edges m !! i) as [e|] eqn:He; cbn.
      - symmetry. apply lookup_seq. split; [reflexivity | eapply lookup_lt_Some; exact He].
      - symmetry. apply lookup_ge_None. rewrite length_seq. apply lookup_ge_None. exact He. }
    apply NoDup_seq.
  - change (map fst ?l) with (fst <$> l). apply fmap_sublist. apply sublist_filter.
Qed.

Lemma incident_edges_elem m v j :
  j ∈ map fst (incident_edges m v) →
  ∃ x y, mesh_edges m !! j = Some (x, y) ∧ (x = v ∨ y = v).
Proof.
  unfold incident_edges. change (map fst ?l) with (fst <$> l).
  intros H. apply list_elem_of_fmap in H as ([j' [x y]] & -> & H).
  apply list_elem_of_filter in H as [Hv H]. cbn in *.
  apply list_elem_of_lookup in H as [i Hi]. rewrite list_lookup_imap in Hi.
  destruct (mesh_edges m !! i) as [e|] eqn:He; [ | discriminate]. cbn in Hi.
  inversion Hi; subst. eauto.
Qed.

Lemma ready_of c2 c3 c4 : untouched c2 → poled c2 c3 → profiled c3 c4 → ready c4.
Proof.
  intros _ (Hiev & _ & _ & Hshape) (Hp & Hn & Hle & Hlt & Hge & Hps & _).
  rewrite Hiev in *. unfold ready. rewrite Hp. split; [exact Hps | ].
  set (d := length (VertCap.input_edge_verts c2)) in *.
  set (n := length (VertCap.input_edge_verts c4)) in *.
  destruct (Nat.lt_ge_cases d 2) as [Hd|Hd].
  - specialize (Hlt Hd). destruct Hshape as [[_ ->]|(_ & Hd0 & Hl)]; cbn; [lia | ].
    rewrite Hl. destruct (Nat.ltb_spec 1 d); lia.
  - destruct (Hge Hd) as [Hn2 [nv Hnv]].
    destruct Hshape as [[Hnone _]|(_ & Hd0 & Hl)]; [congruence | ].
    rewrite Hl. destruct (Nat.ltb_spec 1 d); lia.
Qed.

Lemma prepared_init m kw :
  ∃ b0 cl, prepared (WireSkin.init m kw) = mkWorld [b0] m kw cl [] [] ∧ BMesh.faces b0 = [].
Proof.
  unfold prepared, WireSkin.init. cbn. destruct (kw_crease kw) as [[x|]|]; eauto.
Qed.

(** C1.  In a build of a new [WireSkin] that returns normally, on a wireframe
    without an edge from a vertex to itself: there is one cap per vertex; the
    faces of the mesh are the intra-cap faces of the caps, in the order of
    the vertices, followed by four faces per edge; and the cap of a vertex of
    degree [d] has [min d 2] poles (none, one, two), [d] profiles, and [4 * d]
    intra-cap faces when [d < 2] (four triangles for a leaf, nothing for an
    isolated vertex), [2 * d + 3 * d] otherwise, of which [4 * d] are
    triangles and [d] are quads. *)
Theorem per_degree_counts (atan2 : float → float → float) (m : Mesh) (kw : Kwargs)
    (me : BMesh.t) (w' : World) :
  (∀ x y, (x, y) ∈ mesh_edges m → x ≠ y) →
  WireSkin.create_mesh atan2 (WireSkin.init m kw) = (Ok me, w') →
  length (vert_caps w') = length (vertices m)
  ∧ (∃ walls, BMesh.faces me = flat_map intra_cap_faces (vert_caps w') ++ walls
              ∧ length walls = 4 * length (mesh_edges m))
  ∧ ∀ v c, vert_caps w' !! v = Some c →
      let d := degree m v in
      length (VertCap.poles c) = Nat.min d 2
      ∧ length (VertCap.profiles c) = d
      ∧ length (intra_cap_faces c) = (if Nat.ltb d 2 then 4 * d else 2 * d + 3 * d)
      ∧ count_sides 3 (intra_cap_faces c) = 4 * d
      ∧ count_sides 4 (intra_cap_faces c) = (if Nat.ltb d 2 then 0 else d).
Proof.
  intros Hloop H. rewrite create_mesh_unfold in H.
  change (length (bmeshes (WireSkin.init m kw))) with 0 in H.
  destruct (prepared_init m kw) as (b0 & cl & Hprep & Hf0). rewrite Hprep in H. clear Hprep.
  unfold phases in H.
  apply bind_ok in H as ([] & w1 & H1 & H).
  apply create_vert_caps_ok in H1 as (caps1 & -> & Hlen1 & Hall1).
  apply bind_ok in H as ([] & w2 & H2 & H).
  apply add_edges_ok in H2 as (caps2 & -> & Hlen2 & Hu2 & Hdeg); [ | exact Hloop | exact Hall1].
  apply bind_ok in H as ([] & w3 & H3 & H).
  apply poles_ok in H3 as (b3 & caps3 & -> & HQ3 & H03 & Hf3); [ | exact Hu2].
  apply bind_ok in H as ([] & w4 & H4 & H).
  apply profiles_ok in H4 as (b4 & caps4 & -> & HQ4 & H04 & Hf4); [ | exact H03 | ].
  2: { apply Forall_lookup. intros i c3 Hc3.
       destruct (Forall2_lookup_r _ _ _ _ _ HQ3 Hc3) as (c2 & _ & (_ & Hp & Hm & _)). auto. }
  apply bind_ok in H as ([] & w5 & H5 & H).
  apply faces_ok in H5 as (b5 & caps5 & -> & HQ5 & H05 & Hf5); [ | exact H04 | ].
  2: { apply Forall_lookup. intros i c4 Hc4.
       destruct (Forall2_lookup_r _ _ _ _ _ HQ4 Hc4) as (c3 & Hc3 & Hprof).
       destruct (Forall2_lookup_r _ _ _ _ _ HQ3 Hc3) as (c2 & Hc2 & Hpoled).
       apply (ready_of c2 c3 c4); [ | exact Hpoled | exact Hprof].
       apply (proj1 (Forall_lookup _ _) Hu2 i c2 Hc2). }
  apply bind_ok in H as ([] & w6 & H6 & H).
  apply connect_profiles_ok in H6 as (b6 & pcs & walls & -> & H0p & Hf6 & Hwalls & Hkeys).
  apply bind_ok in H as ([] & w7 & H7 & H).
  apply crease_edges_ok in H7 as (b7 & -> & Hf7); [ | exact H05 | exact H0p].
  apply to_mesh_ok in H as [-> Hcaps]. rewrite Hcaps.
  split.
  { rewrite <- (Forall2_length _ _ _ HQ5), <- (Forall2_length _ _ _ HQ4),
      <- (Forall2_length _ _ _ HQ3). congruence. }
  split.
  { exists walls. split; [ | exact Hwalls].
    rewrite Hf7, Hf6, Hf5, Hf4, Hf3, Hf0. reflexivity. }
  intros v c5 Hc5 d.
  destruct (Forall2_lookup_r _ _ _ _ _ HQ5 Hc5) as (c4 & Hc4 & ([ce Hce] & Hpoles)).
  destruct (Forall2_lookup_r _ _ _ _ _ HQ4 Hc4) as (c3 & Hc3 & Hprof).
  destruct (Forall2_lookup_r _ _ _ _ _ HQ3 Hc3) as (c2 & Hc2 & Hpoled).
  destruct Hprof as (_ & _ & Hle & _ & _ & Hps & Hmap).
  destruct Hpoled as (Hiev & _). rewrite Hiev, (Hdeg v c2 Hc2) in Hle. fold d in Hle.
  assert (d ≤ length (VertCap.input_edge_verts c4)) as Hge.
  { unfold d, degree. rewrite <- (length_map fst), <- (length_map ev_e (VertCap.input_edge_verts c4)).
    apply submseteq_length, NoDup_submseteq; [apply incident_edges_NoDup | ].
    intros j Hj. apply incident_edges_elem in Hj as (x & y & Hxy & Hv).
    destruct (Hkeys j x y Hxy) as (cx & cy & Hcx & Hcy & Hex & Hey).
    apply Hmap. destruct Hv as [->| ->].
    - rewrite Hc5 in Hcx. inversion Hcx; subst cx. rewrite Hce in Hex. exact Hex.
    - rewrite Hc5 in Hcy. inversion Hcy; subst cy. rewrite Hce in Hey. exact Hey. }
  assert (length (VertCap.input_edge_verts c4) = d) as Hn by lia.
  rewrite Hn in *.
  assert (length (VertCap.poles c5) = Nat.min d 2) as Hp5 by (rewrite Hce; exact Hpoles).
  assert (length (VertCap.profiles c5) = d) as Hps5 by (rewrite Hce; exact Hps).
  split; [exact Hp5 | ]. split; [exact Hps5 | ].
  apply intra_cap_faces_count; assumption.
Qed.

Lemma per_degree_counts_witness :
  (∀ x y, (x, y) ∈ mesh_edges Examples.mesh_corner → x ≠ y)
  ∧ WireSkin.create_mesh Atan2.atan2 (WireSkin.init Examples.mesh_corner Examples.kw_full)
    = (Ok Examples.corner_skin, Examples.corner_run.2)
  ∧ (degree Examples.mesh_corner <$> [0; 1; 2]) = [1; 2; 1]
  ∧ length (BMesh.faces Examples.corner_skin) = 4 + 10 + 4 + 4 * 2
  ∧ ∀ v c, vert_caps Examples.corner_run.2 !! v = Some c →
      let d := degree Examples.mesh_corner v in
      length (VertCap.poles c) = Nat.min d 2
      ∧ length (VertCap.profiles c) = d
      ∧ length (intra_cap_faces c) = (if Nat.ltb d 2 then 4 * d else 2 * d + 3 * d).
Proof.
  assert (Hloop : ∀ x y, (x, y) ∈ mesh_edges Examples.mesh_corner → x ≠ y).
  { intros x y Hxy. cbn in Hxy. apply elem_of_cons in Hxy as [Hxy|Hxy].
    - inversion Hxy; subst. lia.
    - apply list_elem_of_singleton in Hxy. inversion Hxy; subst. lia. }
  assert (Hrun : WireSkin.create_mesh Atan2.atan2
                   (WireSkin.init Examples.mesh_corner Examples.kw_full)
                 = (Ok Examples.corner_skin, Examples.corner_run.2))
    by (vm_compute; reflexivity).
  split; [exact Hloop | ]. split; [exact Hrun | ].
  split; [vm_compute; reflexivity | ]. split; [vm_compute; reflexivity | ].
  destruct (per_degree_counts Atan2.atan2 _ _ _ _ Hloop Hrun) as (_ & _ & Hv).
  intros v c Hc d. destruct (Hv v c Hc) as (H1 & H2 & H3 & _).
  split; [exact H1 | ]. split; [exact H2 | exact H3].
Defined.

(** ** More about the methods of a cap *)

Lemma verts_new_inv p b v b' :
  BMesh.verts_new p b = (Ok v, b') →
  BMesh.is_valid b = true
  ∧ v = BMesh.mkVert (length (BMesh.verts b)) p
  ∧ b' = BMesh.mk true (BMesh.verts b ++ [v]) (BMesh.edges b) (BMesh.faces b)
           (BMesh.has_crease_layer b).
Proof.
  unfold BMesh.verts_new. unfold_py. destruct (BMesh.is_valid b) eqn:Hv; intros H; inversion H.
  subst. cbn. rewrite Hv. auto.
Qed.

Lemma create_profile_inv ev o c b c' b' :
  VertCap.create_profile ev o (c, b) = (Ok tt, (c', b')) →
  ∃ p, c' = VertCap.set_profiles (VertCap.profiles c ++ [p])
              (<[ev_e ev := p]> (VertCap.edge_profile_map c)) c
       ∧ BMesh.verts b' = BMesh.verts b ++ profile_verts p
       ∧ map BMesh.vid (profile_verts p) = seq (length (BMesh.verts b)) 4
       ∧ BMesh.faces b' = BMesh.faces b ∧ BMesh.edges b' = BMesh.edges b.
Proof.
  unfold VertCap.create_profile. rewrite bind_self. intros H.
  apply bind_lift_ok in H as (dist & _ & H).
  apply bind_ok in H as (vpole & s1 & H1 & H).
  assert (s1 = (c, b)) as ->.
  { destruct (PrimFloat.ltb _ _).
    - apply bind_lift_ok in H1 as (? & _ & H1). apply bind_lift_ok in H1 as (? & _ & H1).
      apply bind_lift_ok in H1 as (? & _ & H1). inversion H1; reflexivity.
    - inversion H1; reflexivity. }
  clear H1.
  apply bind_lift_ok in H as (vp & _ & H).
  apply bind_on_bm_ok in H as (v1 & b1 & Hb1 & H). apply verts_new_inv in Hb1 as (_ & Hv1 & ->).
  apply bind_on_bm_ok in H as (v2 & b2 & Hb2 & H). apply verts_new_inv in Hb2 as (_ & Hv2 & ->).
  apply bind_on_bm_ok in H as (v3 & b3 & Hb3 & H). apply verts_new_inv in Hb3 as (_ & Hv3 & ->).
  apply bind_on_bm_ok in H as (v4 & b4 & Hb4 & H). apply verts_new_inv in Hb4 as (_ & Hv4 & ->).
  apply update_ok in H as [-> ->]. cbn [BMesh.verts BMesh.faces BMesh.edges] in *.
  exists (mkProfile v1 v2 v3 v4). split; [reflexivity | ].
  split; [unfold profile_verts; cbn; rewrite <- !app_assoc; reflexivity | ].
  split; [ | split; reflexivity].
  unfold profile_verts. cbn [pv1 pv2 pv3 pv4 map]. rewrite Hv4, Hv3, Hv2, Hv1.
  cbn [BMesh.vid]. rewrite !length_app. cbn [length seq]. repeat f_equal; lia.
Qed.

(** X1.  A call of [create_profile] that returns normally has made four
    vertices, the last four of the mesh, with the next four free ids in the
    order [v1], [v2], [v3], [v4]; they are the profile appended to
    [profiles], and [get_edge_profile] finds this profile under the edge of
    the call and answers as before for every other edge. *)
Theorem profile_round_trip (ev : EdgeVert) (o : option Vec.t) (c c' : VertCap.t)
    (b b' : BMesh.t) :
  VertCap.create_profile ev o (c, b) = (Ok tt, (c', b')) →
  ∃ p, VertCap.get_edge_profile c' (ev_e ev) = Ok p
       ∧ VertCap.profiles c' = VertCap.profiles c ++ [p]
       ∧ (∀ e, e ≠ ev_e ev → VertCap.get_edge_profile c' e = VertCap.get_edge_profile c e)
       ∧ BMesh.verts b' = BMesh.verts b ++ profile_verts p
       ∧ map BMesh.vid (profile_verts p) = seq (length (BMesh.verts b)) 4
       ∧ BMesh.faces b' = BMesh.faces b ∧ BMesh.edges b' = BMesh.edges b.
Proof.
  intros H. apply create_profile_inv in H as (p & -> & Hv & Hid & Hf & He).
  exists p. unfold VertCap.get_edge_profile.
  cbn [VertCap.edge_profile_map VertCap.profiles VertCap.set_profiles].
  split; [rewrite lookup_insert_eq; reflexivity | ]. split; [reflexivity | ].
  split; [intros e Hne; rewrite lookup_insert_ne by congruence; reflexivity | auto].
Qed.

Lemma profile_round_trip_witness :
  VertCap.create_profile Examples.leaf_edge (Some (Vec.mk 1 0 0)) (Examples.leaf_poled.1, Examples.leaf_poled.2)
  = (Ok tt, (Examples.leaf_profiled.1, Examples.leaf_profiled.2))
  ∧ ∃ p, VertCap.get_edge_profile Examples.leaf_profiled.1 0 = Ok p
         ∧ VertCap.profiles Examples.leaf_profiled.1 = VertCap.profiles Examples.leaf_poled.1 ++ [p]
         ∧ BMesh.verts Examples.leaf_profiled.2 = BMesh.verts Examples.leaf_poled.2 ++ profile_verts p
         ∧ map BMesh.vid (profile_verts p) = [1; 2; 3; 4].
Proof.
  assert (Hrun : VertCap.create_profile Examples.leaf_edge (Some (Vec.mk 1 0 0))
                   (Examples.leaf_poled.1, Examples.leaf_poled.2)
                 = (Ok tt, (Examples.leaf_profiled.1, Examples.leaf_profiled.2)))
    by (vm_compute; reflexivity).
  split; [exact Hrun | ].
  destruct (profile_round_trip _ _ _ _ _ _ Hrun) as (p & H1 & H2 & _ & H4 & H5 & _).
  exists p. split; [exact H1 | ]. split; [exact H2 | ]. split; [exact H4 | exact H5].
Defined.

(** ** The edges of the mesh *)

Lemma joins_sym a b e : BMesh.joins a b e = BMesh.joins b a e.
Proof. unfold BMesh.joins. apply orb_comm. Qed.

Lemma find_edge_sym es a b i : BMesh.find_edge es a b i = BMesh.find_edge es b a i.
Proof.
  revert i. induction es as [|e es IH]; intros i; cbn; [reflexivity | ].
  rewrite (joins_sym a b e), IH. reflexivity.
Qed.

Lemma find_edge_lt es a b i k :
  BMesh.find_edge es a b i = Some k → i ≤ k < i + length es.
Proof.
  revert i. induction es as [|e es IH]; intros i; cbn; [discriminate | ].
  destruct (BMesh.joins a b e).
  - intros H. inversion H. lia.
  - intros H. apply IH in H. lia.
Qed.

Lemma find_edge_app es es' a b i k :
  BMesh.find_edge es a b i = Some k → BMesh.find_edge (es ++ es') a b i = Some k.
Proof.
  revert i. induction es as [|e es IH]; intros i; cbn; [discriminate | ].
  destruct (BMesh.joins a b e); [auto | apply IH].
Qed.

Lemma find_edge_new es a b i :
  is_Some (BMesh.find_edge (es ++ [BMesh.mkEdge a b None]) a b i).
Proof.
  revert i. induction es as [|e es IH]; intros i; cbn.
  - unfold BMesh.joins. cbn. rewrite !Nat.eqb_refl. cbn. eauto.
  - destruct (BMesh.joins a b e); [eauto | apply IH].
Qed.

Lemma ensure_edge_found es a b : is_Some (BMesh.find_edge (BMesh.ensure_edge es (a, b)) a b 0).
Proof.
  unfold BMesh.ensure_edge. cbn [fst snd].
  destruct (BMesh.find_edge es a b 0) eqn:H; [rewrite H; eauto | apply find_edge_new].
Qed.

Lemma ensure_edge_keeps es xy a b k :
  BMesh.find_edge es a b 0 = Some k → BMesh.find_edge (BMesh.ensure_edge es xy) a b 0 = Some k.
Proof.
  unfold BMesh.ensure_edge. destruct (BMesh.find_edge es xy.1 xy.2 0); [auto | ].
  apply find_edge_app.
Qed.

Lemma ensure_edges_keep l es a b k :
  BMesh.find_edge es a b 0 = Some k →
  BMesh.find_edge (foldl BMesh.ensure_edge es l) a b 0 = Some k.
Proof.
  revert es. induction l as [|xy l IH]; intros es H; cbn; [exact H | ].
  apply IH, ensure_edge_keeps, H.
Qed.

Lemma ensure_edges_found l es a b :
  (a, b) ∈ l ∨ (b, a) ∈ l → is_Some (BMesh.find_edge (foldl BMesh.ensure_edge es l) a b 0).
Proof.
  revert es. induction l as [|xy l IH]; intros es H.
  - destruct H as [H|H]; apply elem_of_nil in H; contradiction.
  - cbn [foldl].
    assert (xy = (a, b) ∨ xy = (b, a) ∨ ((a, b) ∈ l ∨ (b, a) ∈ l)) as [->|[->|Hl]].
    { destruct H as [H|H]; apply elem_of_cons in H as [H|H]; auto. }
    + destruct (ensure_edge_found es a b) as [k Hk].
      exists k. apply ensure_edges_keep. exact Hk.
    + destruct (ensure_edge_found es b a) as [k Hk].
      exists k. apply ensure_edges_keep. rewrite find_edge_sym. exact Hk.
    + apply IH. exact Hl.
Qed.

Lemma ensure_edge_length es xy : length es ≤ length (BMesh.ensure_edge es xy).
Proof.
  unfold BMesh.ensure_edge. destruct (BMesh.find_edge _ _ _ _); [lia | ].
  rewrite length_app. lia.
Qed.

Lemma ensure_edges_length l es : length es ≤ length (foldl BMesh.ensure_edge es l).
Proof.
  revert es. induction l as [|xy l IH]; intros es; cbn; [lia | ].
  etrans; [apply ensure_edge_length | apply IH].
Qed.

Lemma faces_new_inv vs b b' :
  BMesh.faces_new vs b = (Ok tt, b') →
  BMesh.is_valid b = true
  ∧ b' = BMesh.mk true (BMesh.verts b) (foldl BMesh.ensure_edge (BMesh.edges b) (BMesh.sides vs))
           (BMesh.faces b ++ [vs]) (BMesh.has_crease_layer b).
Proof.
  unfold BMesh.faces_new. unfold_py. destruct (BMesh.is_valid b) eqn:Hv; intros H; inversion H.
  subst. cbn. rewrite Hv. auto.
Qed.

Lemma edges_get_inv x y b e b' :
  BMesh.edges_get x y b = (Ok e, b') →
  b' = b ∧ e = BMesh.find_edge (BMesh.edges b) (BMesh.vid x) (BMesh.vid y) 0.
Proof.
  unfold BMesh.edges_get. unfold_py. destruct (BMesh.is_valid b); intros H; inversion H; auto.
Qed.

Lemma names_edge_mono b b' e :
  length (BMesh.edges b) ≤ length (BMesh.edges b') → names_edge b e → names_edge b' e.
Proof. intros Hle (k & -> & Hk). exists k. split; [reflexivity | lia]. Qed.

Lemma found_names_edge b x y :
  is_Some (BMesh.find_edge (BMesh.edges b) x y 0) →
  names_edge b (BMesh.find_edge (BMesh.edges b) x y 0).
Proof.
  intros [k Hk]. exists k. split; [exact Hk | ]. apply find_edge_lt in Hk. lia.
Qed.

(** Stamping a cap's creases on a live mesh, every entry naming an edge,
    returns normally. *)
Lemma cap_crease_edges_run c value :
  VertCap.crease c = Some value →
  Forall is_Some (VertCap.creased_edges c) →
  ∀ b, (VertCap.creased_edges c ≠ [] → BMesh.is_valid b = true) →
       (VertCap.crease_edges (c, b)).1 = Ok tt.
Proof.
  intros Hcr. unfold VertCap.crease_edges. intros Hall b. rewrite bind_self, Hcr.
  revert b. induction Hall as [|e l [k ->] Hall IH]; intros b Hv; [reflexivity | ].
  cbn [for_each]. specialize (Hv ltac:(discriminate)).
  unfold bind at 1. unfold VertCap.on_bm, zoom, BMesh.set_crease, BMesh.check_valid.
  unfold bind, gets, modify, ret, raise. cbn [fst snd]. rewrite Hv.
  apply IH. intros _. exact Hv.
Qed.

(** X2.  With a crease configured, [create_inter_profile_faces], when it
    returns normally, has recorded two edges per profile (none for a cap with
    fewer than two registered edges), and every one of them is an edge of the
    mesh, never [None]: the faces made just before contain them.  So stamping
    the creases of a cap that had recorded nothing before returns normally. *)
Theorem cap_creases_exist (c c' : VertCap.t) (b b' : BMesh.t) (value : float) :
  VertCap.crease c = Some value →
  VertCap.create_inter_profile_faces (c, b) = (Ok tt, (c', b')) →
  ∃ new, VertCap.creased_edges c' = VertCap.creased_edges c ++ new
         ∧ length new = (if Nat.ltb (length (VertCap.input_edge_verts c)) 2 then 0
                         else 2 * length (VertCap.profiles c))
         ∧ Forall (names_edge b') new
         ∧ (VertCap.creased_edges c = [] → (VertCap.crease_edges (c', b')).1 = Ok tt).
Proof.
  intros Hcr. unfold VertCap.create_inter_profile_faces. rewrite bind_self. intros H.
  assert (∃ new, c' = VertCap.set_creased_edges (VertCap.creased_edges c ++ new) c
                 ∧ length new = (if Nat.ltb (length (VertCap.input_edge_verts c)) 2 then 0
                                 else 2 * length (VertCap.profiles c))
                 ∧ Forall (names_edge b') new
                 ∧ (new ≠ [] → BMesh.is_valid b' = true))
    as (new & -> & Hlen & Hall & Hv).
  { destruct (Nat.ltb (length (VertCap.input_edge_verts c)) 2).
    { inversion H; subst. exists []. rewrite app_nil_r. split; [destruct c'; reflexivity | ].
      split; [reflexivity | ]. split; [constructor | congruence]. }
    pose (Inv := λ (k : nat) (s : VertCap.St),
            ∃ new, s.1 = VertCap.set_creased_edges (VertCap.creased_edges c ++ new) c
                   ∧ length new = 2 * k
                   ∧ Forall (names_edge s.2) new
                   ∧ (new ≠ [] → BMesh.is_valid s.2 = true)).
    assert (Inv (length (seq 0 (length (VertCap.profiles c)))) (c', b')) as HI;
      [ | unfold Inv in HI; rewrite length_seq in HI; exact HI].
    refine (for_each_ok_inv Inv _ _ _ (c, b) (c', b') _ H).
    - intros k i [cx bx] [cy by_] _ (new & Hcx & Hlen & Hall & _) Hrun. cbn [fst snd] in *.
      subst cx.
      apply bind_lift_ok in Hrun as (this & _ & Hrun).
      apply bind_lift_ok in Hrun as (next & _ & Hrun).
      apply bind_lift_ok in Hrun as (q0 & _ & Hrun).
      apply bind_on_bm_ok in Hrun as ([] & b1 & Hb1 & Hrun). apply faces_new_inv in Hb1 as [_ ->].
      apply bind_lift_ok in Hrun as (q1 & _ & Hrun).
      apply bind_on_bm_ok in Hrun as ([] & b2 & Hb2 & Hrun). apply faces_new_inv in Hb2 as [_ ->].
      apply bind_on_bm_ok in Hrun as ([] & b3 & Hb3 & Hrun). apply faces_new_inv in Hb3 as [_ Hb3].
      cbn [BMesh.verts BMesh.edges BMesh.faces BMesh.has_crease_layer] in Hb3.
      rewrite Hcr in Hrun.
      apply bind_on_bm_ok in Hrun as (e1 & b4 & He1 & Hrun). apply edges_get_inv in He1 as [-> He1].
      rewrite bind_update in Hrun.
      apply bind_on_bm_ok in Hrun as (e2 & b5 & He2 & Hrun). apply edges_get_inv in He2 as [-> He2].
      apply update_ok in Hrun as [-> ->].
      assert (length (BMesh.edges bx) ≤ length (BMesh.edges b3)) as Hle.
      { subst b3. cbn [BMesh.edges].
        etrans; [ | apply ensure_edges_length]. etrans; [ | apply ensure_edges_length].
        apply ensure_edges_length. }
      assert (names_edge b3 e1) as Hn1.
      { subst e1. apply found_names_edge. subst b3. cbn [BMesh.edges].
        apply ensure_edges_found. cbn. rewrite !elem_of_cons. auto 10. }
      assert (names_edge b3 e2) as Hn2.
      { subst e2. apply found_names_edge. subst b3. cbn [BMesh.edges].
        apply ensure_edges_found. cbn. rewrite !elem_of_cons. auto 10. }
      exists (new ++ [e1; e2]). cbn [fst snd]. split.
      + cbn. rewrite <- !app_assoc. reflexivity.
      + split; [rewrite length_app; cbn; lia | ]. split.
        * apply Forall_app. split.
          -- eapply Forall_impl; [exact Hall | ]. intros e. apply names_edge_mono. exact Hle.
          -- repeat constructor; assumption.
        * intros _. subst b3. reflexivity.
    - exists []. cbn [fst snd]. rewrite app_nil_r. split; [destruct c; reflexivity | ].
      split; [reflexivity | ]. split; [constructor | congruence]. }
  exists new. cbn [VertCap.creased_edges VertCap.set_creased_edges].
  split; [reflexivity | ]. split; [exact Hlen | ]. split; [exact Hall | ].
  intros Hnil. rewrite Hnil. cbn [app].
  apply (cap_crease_edges_run _ value); [exact Hcr | | ].
  - cbn. eapply Forall_impl; [exact Hall | ]. intros e (k & -> & _). eauto.
  - cbn. exact Hv.
Qed.

Lemma cap_creases_exist_witness :
  VertCap.crease Examples.corner_mid.1 = Some 0.5%float
  ∧ VertCap.create_inter_profile_faces (Examples.corner_mid.1, Examples.corner_mid.2)
    = (Ok tt, (Examples.corner_mid_faced.1, Examples.corner_mid_faced.2))
  ∧ ∃ new, VertCap.creased_edges Examples.corner_mid_faced.1 = new
           ∧ length new = 4
           ∧ Forall (names_edge Examples.corner_mid_faced.2) new
           ∧ (VertCap.crease_edges (Examples.corner_mid_faced.1, Examples.corner_mid_faced.2)).1 = Ok tt.
Proof.
  assert (Hc : VertCap.crease Examples.corner_mid.1 = Some 0.5%float) by reflexivity.
  assert (Hrun : VertCap.create_inter_profile_faces (Examples.corner_mid.1, Examples.corner_mid.2)
                 = (Ok tt, (Examples.corner_mid_faced.1, Examples.corner_mid_faced.2)))
    by (vm_compute; reflexivity).
  split; [exact Hc | ]. split; [exact Hrun | ].
  destruct (cap_creases_exist _ _ _ _ _ Hc Hrun) as (new & H1 & H2 & H3 & H4).
  exists new. split; [exact H1 | ]. split; [exact H2 | ]. split; [exact H3 | ].
  apply H4. reflexivity.
Defined.

Lemma connector_crease_edges_run pc :
  Forall is_Some (pc_creased_edges pc) →
  ∀ b, (pc_creased_edges pc ≠ [] → BMesh.is_valid b = true) →
       (ProfileConnector.crease_edges (pc, b)).1 = Ok tt.
Proof.
  unfold ProfileConnector.crease_edges, ProfileConnector.self. intros Hall b.
  rewrite bind_gets. cbn [fst].
  revert b. induction Hall as [|e l [k ->] Hall IH]; intros b Hv; [reflexivity | ].
  cbn [for_each]. specialize (Hv ltac:(discriminate)).
  unfold bind at 1. unfold ProfileConnector.on_bm, zoom, BMesh.set_crease, BMesh.check_valid.
  unfold bind, gets, modify, ret, raise. cbn [fst snd]. rewrite Hv.
  apply IH. intros _. exact Hv.
Qed.

(** X3.  With a crease configured, [join_profiles], when it returns normally,
    has recorded four edges, one per quad, and every one of them is an edge
    of the mesh, never [None].  So stamping the creases of a connector that
    had recorded nothing before returns normally. *)
Theorem connector_creases_exist (caps : list VertCap.t) (pc pc' : Connector)
    (b b' : BMesh.t) (value : float) :
  pc_crease pc = Some value →
  ProfileConnector.join_profiles caps (pc, b) = (Ok tt, (pc', b')) →
  ∃ new, pc_creased_edges pc' = pc_creased_edges pc ++ new
         ∧ length new = 4
         ∧ Forall (names_edge b') new
         ∧ (pc_creased_edges pc = [] → (ProfileConnector.crease_edges (pc', b')).1 = Ok tt).
Proof.
  intros Hcr. unfold ProfileConnector.join_profiles, ProfileConnector.self. rewrite bind_gets.
  cbn [fst]. intros H.
  apply bind_lift_ok in H as (vc0 & _ & H). apply bind_lift_ok in H as (vc1 & _ & H).
  apply bind_lift_ok in H as (loop0 & _ & H). apply bind_lift_ok in H as (loop1 & _ & H).
  destruct (ProfileConnector.correspondence loop0 loop1) as [[min_i min_i2] mult].
  rewrite Hcr in H.
  pose (Inv := λ (k : nat) (s : ProfileConnector.St),
          ∃ new, pc_creased_edges s.1 = pc_creased_edges pc ++ new
                 ∧ length new = k
                 ∧ Forall (names_edge s.2) new
                 ∧ (new ≠ [] → BMesh.is_valid s.2 = true)).
  assert (Inv (length (seqZ 0 4)) (pc', b')) as (new & Hnew & Hlen & Hall & Hv).
  { refine (for_each_ok_inv Inv _ _ _ (pc, b) (pc', b') _ H).
    - intros k idx [pcx bx] [pcy by_] _ (new & Hnew & Hlen & Hall & _) Hrun. cbn [fst snd] in *.
      apply bind_ok in Hrun as ([] & [pc1 b1] & Hf & Hrun).
      apply pc_on_bm_ok in Hf as [-> Hf]. apply faces_new_inv in Hf as [_ Hb1].
      apply bind_ok in Hrun as (e & [pc2 b2] & He & Hrun).
      apply pc_on_bm_ok in He as [-> He]. apply edges_get_inv in He as [-> He].
      unfold ProfileConnector.append_creased_edge, modify in Hrun. cbn [fst snd] in Hrun.
      inversion Hrun; subst pcy by_. clear Hrun.
      assert (length (BMesh.edges bx) ≤ length (BMesh.edges b1)) as Hle
        by (subst b1; apply ensure_edges_length).
      assert (names_edge b1 e) as Hn.
      { subst e. apply found_names_edge. subst b1. cbn [BMesh.edges].
        apply ensure_edges_found. cbn. rewrite !elem_of_cons. auto 10. }
      exists (new ++ [e]). cbn [fst snd pc_creased_edges]. rewrite Hnew, <- app_assoc.
      split; [reflexivity | ]. split; [rewrite length_app; cbn; lia | ]. split.
      + apply Forall_app. split; [ | repeat constructor; exact Hn].
        eapply Forall_impl; [exact Hall | ]. intros e'. apply names_edge_mono. exact Hle.
      + intros _. subst b1. reflexivity.
    - exists []. cbn [fst snd]. rewrite app_nil_r. split; [reflexivity | ].
      split; [reflexivity | ]. split; [constructor | congruence]. }
  cbn [fst snd] in *. exists new.
  split; [exact Hnew | ]. split; [exact Hlen | ]. split; [exact Hall | ].
  intros Hnil. apply connector_crease_edges_run.
  - rewrite Hnew, Hnil. cbn. eapply Forall_impl; [exact Hall | ]. intros e (k & -> & _). eauto.
  - rewrite Hnew, Hnil. cbn. exact Hv.
Qed.

Lemma connector_creases_exist_witness :
  pc_crease Examples.corner_connector.1 = Some 0.5%float
  ∧ ProfileConnector.join_profiles (vert_caps Examples.corner_faced)
      (Examples.corner_connector.1, Examples.corner_connector.2)
    = (Ok tt, (Examples.corner_joined.1, Examples.corner_joined.2))
  ∧ ∃ new, pc_creased_edges Examples.corner_joined.1 = new
           ∧ length new = 4
           ∧ Forall (names_edge Examples.corner_joined.2) new
           ∧ (ProfileConnector.crease_edges (Examples.corner_joined.1, Examples.corner_joined.2)).1 = Ok tt.
Proof.
  assert (Hc : pc_crease Examples.corner_connector.1 = Some 0.5%float) by reflexivity.
  assert (Hrun : ProfileConnector.join_profiles (vert_caps Examples.corner_faced)
                   (Examples.corner_connector.1, Examples.corner_connector.2)
                 = (Ok tt, (Examples.corner_joined.1, Examples.corner_joined.2)))
    by (vm_compute; reflexivity).
  split; [exact Hc | ]. split; [exact Hrun | ].
  destruct (connector_creases_exist _ _ _ _ _ _ Hc Hrun) as (new & H1 & H2 & H3 & H4).
  exists new. split; [exact H1 | ]. split; [exact H2 | ]. split; [exact H3 | ].
  apply H4. reflexivity.
Defined.

(** ** Registering the edges *)

(** A method that leaves the mesh alone, run on a cap of the store. *)
Lemma with_cap_run {A} i (body : M VertCap.St A) w c bmx r c' :
  vert_caps w !! i = Some c → bmeshes w !! VertCap.bm c = Some bmx →
  body (c, bmx) = (r, (c', bmx)) →
  with_cap i body w = (r, set_vert_caps (<[i := c']> (vert_caps w)) w).
Proof.
  intros Hc Hb Hrun. unfold with_cap. rewrite Hc, Hb, Hrun.
  rewrite list_insert_id by exact Hb. reflexivity.
Qed.

(** One round of [add_edges_to_vert_caps], for an edge between two vertices
    of the wireframe. *)
Lemma add_edge_round bms m kw cl pcs caps k a b :
  length caps = length (vertices m) → Forall (present bms) caps →
  a < length (vertices m) → b < length (vertices m) →
  ∃ caps',
    for_each [(a, b); (b, a)]
      (λ '(this_vert_index, other_vert_index),
         bind (lift (Py.getitem (vertices m) other_vert_index))
           (λ other_vert, with_cap this_vert_index
                            (VertCap.add_edge_vert k other_vert_index other_vert)))
      (mkWorld bms m kw cl caps pcs)
    = (Ok tt, mkWorld bms m kw cl caps' pcs)
    ∧ length caps' = length caps ∧ Forall (present bms) caps'
    ∧ ∀ v c, caps !! v = Some c →
        caps' !! v
        = Some (VertCap.set_input_edge_verts
                  (VertCap.input_edge_verts c
                   ++ registrations (vertices m) (VertCap.input_vert c) v (k, (a, b))) c).
Proof.
  intros Hlen Hpres Ha Hb.
  destruct (lookup_lt_is_Some_2 (vertices m) a Ha) as [va Hva].
  destruct (lookup_lt_is_Some_2 (vertices m) b Hb) as [vb Hvb].
  destruct (lookup_lt_is_Some_2 caps a ltac:(lia)) as [ca Hca].
  destruct (proj1 (Forall_lookup _ _) Hpres a ca Hca) as [ma Hma].
  set (ca' := VertCap.set_input_edge_verts
                (VertCap.input_edge_verts ca
                 ++ [mkEdgeVert vb b k (Vec.magnitude (Vec.sub (VertCap.input_vert ca) vb))]) ca).
  set (caps1 := <[a := ca']> caps).
  assert (Forall (present bms) caps1) as Hpres1.
  { apply Forall_insert; [exact Hpres | ]. exists ma. exact Hma. }
  destruct (lookup_lt_is_Some_2 caps1 b) as [cb Hcb].
  { unfold caps1. rewrite length_insert. lia. }
  destruct (proj1 (Forall_lookup _ _) Hpres1 b cb Hcb) as [mb Hmb].
  set (cb' := VertCap.set_input_edge_verts
                (VertCap.input_edge_verts cb
                 ++ [mkEdgeVert va a k (Vec.magnitude (Vec.sub (VertCap.input_vert cb) va))]) cb).
  exists (<[b := cb']> caps1).
  split; [ | split; [ | split]].
  - cbn [for_each]. rewrite (bind_eq_ok _ _ _ tt (mkWorld bms m kw cl caps1 pcs)).
    + rewrite (bind_eq_ok _ _ _ tt (mkWorld bms m kw cl (<[b := cb']> caps1) pcs));
        [reflexivity | ].
      rewrite bind_lift. unfold Py.getitem. rewrite Hva.
      apply (with_cap_run b _ (mkWorld bms m kw cl caps1 pcs) cb mb); [exact Hcb | exact Hmb | ].
      reflexivity.
    + rewrite bind_lift. unfold Py.getitem. rewrite Hvb.
      apply (with_cap_run a _ (mkWorld bms m kw cl caps pcs) ca ma); [exact Hca | exact Hma | ].
      reflexivity.
  - unfold caps1. rewrite !length_insert. reflexivity.
  - apply Forall_insert; [exact Hpres1 | ]. exists mb. exact Hmb.
  - intros v c Hc. unfold registrations, edge_vert_of. cbn [fst snd].
    destruct (decide (b = v)) as [->|Hbv].
    + rewrite list_lookup_insert_eq by (unfold caps1; rewrite length_insert; lia).
      unfold caps1 in Hcb. destruct (decide (a = v)) as [->|Hav].
      * rewrite list_lookup_insert_eq in Hcb by lia. inversion Hcb; subst cb.
        rewrite Hc in Hca. inversion Hca; subst ca.
        assert (va = vb) as -> by congruence. rewrite Hvb.
        unfold cb', ca'. cbn. rewrite <- app_assoc. reflexivity.
      * rewrite list_lookup_insert_ne in Hcb by exact Hav. rewrite Hc in Hcb.
        inversion Hcb; subst cb. rewrite Hva. reflexivity.
    + rewrite list_lookup_insert_ne by exact Hbv. unfold caps1.
      destruct (decide (a = v)) as [->|Hav].
      * rewrite list_lookup_insert_eq by lia. rewrite Hc in Hca. inversion Hca; subst ca.
        rewrite Hvb, app_nil_r. reflexivity.
      * rewrite list_lookup_insert_ne by exact Hav. rewrite Hc, app_nil_r.
        rewrite set_input_edge_verts_id. reflexivity.
Qed.

Lemma add_edge_round_fails bms m kw cl pcs caps k a b :
  length caps = length (vertices m) →
  ¬ (a < length (vertices m) ∧ b < length (vertices m)) →
  (for_each [(a, b); (b, a)]
     (λ '(this_vert_index, other_vert_index),
        bind (lift (Py.getitem (vertices m) other_vert_index))
          (λ other_vert, with_cap this_vert_index
                           (VertCap.add_edge_vert k other_vert_index other_vert)))
     (mkWorld bms m kw cl caps pcs)).1
  = Raise IndexError.
Proof.
  intros Hlen Hbad. cbn [for_each]. unfold bind at 1. rewrite bind_lift. unfold Py.getitem.
  destruct (vertices m !! b) as [vb|] eqn:Hvb; [ | reflexivity].
  apply lookup_lt_Some in Hvb. unfold with_cap. cbn [vert_caps].
  rewrite (proj2 (lookup_ge_None caps a)) by lia. reflexivity.
Qed.

Lemma bind_raises {S A B} (m : M S A) (k : A → M S B) s e :
  (m s).1 = Raise e → (bind m k s).1 = Raise e.
Proof. unfold bind. destruct (m s) as [[a|e'] s1]; cbn; intros H; [discriminate | inversion H; reflexivity]. Qed.

Lemma add_edges_loop bms m kw cl pcs l :
  Forall (λ ke : nat * (nat * nat),
            ke.2.1 < length (vertices m) ∧ ke.2.2 < length (vertices m)) l →
  ∀ caps, length caps = length (vertices m) → Forall (present bms) caps →
  ∃ caps',
    for_each l
      (λ '(edge, edge_vertices),
         for_each [(edge_vertices.1, edge_vertices.2); (edge_vertices.2, edge_vertices.1)]
           (λ '(this_vert_index, other_vert_index),
              bind (lift (Py.getitem (vertices m) other_vert_index))
                (λ other_vert, with_cap this_vert_index
                                 (VertCap.add_edge_vert edge other_vert_index other_vert))))
      (mkWorld bms m kw cl caps pcs)
    = (Ok tt, mkWorld bms m kw cl caps' pcs)
    ∧ length caps' = length caps
    ∧ ∀ v c, caps !! v = Some c →
        caps' !! v
        = Some (VertCap.set_input_edge_verts
                  (VertCap.input_edge_verts c
                   ++ flat_map (registrations (vertices m) (VertCap.input_vert c) v) l) c).
Proof.
  induction 1 as [|[k [a b]] l [Ha Hb] Hl IH]; intros caps Hlen Hpres.
  - exists caps. split; [reflexivity | ]. split; [reflexivity | ].
    intros v c Hc. cbn. rewrite app_nil_r, set_input_edge_verts_id. exact Hc.
  - cbn [fst snd] in Ha, Hb.
    destruct (add_edge_round bms m kw cl pcs caps k a b Hlen Hpres Ha Hb)
      as (caps1 & Hrun1 & Hlen1 & Hpres1 & Hreg1).
    destruct (IH caps1 ltac:(lia) Hpres1) as (caps2 & Hrun2 & Hlen2 & Hreg2).
    exists caps2. split; [ | split; [lia | ]].
    + cbn [for_each]. cbn [fst snd]. rewrite (bind_eq_ok _ _ _ _ _ Hrun1). exact Hrun2.
    + intros v c Hc. rewrite (Hreg2 v _ (Hreg1 v c Hc)). cbn [flat_map].
      cbn. rewrite <- app_assoc. reflexivity.
Qed.

Lemma add_edges_loop_fails bms m kw cl pcs l :
  Exists (λ ke : nat * (nat * nat),
            ¬ (ke.2.1 < length (vertices m) ∧ ke.2.2 < length (vertices m))) l →
  ∀ caps, length caps = length (vertices m) → Forall (present bms) caps →
    (for_each l
       (λ '(edge, edge_vertices),
          for_each [(edge_vertices.1, edge_vertices.2); (edge_vertices.2, edge_vertices.1)]
            (λ '(this_vert_index, other_vert_index),
               bind (lift (Py.getitem (vertices m) other_vert_index))
                 (λ other_vert, with_cap this_vert_index
                                  (VertCap.add_edge_vert edge other_vert_index other_vert))))
       (mkWorld bms m kw cl caps pcs)).1
    = Raise IndexError.
Proof.
  induction l as [|[k [a b]] l IH]; intros Hex caps Hlen Hpres.
  - apply Exists_nil in Hex. contradiction.
  - cbn [for_each]. cbn [fst snd].
    destruct (decide (a < length (vertices m) ∧ b < length (vertices m))) as [[Ha Hb]|Hbad].
    + destruct (add_edge_round bms m kw cl pcs caps k a b Hlen Hpres Ha Hb)
        as (caps1 & Hrun1 & Hlen1 & Hpres1 & _).
      rewrite (bind_eq_ok _ _ _ _ _ Hrun1). apply IH; [ | lia | exact Hpres1].
      apply Exists_cons in Hex as [Hex|Hex]; [ | exact Hex]. cbn in Hex. tauto.
    + apply bind_raises. apply add_edge_round_fails; assumption.
Qed.

(** X4.  On a store with one cap per wireframe vertex, every cap's mesh in
    the store, and every edge between two vertices of the wireframe,
    [add_edges_to_vert_caps] returns normally and changes nothing but the
    caps: the cap of vertex [v] receives, after the entries it had and in the
    order of the edges, one entry per end that an edge has at [v] (two for an
    edge from [v] to [v]), holding the position and index of the other end,
    the index of the edge, and the distance between the two positions. *)
Theorem add_edges_registers (w : World) :
  length (vert_caps w) = length (vertices (mesh w)) →
  Forall (present (bmeshes w)) (vert_caps w) →
  edges_in_range (mesh w) →
  ∃ caps',
    WireSkin.add_edges_to_vert_caps w = (Ok tt, set_vert_caps caps' w)
    ∧ length caps' = length (vert_caps w)
    ∧ ∀ v c, vert_caps w !! v = Some c →
        caps' !! v
        = Some (VertCap.set_input_edge_verts
                  (VertCap.input_edge_verts c
                   ++ flat_map (registrations (vertices (mesh w)) (VertCap.input_vert c) v)
                        (imap pair (mesh_edges (mesh w)))) c).
Proof.
  destruct w as [bms m kw cl caps pcs]. cbn [vert_caps mesh bmeshes]. intros Hlen Hpres Hrange.
  unfold WireSkin.add_edges_to_vert_caps. rewrite bind_gets. unfold id. cbn [mesh].
  apply add_edges_loop; [ | exact Hlen | exact Hpres].
  apply Forall_forall. intros [k [a b]] Hin. cbn. apply Hrange. eapply in_imap_pair. exact Hin.
Qed.

Lemma add_edges_registers_witness :
  length (vert_caps Examples.corner_capped) = length (vertices (mesh Examples.corner_capped))
  ∧ Forall (present (bmeshes Examples.corner_capped)) (vert_caps Examples.corner_capped)
  ∧ edges_in_range (mesh Examples.corner_capped)
  ∧ ∃ caps',
      WireSkin.add_edges_to_vert_caps Examples.corner_capped
      = (Ok tt, set_vert_caps caps' Examples.corner_capped)
      ∧ (map ev_i ∘ VertCap.input_edge_verts <$> caps') = [[1]; [0; 2]; [1]]
      ∧ (map ev_e ∘ VertCap.input_edge_verts <$> caps') = [[0]; [0; 1]; [1]].
Proof.
  assert (Hlen : length (vert_caps Examples.corner_capped)
                 = length (vertices (mesh Examples.corner_capped))) by reflexivity.
  assert (Hpres : Forall (present (bmeshes Examples.corner_capped)) (vert_caps Examples.corner_capped)).
  { repeat constructor; eexists; reflexivity. }
  assert (Hrange : edges_in_range (mesh Examples.corner_capped)).
  { intros a b Hab. cbn in Hab. rewrite !elem_of_cons in Hab.
    destruct Hab as [Hab|[Hab|Hab]]; [ | | apply elem_of_nil in Hab; contradiction];
      inversion Hab; subst; cbn; lia. }
  split; [exact Hlen | ]. split; [exact Hpres | ]. split; [exact Hrange | ].
  destruct (add_edges_registers _ Hlen Hpres Hrange) as (caps' & Hrun & Hlen' & Hcaps).
  exists caps'. split; [exact Hrun | ].
  destruct caps' as [|c0 [|c1 [|c2 [|]]]]; try discriminate Hlen'.
  pose proof (Hcaps 0 _ eq_refl) as H0. pose proof (Hcaps 1 _ eq_refl) as H1.
  pose proof (Hcaps 2 _ eq_refl) as H2.
  inversion H0; subst c0. inversion H1; subst c1. inversion H2; subst c2.
  split; reflexivity.
Defined.

(** X5.  On a store with one cap per wireframe vertex and every cap's mesh
    in the store, [add_edges_to_vert_caps] raises [IndexError] as soon as the
    wireframe has an edge with an end that is not one of its vertices. *)
Theorem add_edges_out_of_range (w : World) (a b : nat) :
  length (vert_caps w) = length (vertices (mesh w)) →
  Forall (present (bmeshes w)) (vert_caps w) →
  (a, b) ∈ mesh_edges (mesh w) →
  ¬ (a < length (vertices (mesh w)) ∧ b < length (vertices (mesh w))) →
  (WireSkin.add_edges_to_vert_caps w).1 = Raise IndexError.
Proof.
  destruct w as [bms m kw cl caps pcs]. cbn [vert_caps mesh bmeshes]. intros Hlen Hpres Hin Hbad.
  unfold WireSkin.add_edges_to_vert_caps. rewrite bind_gets. unfold id. cbn [mesh].
  apply add_edges_loop_fails; [ | exact Hlen | exact Hpres].
  apply list_elem_of_lookup in Hin as [k Hk].
  apply Exists_exists. exists (k, (a, b)). split; [ | exact Hbad].
  apply (list_elem_of_lookup_2 _ k). rewrite list_lookup_imap, Hk. reflexivity.
Qed.

Lemma add_edges_out_of_range_witness :
  length (vert_caps Examples.dangling_capped) = length (vertices (mesh Examples.dangling_capped))
  ∧ Forall (present (bmeshes Examples.dangling_capped)) (vert_caps Examples.dangling_capped)
  ∧ (1, 5) ∈ mesh_edges (mesh Examples.dangling_capped)
  ∧ (WireSkin.add_edges_to_vert_caps Examples.dangling_capped).1 = Raise IndexError.
Proof.
  assert (Hlen : length (vert_caps Examples.dangling_capped)
                 = length (vertices (mesh Examples.dangling_capped))) by reflexivity.
  assert (Hpres : Forall (present (bmeshes Examples.dangling_capped)) (vert_caps Examples.dangling_capped)).
  { repeat constructor; eexists; reflexivity. }
  assert (Hin : (1, 5) ∈ mesh_edges (mesh Examples.dangling_capped)).
  { cbn. rewrite !elem_of_cons. auto. }
  split; [exact Hlen | ]. split; [exact Hpres | ]. split; [exact Hin | ].
  apply (add_edges_out_of_range _ 1 5 Hlen Hpres Hin). cbn. lia.
Defined.

(** ** What a build returns *)

(** X6.  When [create_mesh] returns normally, the [BMesh] of the build is
    left freed in the store, and the mesh returned holds the vertices, edges,
    faces and crease layer that this [BMesh] has: a later use of the [BMesh],
    such as creating a vertex or a face, raises [ReferenceError]. *)
Theorem build_returns_a_copy (atan2 : float → float → float) (w w' : World) (me : BMesh.t) :
  WireSkin.create_mesh atan2 w = (Ok me, w') →
  let bm := length (bmeshes w) in
  bmeshes w' !! bm
  = Some (BMesh.mk false (BMesh.verts me) (BMesh.edges me) (BMesh.faces me)
            (BMesh.has_crease_layer me))
  ∧ (∀ p, (on_bmesh bm (BMesh.verts_new p) w').1 = Raise ReferenceError)
  ∧ (∀ vs, (on_bmesh bm (BMesh.faces_new vs) w').1 = Raise ReferenceError).
Proof.
  intros H bm. rewrite create_mesh_unfold in H. fold bm in H. unfold phases in H.
  apply bind_ok in H as ([] & w1 & _ & H). apply bind_ok in H as ([] & w2 & _ & H).
  apply bind_ok in H as ([] & w3 & _ & H). apply bind_ok in H as ([] & w4 & _ & H).
  apply bind_ok in H as ([] & w5 & _ & H). apply bind_ok in H as ([] & w6 & _ & H).
  apply bind_ok in H as ([] & w7 & _ & H).
  apply bind_ok in H as (me' & w8 & Hcopy & H).
  apply bind_ok in H as ([] & w9 & Hfree & H).
  assert (me' = me ∧ w9 = w') as [-> ->] by (inversion H; auto). clear H.
  unfold on_bmesh in Hcopy.
  destruct (bmeshes w7 !! bm) as [b|] eqn:Hb; [ | discriminate].
  unfold BMesh.to_mesh, BMesh.check_valid in Hcopy. unfold bind, gets, ret, raise in Hcopy.
  destruct (BMesh.is_valid b) eqn:Hv; [ | discriminate]. unfold id in Hcopy.
  inversion Hcopy; subst me w8. clear Hcopy.
  assert (bm < length (bmeshes w7)) as Hlt by (eapply lookup_lt_Some; exact Hb).
  unfold on_bmesh, BMesh.free, modify in Hfree. cbn [bmeshes set_bmeshes] in Hfree.
  rewrite list_lookup_insert_eq in Hfree by exact Hlt.
  inversion Hfree; subst w'. clear Hfree. cbn [bmeshes set_bmeshes].
  assert (bm < length (<[bm := b]> (bmeshes w7))) as Hlt'
    by (rewrite length_insert; exact Hlt).
  split; [apply list_lookup_insert_eq; exact Hlt' | ].
  split; intros p; unfold on_bmesh; cbn [bmeshes set_bmeshes];
    rewrite list_lookup_insert_eq by exact Hlt'; reflexivity.
Qed.

Lemma build_returns_a_copy_witness :
  WireSkin.create_mesh Atan2.atan2 (WireSkin.init Examples.mesh_corner Examples.kw_full)
  = (Ok Examples.corner_skin, Examples.corner_run.2)
  ∧ (BMesh.is_valid <$> bmeshes Examples.corner_run.2 !! 0) = Some false
  ∧ (BMesh.verts <$> bmeshes Examples.corner_run.2 !! 0) = Some (BMesh.verts Examples.corner_skin)
  ∧ (BMesh.faces <$> bmeshes Examples.corner_run.2 !! 0) = Some (BMesh.faces Examples.corner_skin)
  ∧ ∀ p, (on_bmesh 0 (BMesh.verts_new p) Examples.corner_run.2).1 = Raise ReferenceError.
Proof.
  assert (Hrun : WireSkin.create_mesh Atan2.atan2
                   (WireSkin.init Examples.mesh_corner Examples.kw_full)
                 = (Ok Examples.corner_skin, Examples.corner_run.2))
    by (vm_compute; reflexivity).
  split; [exact Hrun | ].
  destruct (build_returns_a_copy _ _ _ _ Hrun) as (H2 & H3 & _).
  change (length (bmeshes (WireSkin.init Examples.mesh_corner Examples.kw_full))) with 0 in *.
  rewrite H2.
  split; [reflexivity | ]. split; [reflexivity | ]. split; [reflexivity | exact H3].
Defined.

(** ** The walls of a build *)

Lemma profile_get_in p i : profile_get p i ∈ profile_verts p.
Proof.
  unfold profile_verts. destruct i as [|[|[|i]]]; cbn; rewrite !elem_of_cons; auto.
Qed.

Lemma get_edge_profile_ok c e p :
  VertCap.get_edge_profile c e = Ok p → VertCap.edge_profile_map c !! e = Some p.
Proof.
  unfold VertCap.get_edge_profile. destruct (_ !! _); intros H; inversion H; reflexivity.
Qed.

Lemma join_profiles_inv caps pc b pc' b' :
  ProfileConnector.join_profiles caps (pc, b) = (Ok tt, (pc', b')) →
  ∃ vc0 vc1 loop0 loop1 quads,
    caps !! (pc_edge_vertices pc).1 = Some vc0
    ∧ caps !! (pc_edge_vertices pc).2 = Some vc1
    ∧ VertCap.edge_profile_map vc0 !! pc_edge pc = Some loop0
    ∧ VertCap.edge_profile_map vc1 !! pc_edge pc = Some loop1
    ∧ BMesh.faces b' = BMesh.faces b ++ quads ∧ length quads = 4
    ∧ Forall (joins_profiles loop0 loop1) quads
    ∧ pc_bm pc' = pc_bm pc.
Proof.
  unfold ProfileConnector.join_profiles, ProfileConnector.self. rewrite bind_gets.
  cbn [fst]. intros H.
  apply bind_lift_ok in H as (vc0 & H0 & H). apply getitem_ok in H0.
  apply bind_lift_ok in H as (vc1 & H1 & H). apply getitem_ok in H1.
  apply bind_lift_ok in H as (loop0 & Hl0 & H). apply get_edge_profile_ok in Hl0.
  apply bind_lift_ok in H as (loop1 & Hl1 & H). apply get_edge_profile_ok in Hl1.
  exists vc0, vc1, loop0, loop1.
  destruct (ProfileConnector.correspondence loop0 loop1) as [[min_i min_i2] mult].
  pose (Inv := λ (k : nat) (s : ProfileConnector.St),
          pc_bm s.1 = pc_bm pc
          ∧ ∃ quads, BMesh.faces s.2 = BMesh.faces b ++ quads ∧ length quads = k
                     ∧ Forall (joins_profiles loop0 loop1) quads).
  assert (Inv (length (seqZ 0 4)) (pc', b')) as (Hbm & quads & Hq & Hlen & Hall).
  { refine (for_each_ok_inv Inv _ _ _ (pc, b) (pc', b') _ H).
    - intros k idx [pcx bx] [pcy by_] _ (Hbx & quads & Hq & Hlen & Hall) Hrun.
      cbn [fst snd] in *.
      apply bind_ok in Hrun as ([] & [pc1 b1] & Hf & Hrun).
      apply pc_on_bm_ok in Hf as [-> Hf]. apply faces_new_ok in Hf as (_ & _ & Hf & _).
      assert (pc_bm pcy = pc_bm pcx ∧ BMesh.faces by_ = BMesh.faces b1) as [Hy1 Hy2].
      { destruct (pc_crease pc).
        - apply bind_ok in Hrun as (e & [pc2 b2] & He & Hrun).
          apply pc_on_bm_ok in He as [-> He]. apply edges_get_ok in He as ->.
          inversion Hrun; subst. auto.
        - inversion Hrun; subst. auto. }
      unfold Inv. cbn [fst snd]. split; [congruence | ].
      eexists. split; [rewrite Hy2, Hf, Hq, <- app_assoc; reflexivity | ].
      split; [rewrite length_app; cbn; lia | ].
      apply Forall_app. split; [exact Hall | ]. constructor; [ | constructor].
      split; [reflexivity | ]. intros v Hv. unfold ProfileConnector.at_ in Hv.
      rewrite !elem_of_cons in Hv.
      destruct Hv as [->|[->|[->|[->|Hv]]]];
        [left | left | right | right | apply elem_of_nil in Hv; contradiction];
        apply profile_get_in.
    - split; [reflexivity | ]. exists []. rewrite app_nil_r. repeat split; auto. }
  exists quads. cbn [fst snd] in *. auto 10.
Qed.

Lemma connect_profiles_inv m kw cl b caps w' :
  WireSkin.connect_profiles 0 (mkWorld [b] m kw cl caps []) = (Ok tt, w') →
  ∃ b' pcs walls,
    w' = mkWorld [b'] m kw cl caps pcs ∧ on_mesh_0_pcs pcs
    ∧ BMesh.faces b' = BMesh.faces b ++ walls
    ∧ Forall (wall_of caps) walls.
Proof.
  unfold WireSkin.connect_profiles. rewrite bind_gets. unfold id. cbn [mesh kwargs]. intros H.
  pose (Inv := λ (k : nat) (w : World),
          ∃ b' pcs walls,
            w = mkWorld [b'] m kw cl caps pcs ∧ on_mesh_0_pcs pcs
            ∧ BMesh.faces b' = BMesh.faces b ++ walls
            ∧ Forall (wall_of caps) walls).
  refine (for_each_ok_inv Inv _ _ _ _ w' _ H).
  - intros k [k' [x y]] w1 w2 Hk (b1 & pcs1 & walls1 & -> & H01 & Hf1 & Hall1) Hrun.
    rewrite bind_gets, bind_modify, bind_gets in Hrun.
    cbn [profile_connectors vert_caps set_profile_connectors bmeshes mesh kwargs crease_layer]
      in Hrun.
    apply with_connector_one in Hrun as (pc & pc' & b2 & Hpc & Hrun & ->).
    2: { apply Forall_app. split; [exact H01 | constructor; [reflexivity | constructor]]. }
    rewrite list_lookup_middle in Hpc by reflexivity. inversion Hpc; subst pc. clear Hpc.
    apply join_profiles_inv in Hrun
      as (cx & cy & loop0 & loop1 & quads & Hcx & Hcy & Hex & Hey & Hf2 & Hq & Hquads & Hbm).
    cbn in Hcx, Hcy, Hex, Hey, Hbm.
    exists b2, (<[length pcs1 := pc']> (pcs1 ++ [ProfileConnector.init k' (x, y) 0 kw])),
      (walls1 ++ quads).
    split; [reflexivity | ]. split.
    { apply Forall_insert; [ | exact Hbm].
      apply Forall_app. split; [exact H01 | constructor; [reflexivity | constructor]]. }
    split; [rewrite Hf2, Hf1, <- app_assoc; reflexivity | ].
    apply Forall_app. split; [exact Hall1 | ].
    eapply Forall_impl; [exact Hquads | ]. intros f [Hlen Hf]. split; [exact Hlen | ].
    intros v Hv. destruct (Hf v Hv) as [Hin|Hin].
    + exists cx, k', loop0. split; [eapply list_elem_of_lookup_2; exact Hcx | auto].
    + exists cy, k', loop1. split; [eapply list_elem_of_lookup_2; exact Hcy | auto].
  - exists b, [], []. rewrite app_nil_r. repeat split; auto; constructor.
Qed.

Lemma SF_total (a b : spec_float) :
  SFeqb a a = true → SFeqb b b = true → SFeqb a b = false →
  SFltb a b = true ∨ SFltb b a = true.
Proof.
  unfold SFeqb, SFltb, SFcompare.
  destruct a as [[]|[]| |[] ma ea], b as [[]|[]| |[] mb eb];
    try (intros; discriminate); try (intros; left; reflexivity); try (intros; right; reflexivity);
    change (Pos.compare_cont Eq) with Pos.compare;
    intros _ _;
    destruct (Z.compare_spec ea eb), (Z.compare_spec eb ea); try lia;
    try (intros; left; reflexivity); try (intros; right; reflexivity); subst;
    destruct (Pos.compare_spec ma mb), (Pos.compare_spec mb ma); try lia;
    try (intros; discriminate); try (intros; left; reflexivity); try (intros; right; reflexivity).
Qed.

Lemma ltb_total (a b : float) :
  PrimFloat.eqb a a = true → PrimFloat.eqb b b = true → PrimFloat.eqb a b = false →
  PrimFloat.ltb a b = true ∨ PrimFloat.ltb b a = true.
Proof. rewrite !eqb_spec, !ltb_spec. apply SF_total. Qed.

Lemma ltb_asym (a b : float) : PrimFloat.ltb a b = true → PrimFloat.ltb b a = false.
Proof.
  intros H. destruct (PrimFloat.ltb b a) eqn:H'; [ | reflexivity].
  pose proof (ltb_trans _ _ _ H H') as Hc. rewrite ltb_irrefl in Hc. discriminate.
Qed.

(** ** The dict and the sort of [reorder_edge_verts] *)

Lemma dict_set_new {V} (d : list (float * V)) k v :
  Forall (λ kv, PrimFloat.eqb kv.1 k = false) d → Py.dict_set d k v = d ++ [(k, v)].
Proof.
  induction 1 as [|[k' v'] d Hk Hd IH]; cbn; [reflexivity | ].
  cbn in Hk. rewrite Hk, IH. reflexivity.
Qed.

Lemma dict_of_distinct {V} (key : V → float) (l : list V) (d : list (float * V)) :
  Forall (λ kv, Forall (λ x, PrimFloat.eqb kv.1 (key x) = false) l) d →
  (∀ i j x y, i < j → l !! i = Some x → l !! j = Some y →
              PrimFloat.eqb (key x) (key y) = false) →
  foldl (λ d x, Py.dict_set d (key x) x) d l = d ++ map (λ x, (key x, x)) l.
Proof.
  revert d. induction l as [|x l IH]; intros d Hd Hl; cbn.
  - rewrite app_nil_r. reflexivity.
  - rewrite dict_set_new.
    + rewrite IH.
      * rewrite <- app_assoc. reflexivity.
      * apply Forall_app. split.
        -- eapply Forall_impl; [exact Hd | ]. intros kv Hkv. inversion Hkv; assumption.
        -- constructor; [ | constructor]. cbn. apply Forall_lookup. intros j y Hy.
           apply (Hl 0 (S j) x y); [lia | reflexivity | exact Hy].
      * intros i j a b Hij Ha Hb. apply (Hl (S i) (S j)); [lia | exact Ha | exact Hb].
    + eapply Forall_impl; [exact Hd | ]. intros kv Hkv. inversion Hkv; assumption.
Qed.

Lemma insert_sorted_perm {V} (kv : float * V) l : Py.insert_sorted kv l ≡ₚ kv :: l.
Proof.
  induction l as [|x l IH]; cbn; [reflexivity | ].
  destruct (PrimFloat.ltb _ _); [reflexivity | ]. rewrite IH. apply Permutation_swap.
Qed.

Lemma sorted_perm {V} (d : list (float * V)) : Py.sorted d ≡ₚ d.
Proof.
  unfold Py.sorted. induction d as [|kv d IH]; cbn; [reflexivity | ].
  rewrite insert_sorted_perm, IH. reflexivity.
Qed.

Lemma insert_sorted_HdRel {V} (x kv : float * V) l :
  PrimFloat.ltb x.1 kv.1 = true → HdRel (λ a b, PrimFloat.ltb a.1 b.1 = true) x l →
  HdRel (λ a b, PrimFloat.ltb a.1 b.1 = true) x (Py.insert_sorted kv l).
Proof.
  intros Hx Hl. destruct l as [|y l]; cbn; [constructor; exact Hx | ].
  destruct (PrimFloat.ltb kv.1 y.1); constructor; [exact Hx | ]. inversion Hl; assumption.
Qed.

Lemma insert_sorted_Sorted {V} (kv : float * V) l :
  Sorted (λ a b, PrimFloat.ltb a.1 b.1 = true) l →
  Forall (λ x, PrimFloat.ltb kv.1 x.1 = true ∨ PrimFloat.ltb x.1 kv.1 = true) l →
  Sorted (λ a b, PrimFloat.ltb a.1 b.1 = true) (Py.insert_sorted kv l).
Proof.
  induction 1 as [|x l Hs IH Hhd]; intros Hc; cbn; [repeat constructor | ].
  inversion Hc as [|? ? Hx Hl]; subst.
  destruct (PrimFloat.ltb kv.1 x.1) eqn:Hlt.
  - constructor; [constructor; assumption | constructor; exact Hlt].
  - constructor; [apply IH; exact Hl | ].
    apply insert_sorted_HdRel; [ | exact Hhd]. destruct Hx as [Hx|Hx]; [congruence | exact Hx].
Qed.

Lemma sorted_Sorted {V} (d : list (float * V)) :
  Forall (λ kv, PrimFloat.eqb kv.1 kv.1 = true) d →
  (∀ i j x y, i < j → d !! i = Some x → d !! j = Some y → PrimFloat.eqb x.1 y.1 = false) →
  Sorted (λ a b, PrimFloat.ltb a.1 b.1 = true) (Py.sorted d).
Proof.
  unfold Py.sorted. induction d as [|kv d IH]; intros Hn Hd; cbn; [constructor | ].
  inversion Hn as [|? ? Hkv Hn']; subst.
  apply insert_sorted_Sorted.
  - apply IH; [exact Hn' | ]. intros i j x y Hij Hx Hy.
    apply (Hd (S i) (S j)); [lia | exact Hx | exact Hy].
  - apply Forall_forall. intros x Hx.
    change (foldr Py.insert_sorted [] d) with (Py.sorted d) in Hx.
    rewrite sorted_perm in Hx. apply list_elem_of_lookup in Hx as [j Hj].
    apply ltb_total; [exact Hkv | | ].
    + apply (proj1 (Forall_lookup _ _) Hn' j x Hj).
    + apply (Hd 0 (S j)); [lia | reflexivity | exact Hj].
Qed.

Lemma Sorted_values {V} (key : V → float) (l : list (float * V)) :
  Forall (λ kv, kv.1 = key kv.2) l →
  Sorted (λ a b, PrimFloat.ltb a.1 b.1 = true) l →
  Sorted (λ x y, PrimFloat.ltb (key x) (key y) = true) (map snd l).
Proof.
  intros Hk Hs. induction Hs as [|x l Hs IH Hhd]; cbn; [constructor | ].
  inversion Hk as [|? ? Hx Hl]; subst. constructor; [apply IH; exact Hl | ].
  destruct Hhd as [|y l' Hxy]; cbn; constructor.
  inversion Hl as [|? ? Hy _]; subst. rewrite <- Hx, <- Hy. exact Hxy.
Qed.

(** X7.  [reorder_edge_verts] on a cap with a normal, at least two
    registered edges and an invertible frame, whose remaining edges have
    angles that are numbers and pairwise different: it returns normally,
    keeps the first edge first, and puts the others in the order of strictly
    increasing angle; no edge is lost or repeated and the mesh is not
    touched. *)
Theorem reorder_sorts_by_angle (atan2 : float → float → float) (c : VertCap.t) (b : BMesh.t)
    (zv : Vec.t) (ev0 : EdgeVert) (rest : list EdgeVert) (mat : Matrix.t) :
  VertCap.normal c = Some zv →
  VertCap.input_edge_verts c = ev0 :: rest → rest ≠ [] →
  (let to_y := Vec.normalized (Vec.cross zv (Vec.sub (ev_v ev0) (VertCap.input_vert c))) in
   let to_x := Vec.normalized (Vec.cross to_y zv) in
   Matrix.invert (Matrix.transpose (Matrix.mk to_x to_y zv)) = Ok mat) →
  (∀ ev, ev ∈ rest →
         PrimFloat.eqb (VertCap.theta_of atan2 mat c ev) (VertCap.theta_of atan2 mat c ev) = true) →
  (∀ i j x y, i < j → rest !! i = Some x → rest !! j = Some y →
     PrimFloat.eqb (VertCap.theta_of atan2 mat c x) (VertCap.theta_of atan2 mat c y) = false) →
  ∃ rest',
    VertCap.reorder_edge_verts atan2 (c, b)
    = (Ok tt, (VertCap.set_input_edge_verts (ev0 :: rest') c, b))
    ∧ rest' ≡ₚ rest
    ∧ StronglySorted (λ x y, PrimFloat.ltb (VertCap.theta_of atan2 mat c x)
                                           (VertCap.theta_of atan2 mat c y) = true) rest'.
Proof.
  intros Hn Hiev Hne Hmat Hnum Hdiff. cbn zeta in Hmat.
  set (key := VertCap.theta_of atan2 mat c) in *.
  set (d := map (λ ev, (key ev, ev)) rest).
  exists (map snd (Py.sorted d)). split; [ | split].
  - unfold VertCap.reorder_edge_verts. rewrite bind_self, Hiev.
    destruct rest as [|ev1 rest1]; [congruence | ].
    cbn [length Nat.ltb Nat.leb]. rewrite bind_lift. cbn [Py.getitem lookup list_lookup].
    rewrite bind_lift, Hn. cbn [Vec.attr]. rewrite bind_lift, Hmat.
    cbn [drop]. fold key.
    rewrite (dict_of_distinct key (ev1 :: rest1) []); [reflexivity | constructor | exact Hdiff].
  - rewrite sorted_perm. unfold d. clear. induction rest as [|x l IH]; cbn; [reflexivity | ].
    rewrite IH. reflexivity.
  - apply Sorted_StronglySorted.
    { intros x y z Hxy Hyz. eapply ltb_trans; eassumption. }
    apply Sorted_values.
    + apply Forall_forall. intros kv Hkv. rewrite sorted_perm in Hkv. unfold d in Hkv.
      apply list_elem_of_fmap in Hkv as (ev & -> & _). reflexivity.
    + apply sorted_Sorted.
      * unfold d. apply Forall_forall. intros kv Hkv.
        apply list_elem_of_fmap in Hkv as (ev & -> & Hev). cbn. apply Hnum. exact Hev.
      * unfold d. intros i j x y Hij Hx Hy.
        change (map ?f ?l) with (f <$> l) in Hx, Hy. rewrite list_lookup_fmap in Hx, Hy.
        destruct (rest !! i) as [x'|] eqn:Hx'; [ | discriminate].
        destruct (rest !! j) as [y'|] eqn:Hy'; [ | discriminate].
        cbn in Hx, Hy. inversion Hx; inversion Hy; subst. cbn.
        apply (Hdiff i j); assumption.
Qed.

Lemma reorder_sorts_by_angle_witness :
  VertCap.normal Examples.star_hub.1 = Some Examples.star_normal
  ∧ VertCap.input_edge_verts Examples.star_hub.1 = Examples.star_first :: Examples.star_rest
  ∧ ∃ rest',
      VertCap.reorder_edge_verts Atan2.atan2 (Examples.star_hub.1, Examples.star_hub.2)
      = (Ok tt, (VertCap.set_input_edge_verts (Examples.star_first :: rest') Examples.star_hub.1,
                 Examples.star_hub.2))
      ∧ rest' ≡ₚ Examples.star_rest
      ∧ StronglySorted
          (λ x y, PrimFloat.ltb (VertCap.theta_of Atan2.atan2 Examples.star_frame Examples.star_hub.1 x)
                                (VertCap.theta_of Atan2.atan2 Examples.star_frame Examples.star_hub.1 y)
                  = true) rest'.
Proof.
  assert (Hn : VertCap.normal Examples.star_hub.1 = Some Examples.star_normal) by reflexivity.
  assert (Hev : VertCap.input_edge_verts Examples.star_hub.1 = Examples.star_first :: Examples.star_rest)
    by reflexivity.
  split; [exact Hn | ]. split; [exact Hev | ].
  apply (reorder_sorts_by_angle Atan2.atan2 _ Examples.star_hub.2 _ _ _ Examples.star_frame Hn Hev).
  - discriminate.
  - vm_compute. reflexivity.
  - intros ev Hev'. unfold Examples.star_rest in Hev'. rewrite !elem_of_cons in Hev'.
    destruct Hev' as [->|[->|Hev']]; [ | | apply elem_of_nil in Hev'; contradiction];
      vm_compute; reflexivity.
  - intros i j x y Hij Hi Hj. unfold Examples.star_rest in Hi, Hj.
    destruct i as [|[|i]], j as [|[|j]]; try lia; try discriminate Hj; try discriminate Hi.
    inversion Hi; inversion Hj; subst. vm_compute. reflexivity.
Defined.

Lemma on_bm_mesh {A} (m : M BMesh.t A) (s : VertCap.St) : (VertCap.on_bm m s).2.2 = (m s.2).2.
Proof. unfold VertCap.on_bm, zoom. destruct (m s.2). reflexivity. Qed.

Lemma pc_on_bm_mesh {A} (m : M BMesh.t A) (s : ProfileConnector.St) :
  (ProfileConnector.on_bm m s).2.2 = (m s.2).2.
Proof. unfold ProfileConnector.on_bm, zoom. destruct (m s.2). reflexivity. Qed.

Ltac keeps_mesh J HJ :=
  repeat (cbn beta; first
    [ match goal with H : J _ |- _ => exact H end
    | apply (bind_keeps (λ s, J s.2)); [ | intros ? ? ?]
    | apply (for_each_keeps (λ s, J s.2)); [intros ? ? _ ? | ]
    | rewrite on_bm_mesh; apply HJ
    | rewrite pc_on_bm_mesh; apply HJ
    | match goal with |- context [if ?b then _ else _] => destruct b end
    | match goal with |- context [match ?x with Some _ => _ | None => _ end] => destruct x end ]).

Section MeshInvariant.

Context (J : BMesh.t → Prop).
Hypothesis Hv : ∀ p b, J b → J (BMesh.verts_new p b).2.
Hypothesis Hf : ∀ vs b, J b → J (BMesh.faces_new vs b).2.
Hypothesis He : ∀ x y b, J b → J (BMesh.edges_get x y b).2.
Hypothesis Hc : ∀ e value b, J b → J (BMesh.set_crease e value b).2.

Lemma add_edge_vert_keeps_mesh e i co s : J s.2 → J (VertCap.add_edge_vert e i co s).2.2.
Proof. intros H. exact H. Qed.

Lemma create_pole_verts_keeps_mesh s : J s.2 → J (VertCap.create_pole_verts s).2.2.
Proof.
  intros H. unfold VertCap.create_pole_verts.
  keeps_mesh J Hv.
Qed.

Lemma create_profile_keeps_mesh ev o s : J s.2 → J (VertCap.create_profile ev o s).2.2.
Proof.
  intros H. unfold VertCap.create_profile.
  keeps_mesh J Hv.
Qed.

Lemma create_profiles_keeps_mesh atan2 caps s :
  J s.2 → J (VertCap.create_profiles atan2 caps s).2.2.
Proof.
  intros H.
  unfold VertCap.create_profiles, VertCap.reorder_edge_verts.
  keeps_mesh J Hv.
Qed.

Lemma create_pole_faces_keeps_mesh s : J s.2 → J (VertCap.create_pole_faces s).2.2.
Proof.
  intros H. unfold VertCap.create_pole_faces.
  keeps_mesh J Hf.
Qed.

Lemma create_inter_profile_faces_keeps_mesh s :
  J s.2 → J (VertCap.create_inter_profile_faces s).2.2.
Proof.
  intros H. unfold VertCap.create_inter_profile_faces.
  keeps_mesh J Hf; keeps_mesh J He.
Qed.

Lemma join_profiles_keeps_mesh caps s : J s.2 → J (ProfileConnector.join_profiles caps s).2.2.
Proof.
  intros H. unfold ProfileConnector.join_profiles.
  keeps_mesh J Hf; destruct (ProfileConnector.correspondence _ _) as [[min_i min_i2] mult];
    keeps_mesh J Hf; keeps_mesh J He.
Qed.

Lemma cap_crease_edges_keeps_mesh s : J s.2 → J (VertCap.crease_edges s).2.2.
Proof.
  intros H. unfold VertCap.crease_edges. keeps_mesh J Hc.
Qed.

Lemma connector_crease_edges_keeps_mesh s : J s.2 → J (ProfileConnector.crease_edges s).2.2.
Proof.
  intros H. unfold ProfileConnector.crease_edges. keeps_mesh J Hc.
Qed.

End MeshInvariant.

(** ** A cap keeps its mesh and its registered edges *)

Ltac keeps_cap k P :=
  repeat (cbn beta; first
    [ match goal with H : anchored k P _ |- _ => exact H end
    | apply (bind_keeps (λ s : VertCap.St, anchored k P s.1)); [ | intros ? ? ?]
    | apply (for_each_keeps (λ s : VertCap.St, anchored k P s.1)); [intros ? ? _ ? | ]
    | rewrite on_bm_cap
    | match goal with |- context [if ?b then _ else _] => destruct b end
    | match goal with |- context [match ?x with Some _ => _ | None => _ end] => destruct x end ]).

Lemma add_edge_vert_anchored k P e i co s :
  anchored k P s.1 → anchored k P (VertCap.add_edge_vert e i co s).2.1.
Proof.
  intros [H1 H2]. split; [exact H1 | ]. intros _. cbn. intros E.
  apply app_eq_nil in E as [_ E]. discriminate.
Qed.

Lemma create_pole_verts_anchored k P s :
  anchored k P s.1 → anchored k P (VertCap.create_pole_verts s).2.1.
Proof. intros H. unfold VertCap.create_pole_verts. keeps_cap k P. Qed.

Lemma create_profiles_anchored atan2 caps k P s :
  anchored k P s.1 → anchored k P (VertCap.create_profiles atan2 caps s).2.1.
Proof.
  intros H. unfold VertCap.create_profiles, VertCap.reorder_edge_verts. keeps_cap k P.
  match goal with
  | H : anchored k P (fst ?s) |- anchored k P _ => split; [apply H | intros _; discriminate]
  end.
Qed.

(** ** A cap on a freed mesh *)

Lemma verts_new_freed p b :
  BMesh.is_valid b = false → BMesh.is_valid (BMesh.verts_new p b).2 = false.
Proof.
  intros H. unfold BMesh.verts_new, BMesh.check_valid. unfold bind, gets, modify, ret, raise.
  rewrite H. exact H.
Qed.

Lemma with_cap_keeps_stranded {A} i0 i (body : M VertCap.St A) w :
  (∀ k P s, anchored k P s.1 → anchored k P (body s).2.1) →
  (∀ s, BMesh.is_valid s.2 = false → BMesh.is_valid (body s).2.2 = false) →
  stranded i0 w → stranded i0 (with_cap i body w).2.
Proof.
  intros Hcap Hmesh (c & b & Hc & Hne & Hb & Hv). unfold with_cap.
  destruct (vert_caps w !! i) as [ci|] eqn:Hci; [ | exists c, b; auto].
  destruct (bmeshes w !! VertCap.bm ci) as [bi|] eqn:Hbi; [ | exists c, b; auto].
  specialize (Hcap (VertCap.bm ci) (VertCap.input_edge_verts ci ≠ []) (ci, bi)).
  specialize (Hmesh (ci, bi)).
  destruct (body (ci, bi)) as [r [c' b']]. cbn [fst snd] in *.
  destruct Hcap as [Hbm Hiev]; [split; auto | ].
  assert (VertCap.bm ci < length (bmeshes w)) as Hlt by (eapply lookup_lt_Some; exact Hbi).
  assert (i < length (vert_caps w)) as Hi by (eapply lookup_lt_Some; exact Hci).
  unfold stranded. cbn [vert_caps bmeshes set_bmeshes set_vert_caps].
  destruct (decide (i = i0)) as [->|Hne0].
  - rewrite Hc in Hci. inversion Hci; subst ci. rewrite Hb in Hbi. inversion Hbi; subst bi.
    exists c', b'. rewrite list_lookup_insert_eq by exact Hi. rewrite Hbm.
    rewrite list_lookup_insert_eq by exact Hlt. auto.
  - rewrite list_lookup_insert_ne by exact Hne0.
    destruct (decide (VertCap.bm ci = VertCap.bm c)) as [Heq|Hneq].
    + rewrite Heq in *. rewrite Hb in Hbi. inversion Hbi; subst bi.
      exists c, b'. rewrite list_lookup_insert_eq by exact Hlt. auto.
    + exists c, b. rewrite list_lookup_insert_ne by exact Hneq. auto.
Qed.

(** ** What a build keeps of its meshes *)

Section WorldInvariant.

Context (J : BMesh.t → Prop).
Hypothesis Hv : ∀ p b, J b → J (BMesh.verts_new p b).2.
Hypothesis Hf : ∀ vs b, J b → J (BMesh.faces_new vs b).2.
Hypothesis He : ∀ x y b, J b → J (BMesh.edges_get x y b).2.
Hypothesis Hc : ∀ e value b, J b → J (BMesh.set_crease e value b).2.


Lemma with_cap_keeps_meshes {A} i (body : M VertCap.St A) w :
  (∀ s, J s.2 → J (body s).2.2) → meshes_keep J w → meshes_keep J (with_cap i body w).2.
Proof.
  intros Hbody Hw. unfold with_cap.
  destruct (vert_caps w !! i) as [c|]; [ | exact Hw].
  destruct (bmeshes w !! VertCap.bm c) as [b|] eqn:Hb; [ | exact Hw].
  specialize (Hbody (c, b)). destruct (body (c, b)) as [r [c' b']].
  unfold meshes_keep. cbn. apply Forall_insert; [exact Hw | ].
  apply Hbody. apply (proj1 (Forall_lookup _ _) Hw _ _ Hb).
Qed.

Lemma with_connector_keeps_meshes {A} j (body : M ProfileConnector.St A) w :
  (∀ s, J s.2 → J (body s).2.2) → meshes_keep J w → meshes_keep J (with_connector j body w).2.
Proof.
  intros Hbody Hw. unfold with_connector.
  destruct (profile_connectors w !! j) as [c|]; [ | exact Hw].
  destruct (bmeshes w !! pc_bm c) as [b|] eqn:Hb; [ | exact Hw].
  specialize (Hbody (c, b)). destruct (body (c, b)) as [r [c' b']].
  unfold meshes_keep. cbn. apply Forall_insert; [exact Hw | ].
  apply Hbody. apply (proj1 (Forall_lookup _ _) Hw _ _ Hb).
Qed.

Lemma create_vert_caps_keeps_meshes bm w :
  meshes_keep J w → meshes_keep J (WireSkin.create_vert_caps bm w).2.
Proof.
  intros Hw. unfold WireSkin.create_vert_caps. rewrite bind_gets.
  apply (for_each_keeps (meshes_keep J)); [ | exact Hw]. intros v s _ Hs.
  apply (bind_keeps (meshes_keep J)); [exact Hs | ]. intros c s1 Hs1. exact Hs1.
Qed.

Lemma add_edges_keeps_meshes w :
  meshes_keep J w → meshes_keep J (WireSkin.add_edges_to_vert_caps w).2.
Proof.
  intros Hw. unfold WireSkin.add_edges_to_vert_caps. rewrite bind_gets.
  apply (for_each_keeps (meshes_keep J)); [ | exact Hw]. intros [k [a b]] s _ Hs.
  apply (for_each_keeps (meshes_keep J)); [ | exact Hs]. intros [this other] s1 _ Hs1.
  apply (bind_keeps (meshes_keep J)); [exact Hs1 | ]. intros co s2 Hs2.
  apply with_cap_keeps_meshes; [ | exact Hs2]. intros s3 H3. exact H3.
Qed.

Lemma poles_keeps_meshes w :
  meshes_keep J w → meshes_keep J (WireSkin.create_vert_cap_poles w).2.
Proof.
  intros Hw. unfold WireSkin.create_vert_cap_poles.
  apply (for_each_vert_cap_keeps (meshes_keep J)); [ | exact Hw]. intros i s Hs.
  apply with_cap_keeps_meshes; [ | exact Hs]. apply create_pole_verts_keeps_mesh. exact Hv.
Qed.

Lemma profiles_keeps_meshes atan2 w :
  meshes_keep J w → meshes_keep J (WireSkin.create_vert_cap_profiles atan2 w).2.
Proof.
  intros Hw. unfold WireSkin.create_vert_cap_profiles.
  apply (for_each_vert_cap_keeps (meshes_keep J)); [ | exact Hw]. intros i s Hs.
  rewrite bind_gets. apply with_cap_keeps_meshes; [ | exact Hs].
  apply create_profiles_keeps_mesh. exact Hv.
Qed.

Lemma faces_keeps_meshes w :
  meshes_keep J w → meshes_keep J (WireSkin.create_vert_cap_faces w).2.
Proof.
  intros Hw. unfold WireSkin.create_vert_cap_faces.
  apply (for_each_vert_cap_keeps (meshes_keep J)); [ | exact Hw]. intros i s Hs.
  apply (bind_keeps (meshes_keep J)).
  - apply with_cap_keeps_meshes; [ | exact Hs]. apply create_pole_faces_keeps_mesh. exact Hf.
  - intros _ s1 Hs1. apply with_cap_keeps_meshes; [ | exact Hs1].
    apply create_inter_profile_faces_keeps_mesh; assumption.
Qed.

Lemma connect_keeps_meshes bm w :
  meshes_keep J w → meshes_keep J (WireSkin.connect_profiles bm w).2.
Proof.
  intros Hw. unfold WireSkin.connect_profiles. rewrite bind_gets.
  apply (for_each_keeps (meshes_keep J)); [ | exact Hw]. intros [k ab] s _ Hs.
  rewrite bind_gets. apply (bind_keeps (meshes_keep J)); [exact Hs | ]. intros _ s1 Hs1.
  rewrite bind_gets. apply with_connector_keeps_meshes; [ | exact Hs1].
  apply join_profiles_keeps_mesh; assumption.
Qed.

Lemma crease_keeps_meshes w :
  meshes_keep J w → meshes_keep J (WireSkin.crease_edges w).2.
Proof.
  intros Hw. unfold WireSkin.crease_edges. rewrite bind_gets.
  destruct (crease_layer w); [ | exact Hw].
  apply (bind_keeps (meshes_keep J)).
  - apply (for_each_vert_cap_keeps (meshes_keep J)); [ | exact Hw]. intros i s Hs.
    apply with_cap_keeps_meshes; [ | exact Hs]. apply cap_crease_edges_keeps_mesh. exact Hc.
  - intros _ s1 Hs1. rewrite bind_gets. apply (for_each_keeps (meshes_keep J)); [ | exact Hs1].
    intros j s _ Hs. apply with_connector_keeps_meshes; [ | exact Hs].
    apply connector_crease_edges_keeps_mesh. exact Hc.
Qed.

End WorldInvariant.

(** ** The crease layer of the store *)

Lemma with_cap_crease_layer {A} i (body : M VertCap.St A) w :
  crease_layer (with_cap i body w).2 = crease_layer w.
Proof.
  unfold with_cap. destruct (vert_caps w !! i) as [c|]; [ | reflexivity].
  destruct (bmeshes w !! VertCap.bm c) as [b|]; [ | reflexivity].
  destruct (body (c, b)) as [r [c' b']]. reflexivity.
Qed.

Lemma with_connector_crease_layer {A} j (body : M ProfileConnector.St A) w :
  crease_layer (with_connector j body w).2 = crease_layer w.
Proof.
  unfold with_connector. destruct (profile_connectors w !! j) as [c|]; [ | reflexivity].
  destruct (bmeshes w !! pc_bm c) as [b|]; [ | reflexivity].
  destruct (body (c, b)) as [r [c' b']]. reflexivity.
Qed.

Lemma for_each_vert_cap_crease_layer body cl w :
  (∀ i s, crease_layer (body i s).2 = crease_layer s) →
  crease_layer w = cl → crease_layer (WireSkin.for_each_vert_cap body w).2 = cl.
Proof.
  intros Hbody. apply (for_each_vert_cap_keeps (λ s, crease_layer s = cl)).
  intros i s Hs. rewrite Hbody. exact Hs.
Qed.

Lemma create_vert_caps_crease_layer bm cl w :
  crease_layer w = cl → crease_layer (WireSkin.create_vert_caps bm w).2 = cl.
Proof.
  intros Hw. unfold WireSkin.create_vert_caps. rewrite bind_gets.
  apply (for_each_keeps (λ s, crease_layer s = cl)); [ | exact Hw]. intros v s _ Hs.
  apply (bind_keeps (λ s, crease_layer s = cl)); [exact Hs | ]. intros c s1 Hs1. exact Hs1.
Qed.

Lemma add_edges_crease_layer cl w :
  crease_layer w = cl → crease_layer (WireSkin.add_edges_to_vert_caps w).2 = cl.
Proof.
  intros Hw. unfold WireSkin.add_edges_to_vert_caps. rewrite bind_gets.
  apply (for_each_keeps (λ s, crease_layer s = cl)); [ | exact Hw]. intros [k [a b]] s _ Hs.
  apply (for_each_keeps (λ s, crease_layer s = cl)); [ | exact Hs]. intros [this other] s1 _ Hs1.
  apply (bind_keeps (λ s, crease_layer s = cl)); [exact Hs1 | ]. intros co s2 Hs2.
  rewrite with_cap_crease_layer. exact Hs2.
Qed.

Lemma connect_crease_layer bm cl w :
  crease_layer w = cl → crease_layer (WireSkin.connect_profiles bm w).2 = cl.
Proof.
  intros Hw. unfold WireSkin.connect_profiles. rewrite bind_gets.
  apply (for_each_keeps (λ s, crease_layer s = cl)); [ | exact Hw]. intros [k ab] s _ Hs.
  rewrite bind_gets. apply (bind_keeps (λ s, crease_layer s = cl)); [exact Hs | ].
  intros _ s1 Hs1. rewrite bind_gets, with_connector_crease_layer. exact Hs1.
Qed.

Lemma uncreased_verts_new p b : uncreased b → uncreased (BMesh.verts_new p b).2.
Proof.
  intros H. unfold BMesh.verts_new, BMesh.check_valid. unfold bind, gets, modify, ret, raise.
  destruct (BMesh.is_valid b); exact H.
Qed.

Lemma uncreased_ensure es l :
  Forall (λ e, BMesh.crease e = None) es →
  Forall (λ e, BMesh.crease e = None) (foldl BMesh.ensure_edge es l).
Proof.
  revert es. induction l as [|xy l IH]; intros es H; cbn; [exact H | ].
  apply IH. unfold BMesh.ensure_edge. destruct (BMesh.find_edge _ _ _ _); [exact H | ].
  apply Forall_app. split; [exact H | repeat constructor].
Qed.

Lemma uncreased_faces_new vs b : uncreased b → uncreased (BMesh.faces_new vs b).2.
Proof.
  intros [H1 H2]. unfold BMesh.faces_new, BMesh.check_valid. unfold bind, gets, modify, ret, raise.
  destruct (BMesh.is_valid b); [ | split; assumption].
  split; [exact H1 | ]. cbn. apply uncreased_ensure. exact H2.
Qed.

Lemma uncreased_edges_get x y b : uncreased b → uncreased (BMesh.edges_get x y b).2.
Proof.
  intros H. unfold BMesh.edges_get, BMesh.check_valid. unfold bind, gets, modify, ret, raise.
  destruct (BMesh.is_valid b); exact H.
Qed.

Lemma run_keeps {S A} (I : S → Prop) (m : M S A) s r s' : m s = (r, s') → I (m s).2 → I s'.
Proof. intros ->. auto. Qed.

(** X8.  When no crease value is configured ([crease] absent or [None]), a
    build of a new [WireSkin] that returns normally returns a mesh without a
    crease layer and without a crease value on any edge. *)
Theorem no_crease_without_option (atan2 : float → float → float) (m : Mesh) (kw : Kwargs)
    (me : BMesh.t) (w' : World) :
  kw_crease kw = None ∨ kw_crease kw = Some None →
  WireSkin.create_mesh atan2 (WireSkin.init m kw) = (Ok me, w') →
  BMesh.has_crease_layer me = false
  ∧ Forall (λ e, BMesh.crease e = None) (BMesh.edges me).
Proof.
  intros Hkw H. rewrite create_mesh_unfold in H.
  change (length (bmeshes (WireSkin.init m kw))) with 0 in H.
  assert (prepared (WireSkin.init m kw) = mkWorld [BMesh.new] m kw None [] []) as Hprep.
  { unfold prepared, WireSkin.init. cbn. destruct Hkw as [-> | ->]; reflexivity. }
  rewrite Hprep in H. clear Hprep. unfold phases in H.
  pose (I := λ s, crease_layer s = None ∧ meshes_keep uncreased s).
  assert (I (mkWorld [BMesh.new] m kw None [] [])) as H0.
  { split; [reflexivity | ]. repeat constructor. }
  apply bind_ok in H as ([] & w1 & H1 & H).
  apply (run_keeps I) in H1 as [L1 K1];
    [ | split; [apply create_vert_caps_crease_layer | apply create_vert_caps_keeps_meshes];
        apply H0].
  apply bind_ok in H as ([] & w2 & H2 & H).
  apply (run_keeps I) in H2 as [L2 K2];
    [ | split; [apply add_edges_crease_layer | apply add_edges_keeps_meshes]; assumption].
  apply bind_ok in H as ([] & w3 & H3 & H).
  apply (run_keeps I) in H3 as [L3 K3].
  2: { split; [ | apply poles_keeps_meshes; [apply uncreased_verts_new | exact K2]].
       apply for_each_vert_cap_crease_layer; [ | exact L2].
       intros i s. apply with_cap_crease_layer. }
  apply bind_ok in H as ([] & w4 & H4 & H).
  apply (run_keeps I) in H4 as [L4 K4].
  2: { split; [ | apply profiles_keeps_meshes; [apply uncreased_verts_new | exact K3]].
       apply for_each_vert_cap_crease_layer; [ | exact L3].
       intros i s. rewrite bind_gets. apply with_cap_crease_layer. }
  apply bind_ok in H as ([] & w5 & H5 & H).
  apply (run_keeps I) in H5 as [L5 K5].
  2: { split; [ | apply faces_keeps_meshes;
                    [apply uncreased_faces_new | apply uncreased_edges_get | exact K4]].
       apply for_each_vert_cap_crease_layer; [ | exact L4].
       intros i s. unfold bind. rewrite <- (with_cap_crease_layer i VertCap.create_pole_faces s).
       destruct (with_cap i VertCap.create_pole_faces s) as [[[]|e] s1]; [ | reflexivity].
       apply with_cap_crease_layer. }
  apply bind_ok in H as ([] & w6 & H6 & H).
  apply (run_keeps I) in H6 as [L6 K6].
  2: { split; [apply connect_crease_layer; exact L5 | ].
       apply connect_keeps_meshes; [apply uncreased_faces_new | apply uncreased_edges_get | ].
       exact K5. }
  apply bind_ok in H as ([] & w7 & H7 & H).
  unfold WireSkin.crease_edges in H7. rewrite bind_gets, L6 in H7.
  assert (w7 = w6) as -> by (inversion H7; reflexivity). clear H7.
  apply bind_ok in H as (me' & w8 & Hcopy & H).
  apply bind_ok in H as ([] & w9 & _ & H).
  assert (me' = me) as -> by (inversion H; reflexivity). clear H.
  unfold on_bmesh in Hcopy. destruct (bmeshes w6 !! 0) as [b|] eqn:Hb; [ | discriminate].
  apply (proj1 (Forall_lookup _ _) K6) in Hb.
  unfold BMesh.to_mesh, BMesh.check_valid in Hcopy. unfold bind, gets, ret, raise in Hcopy.
  destruct (BMesh.is_valid b); [ | discriminate]. unfold id in Hcopy.
  inversion Hcopy; subst. exact Hb.
Qed.

Lemma no_crease_without_option_witness :
  (kw_crease Examples.kw_full = None ∨ kw_crease Examples.kw_full = Some None)
  ∧ WireSkin.create_mesh Atan2.atan2 (WireSkin.init Examples.mesh_corner Examples.kw_full)
    = (Ok Examples.corner_skin, Examples.corner_run.2)
  ∧ BMesh.has_crease_layer Examples.corner_skin = false
  ∧ Forall (λ e, BMesh.crease e = None) (BMesh.edges Examples.corner_skin).
Proof.
  assert (Hkw : kw_crease Examples.kw_full = None ∨ kw_crease Examples.kw_full = Some None)
    by (left; reflexivity).
  assert (Hrun : WireSkin.create_mesh Atan2.atan2
                   (WireSkin.init Examples.mesh_corner Examples.kw_full)
                 = (Ok Examples.corner_skin, Examples.corner_run.2))
    by (vm_compute; reflexivity).
  split; [exact Hkw | ]. split; [exact Hrun | ].
  exact (no_crease_without_option _ _ _ _ _ Hkw Hrun).
Defined.

(** ** A second build *)

Lemma prepared_keeps_stranded i0 w : stranded i0 w → stranded i0 (prepared w).
Proof.
  intros (c & b & Hc & Hne & Hb & Hv). exists c, b. unfold prepared.
  destruct (kw_crease (kwargs w)) as [[v|]|]; cbn;
    (split; [exact Hc | ]; split; [exact Hne | ]; split; [ | exact Hv];
     apply lookup_app_l_Some; exact Hb).
Qed.

Lemma create_vert_caps_keeps_stranded i0 bm w :
  stranded i0 w → stranded i0 (WireSkin.create_vert_caps bm w).2.
Proof.
  intros Hw. unfold WireSkin.create_vert_caps. rewrite bind_gets.
  apply (for_each_keeps (stranded i0)); [ | exact Hw]. intros v s _ Hs.
  apply (bind_keeps (stranded i0)); [exact Hs | ].
  intros c0 s1 (c & b & Hc & Hne & Hb & Hv). exists c, b. cbn.
  split; [apply lookup_app_l_Some; exact Hc | auto].
Qed.

Lemma add_edges_keeps_stranded i0 w :
  stranded i0 w → stranded i0 (WireSkin.add_edges_to_vert_caps w).2.
Proof.
  intros Hw. unfold WireSkin.add_edges_to_vert_caps. rewrite bind_gets.
  apply (for_each_keeps (stranded i0)); [ | exact Hw]. intros [k [a b]] s _ Hs.
  apply (for_each_keeps (stranded i0)); [ | exact Hs]. intros [this other] s1 _ Hs1.
  apply (bind_keeps (stranded i0)); [exact Hs1 | ]. intros co s2 Hs2.
  apply with_cap_keeps_stranded; [ | | exact Hs2].
  - intros k0 P s3. apply add_edge_vert_anchored.
  - intros s3 H3. exact H3.
Qed.

Lemma poles_keeps_stranded i0 w :
  stranded i0 w → stranded i0 (WireSkin.create_vert_cap_poles w).2.
Proof.
  intros Hw. unfold WireSkin.create_vert_cap_poles.
  apply (for_each_vert_cap_keeps (stranded i0)); [ | exact Hw]. intros i s Hs.
  apply with_cap_keeps_stranded; [ | | exact Hs].
  - intros k0 P s3. apply create_pole_verts_anchored.
  - intros s3. apply (create_pole_verts_keeps_mesh (λ b, BMesh.is_valid b = false)).
    apply verts_new_freed.
Qed.

Lemma profile_keeps_stranded atan2 i0 i w :
  stranded i0 w →
  stranded i0 (bind (gets vert_caps)
                 (λ caps, with_cap i (VertCap.create_profiles atan2 caps)) w).2.
Proof.
  intros Hw. rewrite bind_gets. apply with_cap_keeps_stranded; [ | | exact Hw].
  - intros k0 P s3. apply create_profiles_anchored.
  - intros s3. apply (create_profiles_keeps_mesh (λ b, BMesh.is_valid b = false)).
    apply verts_new_freed.
Qed.

Lemma create_profile_needs_live_mesh ev o c b s' :
  VertCap.create_profile ev o (c, b) = (Ok tt, s') → BMesh.is_valid b = true.
Proof.
  unfold VertCap.create_profile. rewrite bind_self. intros H.
  apply bind_lift_ok in H as (dist & _ & H).
  apply bind_ok in H as (vpole & s1 & H1 & H).
  assert (s1 = (c, b)) as ->.
  { destruct (PrimFloat.ltb _ _).
    - apply bind_lift_ok in H1 as (? & _ & H1). apply bind_lift_ok in H1 as (? & _ & H1).
      apply bind_lift_ok in H1 as (? & _ & H1). inversion H1; reflexivity.
    - inversion H1; reflexivity. }
  apply bind_lift_ok in H as (vp & _ & H).
  apply bind_on_bm_ok in H as (v1 & b1 & Hb1 & _). apply verts_new_ok in Hb1 as [Hv _].
  exact Hv.
Qed.

Lemma create_profiles_needs_live_mesh atan2 caps c b s' :
  VertCap.create_profiles atan2 caps (c, b) = (Ok tt, s') →
  VertCap.input_edge_verts c ≠ [] → BMesh.is_valid b = true.
Proof.
  unfold VertCap.create_profiles. rewrite bind_self. intros H Hne.
  destruct (Nat.eqb_spec (length (VertCap.input_edge_verts c)) 0) as [Hn|Hn].
  { destruct (VertCap.input_edge_verts c); [congruence | discriminate]. }
  apply bind_ok in H as ([] & [c1 b1] & Hr & H).
  apply reorder_edge_verts_ok in Hr as (-> & l & -> & Hle & Hlt & Hge).
  rewrite bind_self in H. cbn [VertCap.input_edge_verts VertCap.set_input_edge_verts] in H.
  destruct l as [|ev l].
  { exfalso. destruct (Nat.lt_ge_cases (length (VertCap.input_edge_verts c)) 2) as [H2|H2].
    - rewrite <- (Hlt H2) in Hn. cbn in Hn. lia.
    - apply Hge in H2 as [H2 _]. cbn in H2. lia. }
  cbn [for_each] in H. apply bind_ok in H as ([] & s1 & H1 & _).
  apply bind_lift_ok in H1 as (other & _ & H1).
  eapply create_profile_needs_live_mesh. exact H1.
Qed.

(** [create_mesh] does not return normally while a cap with a registered
    edge sits on a freed mesh. *)
Lemma stranded_build_fails atan2 i0 w :
  stranded i0 w → ∃ e, (WireSkin.create_mesh atan2 w).1 = Raise e.
Proof.
  intros Hw. destruct (WireSkin.create_mesh atan2 w) as [[me|e] w'] eqn:H; [ | eauto].
  exfalso. rewrite create_mesh_unfold in H. unfold phases in H.
  apply prepared_keeps_stranded in Hw.
  apply bind_ok in H as ([] & w1 & H1 & H).
  apply (run_keeps (stranded i0)) in H1; [ | apply create_vert_caps_keeps_stranded; exact Hw].
  apply bind_ok in H as ([] & w2 & H2 & H).
  apply (run_keeps (stranded i0)) in H2; [ | apply add_edges_keeps_stranded; exact H1].
  apply bind_ok in H as ([] & w3 & H3 & H).
  apply (run_keeps (stranded i0)) in H3; [ | apply poles_keeps_stranded; exact H2].
  apply bind_ok in H as ([] & w4 & H4 & _).
  unfold WireSkin.create_vert_cap_profiles, WireSkin.for_each_vert_cap in H4.
  rewrite bind_gets in H4.
  assert (i0 < length (vert_caps w3)) as Hi0.
  { destruct H3 as (c & b & Hc & _). eapply lookup_lt_Some. exact Hc. }
  replace (length (vert_caps w3)) with (i0 + S (length (vert_caps w3) - S i0)) in H4 by lia.
  rewrite seq_app, for_each_app in H4. cbn [seq Nat.add for_each] in H4.
  apply bind_ok in H4 as ([] & w3a & Hpre & H4).
  apply (run_keeps (stranded i0)) in Hpre.
  2: { apply (for_each_keeps (stranded i0)); [ | exact H3]. intros i s _ Hs.
       apply profile_keeps_stranded. exact Hs. }
  apply bind_ok in H4 as ([] & w3b & Hat & _).
  rewrite bind_gets in Hat.
  apply with_cap_ok in Hat as (c & b & c' & b' & Hc & Hb & Hrun & _).
  destruct Hpre as (c0 & b0 & Hc0 & Hne & Hb0 & Hv).
  rewrite Hc in Hc0. inversion Hc0; subst c0. rewrite Hb in Hb0. inversion Hb0; subst b0.
  apply create_profiles_needs_live_mesh in Hrun; [ | exact Hne]. congruence.
Qed.

Lemma verts_kept_by_faces_new vs0 vs b :
  BMesh.verts b = vs0 → BMesh.verts (BMesh.faces_new vs b).2 = vs0.
Proof.
  intros H. unfold BMesh.faces_new, BMesh.check_valid. unfold bind, gets, modify, ret, raise.
  destruct (BMesh.is_valid b); exact H.
Qed.

Lemma verts_kept_by_edges_get vs0 x y b :
  BMesh.verts b = vs0 → BMesh.verts (BMesh.edges_get x y b).2 = vs0.
Proof.
  intros H. unfold BMesh.edges_get, BMesh.check_valid. unfold bind, gets, modify, ret, raise.
  destruct (BMesh.is_valid b); exact H.
Qed.

Lemma verts_kept_by_set_crease vs0 e value b :
  BMesh.verts b = vs0 → BMesh.verts (BMesh.set_crease e value b).2 = vs0.
Proof.
  intros H. unfold BMesh.set_crease, BMesh.check_valid. unfold bind, gets, modify, ret, raise.
  destruct (BMesh.is_valid b); exact H.
Qed.

(** The course of a build of a new [WireSkin] that returns normally. *)
Lemma build_ok atan2 m kw me w' :
  (∀ x y, (x, y) ∈ mesh_edges m → x ≠ y) →
  WireSkin.create_mesh atan2 (WireSkin.init m kw) = (Ok me, w') →
  ∃ cl b0 caps2 b3 caps3 b4 caps4 caps5 pcs walls,
    w' = mkWorld [BMesh.mk false (BMesh.verts me) (BMesh.edges me) (BMesh.faces me)
                    (BMesh.has_crease_layer me)] m kw cl caps5 pcs
    ∧ BMesh.verts b0 = []
    ∧ Forall untouched caps2 ∧ length caps2 = length (vertices m)
    ∧ (∀ v c, caps2 !! v = Some c → length (VertCap.input_edge_verts c) = degree m v)
    ∧ WireSkin.create_vert_cap_poles (mkWorld [b0] m kw cl caps2 [])
      = (Ok tt, mkWorld [b3] m kw cl caps3 [])
    ∧ Forall2 poled caps2 caps3 ∧ on_mesh_0 caps3
    ∧ WireSkin.create_vert_cap_profiles atan2 (mkWorld [b3] m kw cl caps3 [])
      = (Ok tt, mkWorld [b4] m kw cl caps4 [])
    ∧ Forall2 profiled caps3 caps4
    ∧ Forall2 faced caps4 caps5 ∧ on_mesh_0 caps5
    ∧ BMesh.verts me = BMesh.verts b4
    ∧ BMesh.faces me = flat_map intra_cap_faces caps5 ++ walls
    ∧ Forall (wall_of caps5) walls
    ∧ ∀ j x y, mesh_edges m !! j = Some (x, y) →
        ∃ cx cy, caps5 !! x = Some cx ∧ caps5 !! y = Some cy
                 ∧ is_Some (VertCap.edge_profile_map cx !! j)
                 ∧ is_Some (VertCap.edge_profile_map cy !! j).
Proof.
  intros Hloop H. rewrite create_mesh_unfold in H.
  change (length (bmeshes (WireSkin.init m kw))) with 0 in H.
  destruct (prepared_init m kw) as (b0 & cl & Hprep & Hf0). rewrite Hprep in H.
  assert (BMesh.verts b0 = []) as Hv0.
  { unfold prepared, WireSkin.init in Hprep. cbn in Hprep.
    destruct (kw_crease kw) as [[x|]|]; inversion Hprep; reflexivity. }
  clear Hprep. unfold phases in H.
  apply bind_ok in H as ([] & w1 & H1 & H).
  apply create_vert_caps_ok in H1 as (caps1 & -> & Hlen1 & Hall1).
  apply bind_ok in H as ([] & w2 & H2 & H).
  apply add_edges_ok in H2 as (caps2 & -> & Hlen2 & Hu2 & Hdeg); [ | exact Hloop | exact Hall1].
  apply bind_ok in H as ([] & w3 & H3 & H).
  pose proof H3 as H3'.
  apply poles_ok in H3' as (b3 & caps3 & -> & HQ3 & H03 & Hf3); [ | exact Hu2].
  apply bind_ok in H as ([] & w4 & H4 & H).
  pose proof H4 as H4'.
  apply profiles_ok in H4' as (b4 & caps4 & -> & HQ4 & H04 & Hf4); [ | exact H03 | ].
  2: { apply Forall_lookup. intros i c3 Hc3.
       destruct (Forall2_lookup_r _ _ _ _ _ HQ3 Hc3) as (c2 & _ & (_ & Hp & Hm & _)). auto. }
  apply bind_ok in H as ([] & w5 & H5 & H).
  pose proof H5 as H5'.
  apply faces_ok in H5' as (b5 & caps5 & -> & HQ5 & H05 & Hf5); [ | exact H04 | ].
  2: { apply Forall_lookup. intros i c4 Hc4.
       destruct (Forall2_lookup_r _ _ _ _ _ HQ4 Hc4) as (c3 & Hc3 & Hprof).
       destruct (Forall2_lookup_r _ _ _ _ _ HQ3 Hc3) as (c2 & Hc2 & Hpoled).
       apply (ready_of c2 c3 c4); [ | exact Hpoled | exact Hprof].
       apply (proj1 (Forall_lookup _ _) Hu2 i c2 Hc2). }
  apply bind_ok in H as ([] & w6 & H6 & H).
  pose proof H6 as H6'.
  apply connect_profiles_ok in H6' as (b6 & pcs & walls0 & -> & H0p & _ & _ & Hkeys).
  pose proof H6 as H6''.
  apply connect_profiles_inv in H6'' as (b6' & pcs' & walls & E6 & _ & Hf6 & Hwalls).
  inversion E6; subst b6' pcs'. clear E6.
  apply bind_ok in H as ([] & w7 & H7 & H).
  pose proof H7 as H7'.
  apply crease_edges_ok in H7' as (b7 & -> & Hf7); [ | exact H05 | exact H0p].
  (* the vertices after the profile phase *)
  pose (J := λ b, BMesh.verts b = BMesh.verts b4).
  assert (meshes_keep J (mkWorld [b4] m kw cl caps4 [])) as K4 by (repeat constructor).
  apply (run_keeps (meshes_keep J)) in H5.
  2: { apply faces_keeps_meshes;
         [intros; apply verts_kept_by_faces_new; assumption
         | intros; apply verts_kept_by_edges_get; assumption | exact K4]. }
  apply (run_keeps (meshes_keep J)) in H6.
  2: { apply connect_keeps_meshes;
         [intros; apply verts_kept_by_faces_new; assumption
         | intros; apply verts_kept_by_edges_get; assumption | exact H5]. }
  apply (run_keeps (meshes_keep J)) in H7.
  2: { apply crease_keeps_meshes;
         [intros; apply verts_kept_by_set_crease; assumption | exact H6]. }
  apply Forall_inv in H7. unfold J in H7.
  (* the last step *)
  unfold on_bmesh, BMesh.to_mesh, BMesh.free, BMesh.check_valid in H.
  unfold bind, gets, modify, ret, raise in H. cbn in H.
  destruct (BMesh.is_valid b7) eqn:Hvalid; cbn in H; [ | discriminate].
  inversion H; subst me w'. clear H.
  exists cl, b0, caps2, b3, caps3, b4, caps4, caps5, pcs, walls.
  split; [reflexivity | ]. split; [exact Hv0 | ]. split; [exact Hu2 | ].
  split; [congruence | ]. split; [exact Hdeg | ]. split; [exact H3 | ]. split; [exact HQ3 | ]. split; [exact H03 | ].
  split; [exact H4 | ]. split; [exact HQ4 | ]. split; [exact HQ5 | ]. split; [exact H05 | ].
  split; [exact H7 | ]. split; [ | split; [exact Hwalls | exact Hkeys]].
  rewrite Hf7, Hf6, Hf5, Hf4, Hf3, Hf0. reflexivity.
Qed.

(** X9.  A [WireSkin] builds once: after a call of [create_mesh] that
    returned normally on a wireframe with at least one edge (and no edge from
    a vertex to itself), a second call on the same object raises an
    exception, because the caps of the first call still work on the mesh that
    the first call freed. *)
Theorem no_second_build (atan2 : float → float → float) (m : Mesh) (kw : Kwargs)
    (me : BMesh.t) (w1 : World) :
  (∀ x y, (x, y) ∈ mesh_edges m → x ≠ y) →
  mesh_edges m ≠ [] →
  WireSkin.create_mesh atan2 (WireSkin.init m kw) = (Ok me, w1) →
  ∃ e, (WireSkin.create_mesh atan2 w1).1 = Raise e.
Proof.
  intros Hloop Hne H.
  destruct (build_ok atan2 m kw me w1 Hloop H)
    as (cl & b0 & caps2 & b3 & caps3 & b4 & caps4 & caps5 & pcs & walls & -> & _ & _ & _ & _ & _
        & _ & _ & _ & HQ4 & HQ5 & H05 & _ & _ & _ & Hkeys).
  destruct (mesh_edges m) as [|[x y] es] eqn:Hes; [congruence | ].
  destruct (Hkeys 0 x y eq_refl) as (cx & cy & Hcx & _ & Hex & _).
  apply (stranded_build_fails atan2 x).
  destruct (Forall2_lookup_r _ _ _ _ _ HQ5 Hcx) as (c4 & Hc4 & ([ce Hce] & _)).
  destruct (Forall2_lookup_r _ _ _ _ _ HQ4 Hc4) as (c3 & _ & Hprof).
  destruct Hprof as (_ & _ & _ & _ & _ & _ & Hmap).
  exists cx, (BMesh.mk false (BMesh.verts me) (BMesh.edges me) (BMesh.faces me)
                (BMesh.has_crease_layer me)).
  cbn [vert_caps bmeshes]. split; [exact Hcx | ].
  rewrite (proj1 (Forall_lookup _ _) H05 x cx Hcx).
  split; [ | split; reflexivity].
  subst cx. cbn in Hex |- *. apply Hmap in Hex. intros Hnil. rewrite Hnil in Hex.
  apply elem_of_nil in Hex. exact Hex.
Qed.

Lemma no_second_build_witness :
  (∀ x y, (x, y) ∈ mesh_edges Examples.mesh_segment → x ≠ y)
  ∧ mesh_edges Examples.mesh_segment ≠ []
  ∧ WireSkin.create_mesh Atan2.atan2 (WireSkin.init Examples.mesh_segment Examples.kw_full)
    = (Ok Examples.segment_skin, Examples.segment_run.2)
  ∧ ∃ e, (WireSkin.create_mesh Atan2.atan2 Examples.segment_run.2).1 = Raise e.
Proof.
  assert (Hloop : ∀ x y, (x, y) ∈ mesh_edges Examples.mesh_segment → x ≠ y).
  { intros x y Hxy. cbn in Hxy. apply list_elem_of_singleton in Hxy.
    inversion Hxy; subst. lia. }
  assert (Hne : mesh_edges Examples.mesh_segment ≠ []) by discriminate.
  assert (Hrun : WireSkin.create_mesh Atan2.atan2
                   (WireSkin.init Examples.mesh_segment Examples.kw_full)
                 = (Ok Examples.segment_skin, Examples.segment_run.2))
    by (vm_compute; reflexivity).
  split; [exact Hloop | ]. split; [exact Hne | ]. split; [exact Hrun | ].
  exact (no_second_build _ _ _ _ _ Hloop Hne Hrun).
Defined.

(** ** The vertices of a build *)

Lemma create_pole_verts_verts c b c' b' :
  VertCap.create_pole_verts (c, b) = (Ok tt, (c', b')) →
  VertCap.poles c = [] →
  BMesh.verts b' = BMesh.verts b ++ VertCap.poles c'.
Proof.
  unfold VertCap.create_pole_verts. rewrite bind_self. intros H Hp.
  destruct (Nat.eqb (length (VertCap.input_edge_verts c)) 0).
  { inversion H; subst. rewrite Hp, app_nil_r. reflexivity. }
  apply bind_lift_ok in H as (vave & _ & H).
  destruct (PrimFloat.ltb _ (Vec.magnitude vave)).
  2: { inversion H; subst. rewrite Hp, app_nil_r. reflexivity. }
  apply bind_ok in H as (nv & s2 & H2 & H).
  assert (s2 = (c, b)) as ->.
  { destruct (Nat.ltb _ 3).
    - inversion H2; reflexivity.
    - apply bind_lift_ok in H2 as (x & _ & H2). inversion H2; reflexivity. }
  clear H2. rewrite bind_update in H.
  apply bind_ok in H as (scale & s4 & H4 & H).
  assert (s4 = (VertCap.set_normal (Some nv) c, b)) as ->.
  { destruct (VertCap.proportional_scale c).
    - apply bind_lift_ok in H4 as (x & _ & H4). inversion H4; reflexivity.
    - inversion H4; reflexivity. }
  clear H4.
  apply bind_on_bm_ok in H as (v1 & b5 & H5 & H). apply verts_new_ok in H5 as (_ & _ & _ & Hv5).
  rewrite bind_update in H.
  destruct (Nat.ltb 1 (length (VertCap.input_edge_verts c))).
  - apply bind_on_bm_ok in H as (v2 & b7 & H7 & H). apply verts_new_ok in H7 as (_ & _ & _ & Hv7).
    apply update_ok in H as [-> ->]. cbn. rewrite Hv7, Hv5, Hp, <- app_assoc. reflexivity.
  - inversion H; subst. cbn. rewrite Hv5, Hp. reflexivity.
Qed.

Lemma create_profiles_verts atan2 caps c b c' b' :
  VertCap.create_profiles atan2 caps (c, b) = (Ok tt, (c', b')) →
  VertCap.profiles c = [] →
  BMesh.verts b' = BMesh.verts b ++ flat_map profile_verts (VertCap.profiles c').
Proof.
  unfold VertCap.create_profiles. rewrite bind_self. intros H Hp.
  destruct (Nat.eqb (length (VertCap.input_edge_verts c)) 0).
  { inversion H; subst. rewrite Hp. cbn. rewrite app_nil_r. reflexivity. }
  apply bind_ok in H as ([] & [c1 b1] & Hr & H).
  apply reorder_edge_verts_ok in Hr as (-> & l & -> & _).
  rewrite bind_self in H. cbn [VertCap.input_edge_verts VertCap.set_input_edge_verts] in H.
  pose (Inv := λ (k : nat) (s : VertCap.St),
          BMesh.verts s.2 = BMesh.verts b ++ flat_map profile_verts (VertCap.profiles s.1)).
  refine (for_each_ok_inv Inv l _ _ (_, b) (c', b') _ H).
  - intros k ev [cx bx] [cy by_] _ Hx Hrun. unfold Inv in *. cbn [fst snd] in *.
    apply bind_lift_ok in Hrun as (other & _ & Hrun).
    apply create_profile_inv in Hrun as (p & -> & Hv & _).
    cbn [VertCap.profiles VertCap.set_profiles]. rewrite flat_map_app. cbn [flat_map].
    rewrite app_nil_r, Hv, Hx, <- app_assoc. reflexivity.
  - unfold Inv. cbn. rewrite Hp. cbn. rewrite app_nil_r. reflexivity.
Qed.

Lemma create_profiles_map atan2 caps c b c' b' :
  VertCap.create_profiles atan2 caps (c, b) = (Ok tt, (c', b')) →
  VertCap.edge_profile_map c = ∅ →
  ∀ e p, VertCap.edge_profile_map c' !! e = Some p → p ∈ VertCap.profiles c'.
Proof.
  unfold VertCap.create_profiles. rewrite bind_self. intros H Hm.
  destruct (Nat.eqb (length (VertCap.input_edge_verts c)) 0).
  { inversion H; subst. rewrite Hm. intros e p Hp. rewrite lookup_empty in Hp. discriminate. }
  apply bind_ok in H as ([] & [c1 b1] & Hr & H).
  apply reorder_edge_verts_ok in Hr as (-> & l & -> & _).
  rewrite bind_self in H. cbn [VertCap.input_edge_verts VertCap.set_input_edge_verts] in H.
  pose (Inv := λ (k : nat) (s : VertCap.St),
          ∀ e p, VertCap.edge_profile_map s.1 !! e = Some p → p ∈ VertCap.profiles s.1).
  refine (for_each_ok_inv Inv l _ _ (_, b) (c', b') _ H).
  - intros k ev [cx bx] [cy by_] _ Hx Hrun. unfold Inv in *. cbn [fst snd] in *.
    apply bind_lift_ok in Hrun as (other & _ & Hrun).
    apply create_profile_inv in Hrun as (p & -> & _).
    cbn [VertCap.profiles VertCap.edge_profile_map VertCap.set_profiles].
    intros e q Hq. rewrite elem_of_app.
    apply lookup_insert_Some in Hq as [[_ <-]|[_ Hq]].
    + right. left.
    + left. eapply Hx. exact Hq.
  - unfold Inv. cbn. rewrite Hm. intros e p Hp. rewrite lookup_empty in Hp. discriminate.
Qed.

Lemma cap_phase_verts (Pre : VertCap.t → Prop) (Q : VertCap.t → VertCap.t → Prop)
    (T : VertCap.t → list BMesh.BMVert) (wbody : nat → M World unit) m kw cl pcs :
  (∀ i b caps c w', on_mesh_0 caps → caps !! i = Some c → Pre c →
     wbody i (mkWorld [b] m kw cl caps pcs) = (Ok tt, w') →
     ∃ c' b', w' = mkWorld [b'] m kw cl (<[i := c']> caps) pcs
              ∧ Q c c' ∧ VertCap.bm c' = 0
              ∧ BMesh.verts b' = BMesh.verts b ++ T c') →
  ∀ b caps w', on_mesh_0 caps → Forall Pre caps →
    WireSkin.for_each_vert_cap wbody (mkWorld [b] m kw cl caps pcs) = (Ok tt, w') →
    ∃ b' caps', w' = mkWorld [b'] m kw cl caps' pcs ∧ Forall2 Q caps caps'
                ∧ on_mesh_0 caps'
                ∧ BMesh.verts b' = BMesh.verts b ++ flat_map T caps'.
Proof.
  intros Hstep b caps w' H0 Hpre H. unfold WireSkin.for_each_vert_cap in H.
  rewrite bind_gets in H. cbn [vert_caps] in H.
  pose (Inv := λ (k : nat) (w : World),
          ∃ b' caps', w = mkWorld [b'] m kw cl caps' pcs ∧ on_mesh_0 caps'
                      ∧ length caps' = length caps
                      ∧ Forall2 Q (take k caps) (take k caps')
                      ∧ drop k caps' = drop k caps
                      ∧ BMesh.verts b' = BMesh.verts b ++ flat_map T (take k caps')).
  assert (Inv (length (seq 0 (length caps))) w')
    as (b' & caps' & -> & H0' & Hlen & HQ & _ & Hf).
  { refine (for_each_ok_inv Inv _ _ _ _ w' _ H).
    - intros k i w1 w2 Hk (b1 & caps1 & -> & H01 & Hlen1 & HQ1 & Hd1 & Hf1) Hrun.
      apply lookup_seq in Hk as [-> Hk]. cbn [Nat.add] in *.
      destruct (lookup_lt_is_Some_2 caps k Hk) as [c Hc].
      assert (caps1 !! k = Some c) as Hc1.
      { pose proof (lookup_drop caps1 k 0) as E1. pose proof (lookup_drop caps k 0) as E2.
        rewrite Nat.add_0_r in E1, E2. rewrite <- E1, Hd1, E2. exact Hc. }
      destruct (Hstep k b1 caps1 c w2 H01 Hc1 (proj1 (Forall_lookup _ _) Hpre k c Hc) Hrun)
        as (c' & b2 & -> & Hq & Hbm & Hf2).
      exists b2, (<[k := c']> caps1). split; [reflexivity | ].
      split; [apply Forall_insert; assumption | ].
      split; [rewrite length_insert; exact Hlen1 | ].
      assert (<[k := c']> caps1 !! k = Some c') as Hk'
        by (apply list_lookup_insert_eq; lia).
      rewrite (take_S_r _ _ _ Hc), (take_S_r _ _ _ Hk'), take_insert_ge by lia.
      split; [apply Forall2_app; [exact HQ1 | constructor; [exact Hq | constructor]] | ].
      split.
      + rewrite drop_insert_lt by lia.
        pose proof (drop_drop caps1 1 k) as E1. pose proof (drop_drop caps 1 k) as E2.
        rewrite Nat.add_comm in E1, E2. cbn [Nat.add] in E1, E2.
        rewrite <- E1, <- E2, Hd1. reflexivity.
      + rewrite flat_map_app. cbn [flat_map]. rewrite app_nil_r, Hf2, Hf1, <- app_assoc.
        reflexivity.
    - exists b, caps. cbn. rewrite app_nil_r. repeat split; auto. }
  rewrite length_seq in HQ, Hf. rewrite firstn_all in HQ. rewrite <- Hlen in HQ, Hf.
  rewrite firstn_all in HQ, Hf. exists b', caps'. auto.
Qed.

Lemma poles_verts m kw cl pcs b caps w' :
  Forall untouched caps →
  WireSkin.create_vert_cap_poles (mkWorld [b] m kw cl caps pcs) = (Ok tt, w') →
  ∃ b' caps', w' = mkWorld [b'] m kw cl caps' pcs
              ∧ BMesh.verts b' = BMesh.verts b ++ flat_map VertCap.poles caps'.
Proof.
  intros Hu H.
  destruct (cap_phase_verts untouched (λ _ _, True) VertCap.poles
              (λ i, with_cap i VertCap.create_pole_verts) m kw cl pcs) with (4 := H)
    as (b' & caps' & -> & _ & _ & Hv).
  - intros i bx capsx c wx H0 Hc (Hbm & Hp & _) Hrun.
    apply with_cap_one in Hrun as (c0 & c' & b' & Hc0 & Hrun & ->); [ | exact H0].
    rewrite Hc in Hc0. inversion Hc0; subst c0.
    pose proof (create_pole_verts_verts _ _ _ _ Hrun Hp) as Hv.
    apply create_pole_verts_ok in Hrun as (_ & Hbm' & _).
    exists c', b'. split; [reflexivity | ]. split; [exact I | ]. split; [congruence | exact Hv].
  - eapply Forall_impl; [exact Hu | intros ? HH; apply HH].
  - exact Hu.
  - eauto.
Qed.

Lemma profiles_verts atan2 m kw cl pcs b caps w' :
  on_mesh_0 caps →
  Forall (λ c, VertCap.profiles c = [] ∧ VertCap.edge_profile_map c = ∅) caps →
  WireSkin.create_vert_cap_profiles atan2 (mkWorld [b] m kw cl caps pcs) = (Ok tt, w') →
  ∃ b' caps', w' = mkWorld [b'] m kw cl caps' pcs
              ∧ Forall maps_profiles caps'
              ∧ BMesh.verts b'
                = BMesh.verts b
                  ++ flat_map (λ c, flat_map profile_verts (VertCap.profiles c)) caps'.
Proof.
  intros H0 Hu H.
  destruct (cap_phase_verts (λ c, VertCap.profiles c = [] ∧ VertCap.edge_profile_map c = ∅)
              (λ _ c', maps_profiles c') (λ c, flat_map profile_verts (VertCap.profiles c))
              (λ i, bind (gets vert_caps)
                      (λ caps, with_cap i (VertCap.create_profiles atan2 caps)))
              m kw cl pcs) with (4 := H)
    as (b' & caps' & -> & HQ & _ & Hv).
  - intros i bx capsx c wx H0x Hc (Hps & Hm) Hrun. rewrite bind_gets in Hrun.
    apply with_cap_one in Hrun as (c0 & c' & b' & Hc0 & Hrun & ->); [ | exact H0x].
    rewrite Hc in Hc0. inversion Hc0; subst c0.
    pose proof (create_profiles_verts _ _ _ _ _ _ Hrun Hps) as Hv.
    pose proof (create_profiles_map _ _ _ _ _ _ Hrun Hm) as Hmap.
    apply create_profiles_ok in Hrun as (_ & _ & Hbm & _); [ | exact Hps | exact Hm].
    exists c', b'. split; [reflexivity | ]. split; [exact Hmap | ].
    split; [ | exact Hv]. rewrite Hbm. apply (proj1 (Forall_lookup _ _) H0x i c Hc).
  - exact H0.
  - exact Hu.
  - exists b', caps'. split; [reflexivity | ]. split; [ | exact Hv].
    apply Forall_lookup. intros j c' Hc'.
    destruct (Forall2_lookup_r _ _ _ _ _ HQ Hc') as (c & _ & Hq). exact Hq.
Qed.

Lemma flat_map_Forall2 {A B C} (f : A → list C) (g : B → list C) l k :
  Forall2 (λ x y, f x = g y) l k → flat_map f l = flat_map g k.
Proof. induction 1 as [|x y l k Hxy _ IH]; cbn; [reflexivity | rewrite Hxy, IH; reflexivity]. Qed.

Lemma length_flat_map_seq {A B} (f : A → list B) (g : nat → nat) (l : list A) (j : nat) :
  (∀ i x, l !! i = Some x → length (f x) = g (j + i)) →
  length (flat_map f l) = sum_list (map g (seq j (length l))).
Proof.
  revert j. induction l as [|x l IH]; intros j H; cbn; [reflexivity | ].
  rewrite length_app, (H 0 x eq_refl), Nat.add_0_r. f_equal.
  apply IH. intros i y Hy. rewrite (H (S i) y Hy). f_equal. lia.
Qed.

(** The poles and the profiles of the caps of a build that returned. *)
Lemma build_cap_counts m caps2 caps3 caps4 caps5 :
  (∀ v c, caps2 !! v = Some c → length (VertCap.input_edge_verts c) = degree m v) →
  Forall2 poled caps2 caps3 → Forall2 profiled caps3 caps4 → Forall2 faced caps4 caps5 →
  (∀ j x y, mesh_edges m !! j = Some (x, y) →
     ∃ cx cy, caps5 !! x = Some cx ∧ caps5 !! y = Some cy
              ∧ is_Some (VertCap.edge_profile_map cx !! j)
              ∧ is_Some (VertCap.edge_profile_map cy !! j)) →
  ∀ v c, caps5 !! v = Some c →
    length (VertCap.poles c) = Nat.min (degree m v) 2
    ∧ length (VertCap.profiles c) = degree m v.
Proof.
  intros Hdeg HQ3 HQ4 HQ5 Hkeys v c5 Hc5.
  destruct (Forall2_lookup_r _ _ _ _ _ HQ5 Hc5) as (c4 & Hc4 & ([ce Hce] & Hpoles)).
  destruct (Forall2_lookup_r _ _ _ _ _ HQ4 Hc4) as (c3 & Hc3 & Hprof).
  destruct (Forall2_lookup_r _ _ _ _ _ HQ3 Hc3) as (c2 & Hc2 & Hpoled).
  destruct Hprof as (_ & _ & Hle & _ & _ & Hps & Hmap).
  destruct Hpoled as (Hiev & _). rewrite Hiev, (Hdeg v c2 Hc2) in Hle.
  assert (degree m v ≤ length (VertCap.input_edge_verts c4)) as Hge.
  { unfold degree.
    rewrite <- (length_map fst), <- (length_map ev_e (VertCap.input_edge_verts c4)).
    apply submseteq_length, NoDup_submseteq; [apply incident_edges_NoDup | ].
    intros j Hj. apply incident_edges_elem in Hj as (x & y & Hxy & Hv).
    destruct (Hkeys j x y Hxy) as (cx & cy & Hcx & Hcy & Hex & Hey).
    apply Hmap. destruct Hv as [->| ->].
    - rewrite Hc5 in Hcx. inversion Hcx; subst cx. rewrite Hce in Hex. exact Hex.
    - rewrite Hc5 in Hcy. inversion Hcy; subst cy. rewrite Hce in Hey. exact Hey. }
  assert (length (VertCap.input_edge_verts c4) = degree m v) as Hn by lia.
  rewrite Hn in *. rewrite Hce. cbn. auto.
Qed.

(** The shape of the result of a build that returned normally. *)
Lemma build_shape atan2 m kw me w' :
  (∀ x y, (x, y) ∈ mesh_edges m → x ≠ y) →
  WireSkin.create_mesh atan2 (WireSkin.init m kw) = (Ok me, w') →
  ∃ walls,
    length (vert_caps w') = length (vertices m)
    ∧ BMesh.verts me
      = flat_map VertCap.poles (vert_caps w')
        ++ flat_map (λ c, flat_map profile_verts (VertCap.profiles c)) (vert_caps w')
    ∧ BMesh.faces me = flat_map intra_cap_faces (vert_caps w') ++ walls
    ∧ Forall (wall_of (vert_caps w')) walls
    ∧ Forall maps_profiles (vert_caps w')
    ∧ ∀ v c, vert_caps w' !! v = Some c →
        length (VertCap.poles c) = Nat.min (degree m v) 2
        ∧ length (VertCap.profiles c) = degree m v.
Proof.
  intros Hloop H.
  destruct (build_ok atan2 m kw me w' Hloop H)
    as (cl & b0 & caps2 & b3 & caps3 & b4 & caps4 & caps5 & pcs & walls & -> & Hv0 & Hu2 & Hlen2
        & Hdeg & H3 & HQ3 & H03 & H4 & HQ4 & HQ5 & H05 & Hme & Hfaces & Hwalls & Hkeys).
  cbn [vert_caps]. exists walls.
  apply poles_verts in H3 as (b3' & caps3' & E3 & Hv3); [ | exact Hu2].
  inversion E3; subst b3' caps3'. clear E3. rewrite Hv0 in Hv3. cbn in Hv3.
  apply profiles_verts in H4 as (b4' & caps4' & E4 & Hmaps & Hv4); [ | exact H03 | ].
  2: { apply Forall_lookup. intros i c3 Hc3.
       destruct (Forall2_lookup_r _ _ _ _ _ HQ3 Hc3) as (c2 & _ & (_ & Hp & Hm & _)). auto. }
  inversion E4; subst b4' caps4'. clear E4.
  assert (flat_map VertCap.poles caps3 = flat_map VertCap.poles caps5) as Ep.
  { rewrite (flat_map_Forall2 VertCap.poles VertCap.poles caps3 caps4).
    - apply flat_map_Forall2. eapply Forall2_impl; [exact HQ5 | ].
      intros c4 c5 [[ce ->] _]. reflexivity.
    - eapply Forall2_impl; [exact HQ4 | ]. intros c3 c4 (Hp & _). symmetry. exact Hp. }
  assert (flat_map (λ c, flat_map profile_verts (VertCap.profiles c)) caps4
          = flat_map (λ c, flat_map profile_verts (VertCap.profiles c)) caps5) as Eq.
  { apply flat_map_Forall2. eapply Forall2_impl; [exact HQ5 | ].
    intros c4 c5 [[ce ->] _]. reflexivity. }
  split.
  { rewrite <- (Forall2_length _ _ _ HQ5), <- (Forall2_length _ _ _ HQ4),
      <- (Forall2_length _ _ _ HQ3). exact Hlen2. }
  split; [rewrite Hme, Hv4, Hv3, Ep, Eq; reflexivity | ].
  split; [exact Hfaces | ]. split; [exact Hwalls | ]. split.
  { apply Forall_lookup. intros i c5 Hc5.
    destruct (Forall2_lookup_r _ _ _ _ _ HQ5 Hc5) as (c4 & Hc4 & ([ce ->] & _)).
    apply (proj1 (Forall_lookup _ _) Hmaps i c4 Hc4). }
  exact (build_cap_counts m caps2 caps3 caps4 caps5 Hdeg HQ3 HQ4 HQ5 Hkeys).
Qed.

(** X10.  The vertices of the mesh that a build of a new [WireSkin] returns
    (on a wireframe without an edge from a vertex to itself) are the poles of
    all caps, in the order of the wireframe vertices, followed by the four
    vertices of every profile of every cap, in the same order; their number
    is the sum over the vertices of [min d 2], plus the sum of [4 * d], for
    the degree [d] of each vertex. *)
Theorem build_vertices (atan2 : float → float → float) (m : Mesh) (kw : Kwargs)
    (me : BMesh.t) (w' : World) :
  (∀ x y, (x, y) ∈ mesh_edges m → x ≠ y) →
  WireSkin.create_mesh atan2 (WireSkin.init m kw) = (Ok me, w') →
  BMesh.verts me
  = flat_map VertCap.poles (vert_caps w')
    ++ flat_map (λ c, flat_map profile_verts (VertCap.profiles c)) (vert_caps w')
  ∧ length (BMesh.verts me)
    = sum_list (map (λ v, Nat.min (degree m v) 2) (seq 0 (length (vertices m))))
      + sum_list (map (λ v, 4 * degree m v) (seq 0 (length (vertices m)))).
Proof.
  intros Hloop H.
  destruct (build_shape atan2 m kw me w' Hloop H) as (walls & Hlen & Hverts & _ & _ & _ & Hcount).
  split; [exact Hverts | ].
  rewrite Hverts, length_app, <- Hlen. f_equal.
  - apply length_flat_map_seq. intros i c Hc. apply (Hcount i c Hc).
  - apply length_flat_map_seq. intros i c Hc. cbn [Nat.add].
    rewrite <- (proj2 (Hcount i c Hc)).
    generalize (VertCap.profiles c). intros ps. induction ps as [|p ps IH]; cbn; [reflexivity | ].
    rewrite IH. lia.
Qed.

Lemma build_vertices_witness :
  (∀ x y, (x, y) ∈ mesh_edges Examples.mesh_corner → x ≠ y)
  ∧ WireSkin.create_mesh Atan2.atan2 (WireSkin.init Examples.mesh_corner Examples.kw_full)
    = (Ok Examples.corner_skin, Examples.corner_run.2)
  ∧ BMesh.verts Examples.corner_skin
    = flat_map VertCap.poles (vert_caps Examples.corner_run.2)
      ++ flat_map (λ c, flat_map profile_verts (VertCap.profiles c))
           (vert_caps Examples.corner_run.2)
  ∧ length (BMesh.verts Examples.corner_skin) = (1 + 2 + 1) + (4 + 8 + 4).
Proof.
  assert (Hloop : ∀ x y, (x, y) ∈ mesh_edges Examples.mesh_corner → x ≠ y).
  { intros x y Hxy. cbn in Hxy. apply elem_of_cons in Hxy as [Hxy|Hxy].
    - inversion Hxy; subst. lia.
    - apply list_elem_of_singleton in Hxy. inversion Hxy; subst. lia. }
  assert (Hrun : WireSkin.create_mesh Atan2.atan2
                   (WireSkin.init Examples.mesh_corner Examples.kw_full)
                 = (Ok Examples.corner_skin, Examples.corner_run.2))
    by (vm_compute; reflexivity).
  split; [exact Hloop | ]. split; [exact Hrun | ].
  destruct (build_vertices _ _ _ _ _ Hloop Hrun) as [H1 H2].
  split; [exact H1 | ]. rewrite H2. vm_compute. reflexivity.
Defined.

Ltac in_profile := unfold profile_verts; cbn; rewrite !elem_of_cons; auto 10.

Lemma end_cap_faces_corners poles p f :
  f ∈ end_cap_faces poles p →
  (length f = 3 ∨ length f = 4) ∧ ∀ v, v ∈ f → v ∈ poles ∨ v ∈ profile_verts p.
Proof.
  unfold end_cap_faces. destruct poles as [|pole0 [|pole1 [|]]]; cbn;
    intros Hf; rewrite ?elem_of_cons in Hf; try (apply elem_of_nil in Hf; contradiction).
  - split; [left; destruct Hf as [->|[->|[->|[->|Hf]]]];
              [reflexivity .. | apply elem_of_nil in Hf; contradiction] | ].
    intros v Hv. destruct Hf as [->|[->|[->|[->|Hf]]]];
      [ .. | apply elem_of_nil in Hf; contradiction];
      rewrite !elem_of_cons in Hv;
      (destruct Hv as [->|[->|[->|Hv]]];
       [left; left | right; in_profile | right; in_profile
       | apply elem_of_nil in Hv; contradiction]).
  - split; [left; destruct Hf as [->|[->|Hf]];
              [reflexivity .. | apply elem_of_nil in Hf; contradiction] | ].
    intros v Hv. destruct Hf as [->|[->|Hf]]; [ .. | apply elem_of_nil in Hf; contradiction];
      rewrite !elem_of_cons in Hv;
      (destruct Hv as [->|[->|[->|Hv]]];
       [left; rewrite !elem_of_cons; auto | right; in_profile
       | right; in_profile | apply elem_of_nil in Hv; contradiction]).
Qed.

Lemma lens_faces_corners poles this next f :
  f ∈ lens_faces poles this next →
  (length f = 3 ∨ length f = 4)
  ∧ ∀ v, v ∈ f → v ∈ poles ∨ v ∈ profile_verts this ∨ v ∈ profile_verts next.
Proof.
  unfold lens_faces. destruct poles as [|pole0 [|pole1 [|]]]; cbn;
    intros Hf; rewrite ?elem_of_cons in Hf; try (apply elem_of_nil in Hf; contradiction).
  destruct Hf as [->|[->|[->|Hf]]]; [ .. | apply elem_of_nil in Hf; contradiction].
  - split; [left; reflexivity | ]. intros v Hv. rewrite !elem_of_cons in Hv.
    destruct Hv as [->|[->|[->|Hv]]];
      [left; rewrite !elem_of_cons; auto | right; left; in_profile
      | right; right; in_profile | apply elem_of_nil in Hv; contradiction].
  - split; [left; reflexivity | ]. intros v Hv. rewrite !elem_of_cons in Hv.
    destruct Hv as [->|[->|[->|Hv]]];
      [left; rewrite !elem_of_cons; auto | right; right; in_profile
      | right; left; in_profile | apply elem_of_nil in Hv; contradiction].
  - split; [right; reflexivity | ]. intros v Hv. rewrite !elem_of_cons in Hv.
    destruct Hv as [->|[->|[->|[->|Hv]]]];
      [right; left; in_profile | right; left; in_profile
      | right; right; in_profile | right; right; in_profile
      | apply elem_of_nil in Hv; contradiction].
Qed.

Lemma intra_cap_faces_corners c f :
  f ∈ intra_cap_faces c → (length f = 3 ∨ length f = 4) ∧ ∀ v, v ∈ f → cap_vertex c v.
Proof.
  unfold intra_cap_faces. rewrite elem_of_app. intros [Hf|Hf].
  - apply list_elem_of_In, in_flat_map in Hf as (p & Hp & Hf).
    apply list_elem_of_In in Hp, Hf.
    destruct (end_cap_faces_corners _ _ _ Hf) as [Hlen Hv]. split; [exact Hlen | ].
    intros v Hin. destruct (Hv v Hin) as [H|H]; [left; exact H | right; eauto].
  - apply list_elem_of_In, in_flat_map in Hf as (i & _ & Hf). apply list_elem_of_In in Hf.
    destruct (VertCap.profiles c !! i) as [this|] eqn:Hthis;
      [ | apply elem_of_nil in Hf; contradiction].
    destruct (VertCap.profiles c !! _) as [next|] eqn:Hnext in Hf;
      [ | apply elem_of_nil in Hf; contradiction].
    destruct (lens_faces_corners _ _ _ _ Hf) as [Hlen Hv]. split; [exact Hlen | ].
    intros v Hin. destruct (Hv v Hin) as [H|[H|H]]; [left; exact H | right | right].
    + exists this. split; [eapply list_elem_of_lookup_2; exact Hthis | exact H].
    + exists next. split; [eapply list_elem_of_lookup_2; exact Hnext | exact H].
Qed.

(** X11.  Every face of the mesh that a build of a new [WireSkin] returns (on
    a wireframe without an edge from a vertex to itself) is a triangle or a
    quad, and each of its corners is a vertex of that mesh. *)
Theorem faces_use_mesh_vertices (atan2 : float → float → float) (m : Mesh) (kw : Kwargs)
    (me : BMesh.t) (w' : World) :
  (∀ x y, (x, y) ∈ mesh_edges m → x ≠ y) →
  WireSkin.create_mesh atan2 (WireSkin.init m kw) = (Ok me, w') →
  ∀ f, f ∈ BMesh.faces me →
       (length f = 3 ∨ length f = 4) ∧ ∀ v, v ∈ f → v ∈ BMesh.verts me.
Proof.
  intros Hloop H.
  destruct (build_shape atan2 m kw me w' Hloop H)
    as (walls & _ & Hverts & Hfaces & Hwalls & Hmaps & _).
  assert (∀ c p v, c ∈ vert_caps w' → p ∈ VertCap.profiles c → v ∈ profile_verts p →
                   v ∈ BMesh.verts me) as Hprofile.
  { intros c p v Hc Hp Hv. rewrite Hverts, elem_of_app. right.
    apply list_elem_of_In, in_flat_map. exists c. split; [apply list_elem_of_In; exact Hc | ].
    apply in_flat_map. exists p. split; apply list_elem_of_In; assumption. }
  intros f Hf. rewrite Hfaces, elem_of_app in Hf. destruct Hf as [Hf|Hf].
  - apply list_elem_of_In, in_flat_map in Hf as (c & Hc & Hf).
    apply list_elem_of_In in Hc, Hf.
    destruct (intra_cap_faces_corners c f Hf) as [Hlen Hv]. split; [exact Hlen | ].
    intros v Hin. destruct (Hv v Hin) as [Hpole|(p & Hp & Hpv)].
    + rewrite Hverts, elem_of_app. left. apply list_elem_of_In, in_flat_map.
      exists c. split; apply list_elem_of_In; assumption.
    + eapply Hprofile; eassumption.
  - destruct (proj1 (Forall_forall _ _) Hwalls f Hf) as [Hlen Hv].
    split; [right; exact Hlen | ]. intros v Hin.
    destruct (Hv v Hin) as (c & e & p & Hc & Hp & Hpv).
    apply (Hprofile c p v Hc); [ | exact Hpv].
    apply (proj1 (Forall_forall _ _) Hmaps c Hc e p Hp).
Qed.

Lemma faces_use_mesh_vertices_witness :
  (∀ x y, (x, y) ∈ mesh_edges Examples.mesh_segment → x ≠ y)
  ∧ WireSkin.create_mesh Atan2.atan2 (WireSkin.init Examples.mesh_segment Examples.kw_full)
    = (Ok Examples.segment_skin, Examples.segment_run.2)
  ∧ length (BMesh.faces Examples.segment_skin) = 12
  ∧ ∀ f, f ∈ BMesh.faces Examples.segment_skin →
         (length f = 3 ∨ length f = 4) ∧ ∀ v, v ∈ f → v ∈ BMesh.verts Examples.segment_skin.
Proof.
  assert (Hloop : ∀ x y, (x, y) ∈ mesh_edges Examples.mesh_segment → x ≠ y).
  { intros x y Hxy. cbn in Hxy. apply list_elem_of_singleton in Hxy.
    inversion Hxy; subst. lia. }
  assert (Hrun : WireSkin.create_mesh Atan2.atan2
                   (WireSkin.init Examples.mesh_segment Examples.kw_full)
                 = (Ok Examples.segment_skin, Examples.segment_run.2))
    by (vm_compute; reflexivity).
  split; [exact Hloop | ]. split; [exact Hrun | ]. split; [reflexivity | ].
  exact (faces_use_mesh_vertices _ _ _ _ _ Hloop Hrun).
Defined.

(** ** A wireframe without edges *)

Lemma for_each_noop {S X} (l : list X) (body : X → M S unit) s :
  (∀ x, x ∈ l → body x s = (Ok tt, s)) → for_each l body s = (Ok tt, s).
Proof.
  induction l as [|x l IH]; intros H; cbn; [reflexivity | ].
  rewrite (bind_eq_ok _ _ s tt s) by (apply H; left). apply IH.
  intros y Hy. apply H. right. exact Hy.
Qed.

Lemma with_cap_noop i (body : M VertCap.St unit) b m kw cl caps pcs c :
  caps !! i = Some c → VertCap.bm c = 0 → body (c, b) = (Ok tt, (c, b)) →
  with_cap i body (mkWorld [b] m kw cl caps pcs) = (Ok tt, mkWorld [b] m kw cl caps pcs).
Proof.
  intros Hc Hbm Hrun.
  rewrite (with_cap_run i body (mkWorld [b] m kw cl caps pcs) c b (Ok tt) c);
    [ | exact Hc | rewrite Hbm; reflexivity | exact Hrun].
  cbn. rewrite list_insert_id by exact Hc. reflexivity.
Qed.

Lemma idle_caps_loop (body : list VertCap.t → M VertCap.St unit) b m kw cl caps pcs :
  Forall idle caps →
  (∀ cs c, idle c → body cs (c, b) = (Ok tt, (c, b))) →
  WireSkin.for_each_vert_cap
    (λ i, bind (gets vert_caps) (λ cs, with_cap i (body cs))) (mkWorld [b] m kw cl caps pcs)
  = (Ok tt, mkWorld [b] m kw cl caps pcs).
Proof.
  intros Hidle Hbody. unfold WireSkin.for_each_vert_cap. rewrite bind_gets.
  apply for_each_noop. intros i Hi. apply elem_of_seq in Hi as [_ Hi]. cbn in Hi.
  destruct (lookup_lt_is_Some_2 caps i Hi) as [c Hc].
  pose proof (proj1 (Forall_lookup _ _) Hidle i c Hc) as Hci.
  rewrite bind_gets. apply (with_cap_noop i _ b m kw cl caps pcs c Hc); [apply Hci | ].
  apply Hbody. exact Hci.
Qed.

Lemma init_idle v kw : has_radii kw → ∃ c, VertCap.init v 0 kw = Ok c ∧ idle c.
Proof.
  intros [[ri Hi] [ro Ho]]. unfold VertCap.init. rewrite Hi, Ho.
  eexists. split; [reflexivity | ]. repeat split.
Qed.

Lemma init_is_idle v kw c : VertCap.init v 0 kw = Ok c → idle c.
Proof.
  unfold VertCap.init, VertCap.self_radius.
  destruct (kw_inside_radius kw), (kw_outside_radius kw); intros H; inversion H.
  repeat split.
Qed.

Lemma edgeless_phases atan2 m kw b0 cl :
  has_radii kw → mesh_edges m = [] → BMesh.is_valid b0 = true →
  ∃ caps,
    phases atan2 0 (mkWorld [b0] m kw cl [] [])
    = (Ok b0, mkWorld [BMesh.mk false (BMesh.verts b0) (BMesh.edges b0) (BMesh.faces b0)
                         (BMesh.has_crease_layer b0)] m kw cl caps [])
    ∧ length caps = length (vertices m) ∧ Forall idle caps.
Proof.
  intros Hr He Hv.
  destruct (create_vert_caps_run 0 (mkWorld [b0] m kw cl [] []) Hr) as (caps & Hrun & Hall).
  cbn in Hrun, Hall. exists caps.
  assert (Forall idle caps) as Hidle.
  { apply Forall_lookup. intros i c Hc.
    destruct (Forall2_lookup_r _ _ _ _ _ Hall Hc) as (v & _ & Hinit).
    eapply init_is_idle. exact Hinit. }
  split; [ | split; [symmetry; eapply Forall2_length; exact Hall | exact Hidle]].
  set (W := mkWorld [b0] m kw cl caps []).
  unfold phases. rewrite (bind_eq_ok _ _ _ tt W) by exact Hrun.
  rewrite (bind_eq_ok _ _ _ tt W).
  2: { unfold WireSkin.add_edges_to_vert_caps. rewrite bind_gets. unfold id, W. cbn [mesh].
       rewrite He. reflexivity. }
  rewrite (bind_eq_ok _ _ _ tt W).
  2: { apply (idle_caps_loop (λ _, VertCap.create_pole_verts)); [exact Hidle | ].
       intros _ c (_ & Hiev & _). unfold VertCap.create_pole_verts. rewrite bind_self, Hiev.
       reflexivity. }
  rewrite (bind_eq_ok _ _ _ tt W).
  2: { apply (idle_caps_loop (VertCap.create_profiles atan2)); [exact Hidle | ].
       intros cs c (_ & Hiev & _). unfold VertCap.create_profiles. rewrite bind_self, Hiev.
       reflexivity. }
  rewrite (bind_eq_ok _ _ _ tt W).
  2: { unfold WireSkin.create_vert_cap_faces, WireSkin.for_each_vert_cap. rewrite bind_gets.
       apply for_each_noop. intros i Hi. apply elem_of_seq in Hi as [_ Hi]. cbn in Hi.
       destruct (lookup_lt_is_Some_2 caps i Hi) as [c Hc].
       destruct (proj1 (Forall_lookup _ _) Hidle i c Hc) as (Hbm & Hiev & _ & Hps & _).
       rewrite (bind_eq_ok _ _ _ tt W).
       - apply (with_cap_noop i _ b0 m kw cl caps [] c Hc Hbm).
         unfold VertCap.create_inter_profile_faces. rewrite bind_self, Hiev. reflexivity.
       - apply (with_cap_noop i _ b0 m kw cl caps [] c Hc Hbm).
         unfold VertCap.create_pole_faces. rewrite bind_self, Hps. reflexivity. }
  rewrite (bind_eq_ok _ _ _ tt W).
  2: { unfold WireSkin.connect_profiles. rewrite bind_gets. unfold id, W. cbn [mesh].
       rewrite He. reflexivity. }
  rewrite (bind_eq_ok _ _ _ tt W).
  2: { unfold WireSkin.crease_edges. rewrite bind_gets. unfold W at 1. cbn [crease_layer].
       destruct cl as [l|]; [ | reflexivity].
       rewrite (bind_eq_ok _ _ _ tt W); [reflexivity | ].
       apply (idle_caps_loop (λ _, VertCap.crease_edges)); [exact Hidle | ].
       intros _ c (_ & _ & _ & _ & Hce). unfold VertCap.crease_edges.
       rewrite bind_self, Hce. reflexivity. }
  unfold W, on_bmesh, BMesh.to_mesh, BMesh.free, BMesh.check_valid.
  unfold bind, gets, modify, ret, raise. cbn. rewrite Hv. reflexivity.
Qed.

(** X12.  On a wireframe without edges and with both radii configured, a
    build of a new [WireSkin] returns normally, whatever the vertices are: the
    mesh it returns has no vertex, no edge and no face, and the object is left
    with one cap per vertex, each without a pole and without a profile, and
    with no connector. *)
Theorem edgeless_build (atan2 : float → float → float) (m : Mesh) (kw : Kwargs) :
  has_radii kw → mesh_edges m = [] →
  ∃ me w',
    WireSkin.create_mesh atan2 (WireSkin.init m kw) = (Ok me, w')
    ∧ BMesh.verts me = [] ∧ BMesh.edges me = [] ∧ BMesh.faces me = []
    ∧ length (vert_caps w') = length (vertices m)
    ∧ Forall (λ c, VertCap.poles c = [] ∧ VertCap.profiles c = []) (vert_caps w')
    ∧ profile_connectors w' = [].
Proof.
  intros Hr He. rewrite create_mesh_unfold.
  change (length (bmeshes (WireSkin.init m kw))) with 0.
  assert (∃ b0 cl, prepared (WireSkin.init m kw) = mkWorld [b0] m kw cl [] []
                   ∧ BMesh.is_valid b0 = true ∧ BMesh.verts b0 = []
                   ∧ BMesh.edges b0 = [] ∧ BMesh.faces b0 = [])
    as (b0 & cl & -> & Hv & Hvs & Hes & Hfs).
  { unfold prepared, WireSkin.init. cbn. destruct (kw_crease kw) as [[x|]|]; eauto 10. }
  destruct (edgeless_phases atan2 m kw b0 cl Hr He Hv) as (caps & -> & Hlen & Hidle).
  do 2 eexists. split; [reflexivity | ]. cbn.
  split; [exact Hvs | ]. split; [exact Hes | ]. split; [exact Hfs | ]. split; [exact Hlen | ].
  split; [ | reflexivity].
  eapply Forall_impl; [exact Hidle | ]. intros c (_ & _ & Hp & Hps & _). auto.
Qed.

Lemma edgeless_build_witness :
  has_radii Examples.kw_full
  ∧ mesh_edges Examples.mesh_point = []
  ∧ ∃ me w',
      WireSkin.create_mesh Atan2.atan2 (WireSkin.init Examples.mesh_point Examples.kw_full)
      = (Ok me, w')
      ∧ BMesh.verts me = [] ∧ BMesh.faces me = [] ∧ length (vert_caps w') = 1.
Proof.
  assert (Hr : has_radii Examples.kw_full) by (split; eexists; reflexivity).
  assert (He : mesh_edges Examples.mesh_point = []) by reflexivity.
  split; [exact Hr | ]. split; [exact He | ].
  destruct (edgeless_build Atan2.atan2 _ _ Hr He) as (me & w' & H1 & H2 & _ & H4 & H5 & _).
  exists me, w'. split; [exact H1 | ]. split; [exact H2 | ]. split; [exact H4 | exact H5].
Defined.
